(** * OpenColorIO: 1D LUT texture packing, GPU addressing and color space sets

    A shallow embedding of
    - [src/OpenColorIO/ops/Lut1D/Lut1DOpGPU.cpp]: [PadLutChannels], the
      texture geometry and the addressing code synthesized by
      [GetLut1DGPUShaderProgram];
    - [src/OpenColorIO/ColorSpaceSet.cpp]: [ColorSpaceSet::Impl] and the set
      operators.

    Conventions.  An [unsigned long] is a [Z] in [0, 2^64) and every C++
    arithmetic operation on it is followed by [ulong], its wrap-around.  A
    [std::vector<float>] is a [list] of floats; reading it outside of its
    bounds is a fault of the model, reported with the place of the read, and
    it holds at most [max_size] floats. *)

From Stdlib Require Import ZArith QArith Qround Qabs Qminmax Qpower Qfield Lqa.
From Stdlib Require Import Floats.SpecFloat Strings.Ascii.
From stdpp Require Import base tactics option list strings pretty.

Local Open Scope Z_scope.

Ltac Zify.zify_post_hook ::= Z.to_euclidean_division_equations.

(** * Part I: the model *)

(** ** Unsigned 64-bit arithmetic *)

Module ULong.

Definition modulus : Z := 2 ^ 64.

(** Wrap-around of [unsigned long] arithmetic. *)
Definition ulong (x : Z) : Z := x mod modulus.

(** The values an [unsigned long] can hold. *)
Definition in_range (x : Z) : Prop := 0 ≤ x < modulus.

(** [std::vector<float>::max_size()] on a 64-bit platform:
    [PTRDIFF_MAX / sizeof(float)]. *)
Definition max_size : Z := 2 ^ 61 - 1.

End ULong.

Import ULong.

(** ** Outcome of a run

    [Returned] is a normal return.  [OutOfRange] is a read of the input
    vector outside of its bounds, with the place of the read.  [LengthError]
    is the exception that ends the run when the output vector would have to
    hold more than [max_size] floats: the [std::length_error] of
    [push_back], or the [std::bad_alloc] of a machine whose memory is used
    up before.  [Unfinished] is a loop that is still running when the fuel
    of the model is used up. *)

Inductive site : Set :=
| SteppedLoop    (* the loop over the rows, lines 36-47 *)
| LeftoverCopy   (* the copy of the last partial row, lines 50-60 *)
| TailPadding.   (* the padding of the texture, lines 73-79 *)

Inductive outcome (A : Type) : Type :=
| Returned (a : A)
| OutOfRange (s : site)
| LengthError
| Unfinished.

Arguments Returned {A} a.
Arguments OutOfRange {A} s.
Arguments LengthError {A}.
Arguments Unfinished {A}.

Definition obind {A B} (m : outcome A) (k : A → outcome B) : outcome B :=
  match m with
  | Returned a => k a
  | OutOfRange s => OutOfRange s
  | LengthError => LengthError
  | Unfinished => Unfinished
  end.

(** A read that fails is an out-of-range read at [s]. *)
Definition reading {A} (s : site) (r : option A) : outcome A :=
  match r with
  | Some a => Returned a
  | None => OutOfRange s
  end.

Notation "x ←← m ; k" := (obind m (fun x => k))
  (at level 100, m at next level, right associativity, only parsing).

(** ** The texture packer: [PadLutChannels] *)

Section Packer.

(** [SanitizeFloat] is declared in [MathUtils.h], which is not among the
    sources: the packer is embedded for any type of floats and any
    sanitizing function. *)
Context {F : Type} (SanitizeFloat : F → F).

Implicit Types (channel chn : list F).

(** [channel.size()], a [size_t]. *)
Definition size (channel : list F) : Z := Z.of_nat (length channel).

(** [channel[k]] for an [unsigned long] index [k]. *)
Definition at_index channel (k : Z) : option F :=
  if decide (0 ≤ k < size channel) then channel !! Z.to_nat k else None.

(** [std::transform(&channel[first], &channel[last], std::back_inserter(chn),
    SanitizeFloat)]: the sanitized floats of [first, last).  The range must
    lie within the vector ([last] may be one past its end). *)
Definition transform_range channel (first last : Z) : option (list F) :=
  if decide (0 ≤ first ≤ last ∧ last ≤ size channel)
  then Some (SanitizeFloat <$> take (Z.to_nat (last - first)) (drop (Z.to_nat first) channel))
  else None.

(** The three [chn.push_back(SanitizeFloat(channel[3 * t + j]))], j = 0, 1, 2. *)
Definition push_triple channel (t : Z) : option (list F) :=
  r ← at_index channel (ulong (ulong (3 * t) + 0));
  g ← at_index channel (ulong (ulong (3 * t) + 1));
  b ← at_index channel (ulong (ulong (3 * t) + 2));
  Some [SanitizeFloat r; SanitizeFloat g; SanitizeFloat b].

(** The loop of lines 36-47, entered with the current [i], [leftover] and
    [chn]; [bound] is [currWidth - step]. *)
Fixpoint stepped_loop (fuel : nat) channel (bound step i leftover : Z) chn
  : outcome (Z * list F) :=
  if decide (i < bound) then
    match fuel with
    | O => Unfinished
    | S fuel' =>
        row ←← reading SteppedLoop
                (transform_range channel (ulong (3 * i)) (ulong (3 * ulong (i + step))));
        last ←← reading SteppedLoop (push_triple channel (ulong (i + step)));
        stepped_loop fuel' channel bound step
          (ulong (i + step)) (ulong (leftover - step)) (chn ++ row ++ last)
    end
  else Returned (leftover, chn).

(** Lines 50-60: the texels that are left after the loop. *)
Definition leftover_copy channel (currWidth leftover : Z) chn : outcome (list F) :=
  if decide (0 < leftover) then
    row ←← reading LeftoverCopy
            (transform_range channel (ulong (3 * ulong (currWidth - leftover)))
                                     (ulong (3 * ulong (currWidth - 1))));
    last ←← reading LeftoverCopy (push_triple channel (ulong (currWidth - 1)));
    Returned (chn ++ row ++ last)
  else Returned chn.

(** Lines 73-79: [missingEntries] copies of the last LUT entry.  The body of
    the loop does not depend on [idx], so the entry is read once.  The
    packer only adds to [chn], which holds at most [max_size] floats: the
    limit is checked here, on the vector that the padding completes. *)
Definition tail_padding channel (currWidth missingEntries : Z) chn : outcome (list F) :=
  if decide (0 < missingEntries) then
    last ←← reading TailPadding (push_triple channel (ulong (currWidth - 1)));
    if decide (size chn + 3 * missingEntries ≤ max_size)
    then Returned (chn ++ mjoin (replicate (Z.to_nat missingEntries) last))
    else LengthError
  else if decide (size chn ≤ max_size) then Returned chn
  else LengthError.

Definition PadLutChannels_fuel (fuel : nat) (width height : Z) channel : outcome (list F) :=
  let currWidth := ulong (size channel / 3) in
  chn ←← (if decide (1 < height) then
            let leftover := currWidth in
            let step := ulong (width - 1) in
            after ←← stepped_loop fuel channel (ulong (currWidth - step))
                                  step 0 leftover [];
            leftover_copy channel currWidth after.1 after.2
          else Returned (SanitizeFloat <$> channel));
  let missingEntries := ulong (ulong (width * height) - ulong (size chn) / 3) in
  tail_padding channel currWidth missingEntries chn.

(** One iteration of the loop for each float of the input is enough
    whenever the loop ends (see [stepped_loop_ends]). *)
Definition PadLutChannels (width height : Z) channel : outcome (list F) :=
  PadLutChannels_fuel (S (length channel)) width height channel.

(** Lines 23-68 alone: the vector [chn] when the padding starts. *)
Definition texels_before_padding (fuel : nat) (width height : Z) channel
  : outcome (list F) :=
  let currWidth := ulong (size channel / 3) in
  if decide (1 < height) then
    let leftover := currWidth in
    let step := ulong (width - 1) in
    after ←← stepped_loop fuel channel (ulong (currWidth - step))
                          step 0 leftover [];
    leftover_copy channel currWidth after.1 after.2
  else Returned (SanitizeFloat <$> channel).

(** Line 73: the number of entries that the padding loop appends. *)
Definition missingEntries (width height : Z) chn : Z :=
  ulong (ulong (width * height) - ulong (size chn) / 3).

End Packer.

(** ** The packed layout

    Texel [col] of row [row] of the packed texture holds the input triple
    [row * (width - 1) + col], or the last input triple when the input is
    over. *)

Section Layout.

Context {F : Type} (SanitizeFloat : F → F).

Implicit Types (channel chn out : list F).

(** The sanitized floats of [channel] at [a, a + n). *)
Definition window channel (a n : Z) : list F :=
  SanitizeFloat <$> take (Z.to_nat n) (drop (Z.to_nat a) channel).

Definition source_triple channel (width row col : Z) : Z :=
  Z.min (size channel / 3 - 1) (row * (width - 1) + col).

Definition packed channel (width : Z) out : Prop :=
  ∀ row col e,
    0 ≤ row → 0 ≤ col < width → 0 ≤ e < 3 →
    3 * (row * width + col) + e < size out →
    out !! Z.to_nat (3 * (row * width + col) + e)
    = SanitizeFloat <$> channel !! Z.to_nat (3 * source_triple channel width row col + e).

(** The number of whole rows that the loop writes. *)
Definition whole_rows channel (width : Z) : Z := (size channel / 3 - 1) / (width - 1).

(** The texels written before the tail padding when [height > 1], and the
    padding. *)
Definition written channel (width : Z) : Z :=
  size channel / 3 + whole_rows channel width.

Definition missing channel (width height : Z) : Z :=
  ulong (ulong (width * height) - written channel width).

(** The RGB triple number [t] of a vector of interleaved floats. *)
Definition triple_at (l : list F) (t : Z) : option (F * F * F) :=
  if decide (0 ≤ t) then
    r ← l !! Z.to_nat (3 * t + 0);
    g ← l !! Z.to_nat (3 * t + 1);
    b ← l !! Z.to_nat (3 * t + 2);
    Some (r, g, b)
  else None.

(** Texel [col] of row [row] of a packed texture of the given width. *)
Definition texel out (width row col : Z) : option (F * F * F) :=
  triple_at out (row * width + col).

Definition sanitize_triple (t : F * F * F) : F * F * F :=
  (SanitizeFloat t.1.1, SanitizeFloat t.1.2, SanitizeFloat t.2).

(** The texels written before the tail padding. *)
Definition texels_written channel (width height : Z) : Z :=
  if decide (1 < height) then written channel width else size channel / 3.

(** The calls for which the packer is meant: the arguments are values of
    their C++ types, the input is made of at least one whole triple and,
    for several rows, of at least [width - 1] triples, the texture is
    large enough for the texels to write, and a vector can hold it. *)
Definition valid_call channel (width height : Z) : Prop :=
  in_range width ∧ in_range height ∧ in_range (width * height)
  ∧ size channel ≤ max_size
  ∧ size channel `mod` 3 = 0
  ∧ 1 ≤ size channel / 3
  ∧ (1 < height → 2 ≤ width ∧ width - 1 ≤ size channel / 3)
  ∧ texels_written channel width height ≤ width * height
  ∧ 3 * (width * height) ≤ max_size.

(** The preconditions of section 4.1, alone: [width >= 2] when
    [height > 1], and a number of floats divisible by 3. *)
Definition stated_preconditions channel (width height : Z) : Prop :=
  (1 < height → 2 ≤ width) ∧ size channel `mod` 3 = 0.

End Layout.

(** A width for which [3 * (width - 1)] is 1 modulo [2^64]. *)
Definition wrapping_width : Z := 12297829382473034412.


(** ** Single-precision floats and the unit tests of the packer *)

Module Float32.

Definition prec : Z := 24.
Definition emax : Z := 128.

(** An IEEE-754 binary32 value. *)
Definition float : Set := spec_float.

(** [float(idx)] *)
Definition of_Z (n : Z) : float := binary_normalize prec emax n 0 false.

Definition add (x y : float) : float := SFadd prec emax x y.

Definition sub (x y : float) : float := SFsub prec emax x y.

(** The integer that a float is, for a finite float whose value is an
    integer. *)
Definition to_Z (x : float) : Z :=
  match x with
  | S754_finite s m e => cond_Zopp s (Z.shiftl (Zpos m) e)
  | _ => 0
  end.

(** The literal [n/10] written with one decimal, as in [3.1f]: the
    binary32 value nearest to it. *)
Definition tenths (n : Z) : float := SFdiv prec emax (of_Z n) (of_Z 10).

(** [FLT_MAX] *)
Definition max_float : float := S754_finite false 16777215 104.

(** Modelled from the spec: [SanitizeFloat] of [MathUtils.h], which is not
    among the sources.  A non-finite float is replaced by a finite
    fallback (sections 4.1 and 7); a finite float is returned unchanged
    (section 8).  The fallbacks chosen here are zero for a NaN and the
    largest finite float of the same sign for an infinity. *)
Definition SanitizeFloat (f : float) : float :=
  match f with
  | S754_nan => S754_zero false
  | S754_infinity s => if s then SFopp max_float else max_float
  | _ => f
  end.

(** The input of the tests [pad_lut_one_dimension] and
    [pad_lut_two_dimension_*]: triple [idx] is
    [(float(idx), float(idx) + 0.1f, float(idx) + 0.2f)]. *)
Definition test_channel (triples : Z) : list float :=
  mjoin ((λ idx, [of_Z idx; add (of_Z idx) (tenths 1); add (of_Z idx) (tenths 2)])
           <$> seqZ 0 triples).

(** The array [res] of the test [pad_lut_two_dimension_2]. *)
Definition res_two_dimension_2 : list float :=
  tenths <$>
    [ 0;  1;  2;  10; 11; 12;  20; 21; 22;  30; 31; 32;
      30; 31; 32;  40; 41; 42;  50; 51; 52;  60; 61; 62;
      60; 61; 62;  70; 71; 72;  80; 81; 82;  80; 81; 82 ].

(** The array [res] of the test [pad_lut_one_dimension]. *)
Definition res_one_dimension : list float :=
  tenths <$>
    [ 0;  1;  2;  10; 11; 12;  20; 21; 22;  30; 31; 32;
      30; 31; 32;  30; 31; 32 ].

(** The array [res] of the test [pad_lut_two_dimension_1]. *)
Definition res_two_dimension_1 : list float :=
  tenths <$>
    [ 0;  1;  2;  10; 11; 12;  20; 21; 22;  30; 31; 32;
      30; 31; 32;  40; 41; 42;  50; 51; 52;  60; 61; 62;
      60; 61; 62;  70; 71; 72;  70; 71; 72;  70; 71; 72 ].

End Float32.

(** ** The addressing code synthesized by [GetLut1DGPUShaderProgram]

    The generator writes the text of a shader function
    [<name>_computePos(float f)].  Its statements are embedded here as
    functions over exact rationals: the rounding of the GPU arithmetic is
    not modelled.  An [int] of the shading language has 32 bits.  A shader
    float is a rational, an infinity or a NaN. *)

Module Shader.

Local Open Scope Q_scope.

Inductive value : Set :=
| Fin (q : Q)
| Inf (negative : bool)
| NaN.

Definition finite (v : value) : option Q :=
  match v with
  | Fin q => Some q
  | _ => None
  end.

(** [abs(v)] *)
Definition abs (v : value) : value :=
  match v with
  | Fin q => Fin (Qabs q)
  | Inf _ => Inf false
  | NaN => NaN
  end.

(** [v > c], false for a NaN *)
Definition greater (v : value) (c : Q) : bool :=
  match v with
  | Fin q => negb (Qle_bool q c)
  | Inf negative => negb negative
  | NaN => false
  end.

(** [min(v, c)], that is [c < v ? c : v] *)
Definition min (v : value) (c : Q) : value :=
  if greater v c then Fin c else v.

(** [step(edge, x)], that is [x < edge ? 0.0 : 1.0] *)
Definition step (edge : value) (x : Q) : Q :=
  if greater edge x then 0 else 1.

(** [floor(x)] *)
Definition floor (x : Q) : Q := inject_Z (Qfloor x).

(** The integer that is left when the fractional part of [x] is dropped. *)
Definition Qtruncate (x : Q) : Z := Z.quot (Qnum x) (Zpos (Qden x)).

(** [int(x)]: the conversion drops the fractional part; it is not defined
    ([None]) for an [x] beyond the 32 bits of an [int]. *)
Definition int (x : Q) : option Z :=
  let n := Qtruncate x in
  if decide (- 2 ^ 31 ≤ n ≤ 2 ^ 31 - 1)%Z then Some n else None.

(** [float(int(x))] *)
Definition float_int (x : Q) : option Q := inject_Z <$> int x.

(** [pow(2.0, e)] for an integral [e] *)
Definition pow2 (e : Z) : Q := 2 ^ e.

(** [floor(log2(x))] for a positive [x]: the quotient of the numbers of
    binary digits of the numerator and of the denominator, corrected by
    one comparison (see [floor_log2_spec]). *)
Definition floor_log2 (x : Q) : Z :=
  let e := (Z.log2 (Qnum x) - Z.log2 (Zpos (Qden x)))%Z in
  if Qle_bool (pow2 e) x then e else (e - 1)%Z.

(** [dot(a, b)] of two [vec3] *)
Definition dot (a b : Q * Q * Q) : Q :=
  a.1.1 * b.1.1 + a.1.2 * b.1.2 + a.2 * b.2.

(** [HALF_NRM_MIN] and [HALF_MAX] of [half.h], which is not among the
    sources: the smallest positive normalized half, [2^-14], and the
    largest finite half. *)
Definition HALF_NRM_MIN : Q := 1 # 16384.
Definition HALF_MAX : Q := 65504.

(** Lines 137-139.  [6.09755515e-05f] is the float [2^-14 - 2^-24]. *)
Definition NEG_MIN_EXP : Q := 15.
Definition EXP_SCALE : Q := 1024.
Definition HALF_DENRM_MAX : Q := 1023 # 16777216.

(** Line 169: the term added by [dep += step(f, 0.0) * 32768.0]. *)
Definition sign_offset (f : value) : Q := step f 0 * 32768.

(** Lines 146-157: [dep] for a normalized magnitude [absarr]. *)
Definition normalized_dep (absarr : Q) : Q :=
  let fComp_x := inject_Z (floor_log2 absarr) in
  let lower := pow2 (floor_log2 absarr) in
  let fComp_y := (absarr - lower) / lower in
  dot (fComp_x, fComp_y, NEG_MIN_EXP) (EXP_SCALE, EXP_SCALE, EXP_SCALE).

(** Line 164: [dep] for a denormalized magnitude [abs_f]. *)
Definition denormalized_dep (abs_f : Q) : Q := abs_f * 1023 / HALF_DENRM_MAX.

(** Lines 141-169: the raw half [dep] of the input [f].  [None] stands for
    a NaN. *)
Definition half_dep (f : value) : option Q :=
  let abs_f := abs f in
  dep ← (if greater abs_f HALF_NRM_MIN then
           absarr ← finite (min abs_f HALF_MAX);
           Some (normalized_dep absarr)
         else
           a ← finite abs_f;
           Some (denormalized_dep a));
  Some (dep + sign_offset f).

(** A position in the texture: [retVal.x] and [retVal.y]. *)
Record vec2 : Set := { x : Q; y : Q }.

(** Lines 175-176: [retVal.y = floor(dep / (width-1))] and
    [retVal.x = dep - retVal.y * (width-1)]. *)
Definition half_row_column (widthM1 : Q) (dep : Q) : vec2 :=
  let retVal_y := floor (dep / widthM1) in
  let retVal_x := dep - retVal_y * widthM1 in
  {| x := retVal_x; y := retVal_y |}.

(** Lines 189-191: [retVal.y = float(int(dep / (width-1)))] and
    [retVal.x = dep - retVal.y * (width-1)]. *)
Definition float_row_column (widthM1 : Q) (dep : Q) : option vec2 :=
  retVal_y ← float_int (dep / widthM1);
  let retVal_x := dep - retVal_y * widthM1 in
  Some {| x := retVal_x; y := retVal_y |}.

(** Lines 178-179 and 194-196: the centre of the texel. *)
Definition texel_centre (width height : Q) (retVal : vec2) : vec2 :=
  {| x := (x retVal + (1 # 2)) / width; y := (y retVal + (1 # 2)) / height |}.

(** [<name>_computePos] of a half-domain LUT, lines 135-180. *)
Definition computePos_half (widthM1 width height : Q) (f : value) : option vec2 :=
  dep ← half_dep f;
  Some (texel_centre width height (half_row_column widthM1 dep)).

(** [<name>_computePos] of the other LUTs, lines 181-197, for a finite [f]. *)
Definition computePos_float (lengthM1 widthM1 width height : Q) (f : Q) : option vec2 :=
  let dep := Qmin f 1 * lengthM1 in
  texel_centre width height <$> float_row_column widthM1 dep.

(** The linear index of a row and a column of a texture whose rows hold
    [width - 1] entries each. *)
Definition linear_index (widthM1 : Q) (retVal : vec2) : Q :=
  y retVal * widthM1 + x retVal.

(** The float whose IEEE-754 half-precision bit pattern is [k]: one sign
    bit, five bits of exponent and ten bits of mantissa. *)
Definition half_value (k : Z) : value :=
  let negative := bool_decide (32768 ≤ k)%Z in
  let exponent := ((k / 1024) `mod` 32)%Z in
  let mantissa := (k `mod` 1024)%Z in
  let sign : Q := if negative then -1 else 1 in
  if decide (exponent = 31%Z) then
    if decide (mantissa = 0%Z) then Inf negative else NaN
  else if decide (exponent = 0%Z) then
    Fin (sign * inject_Z mantissa * pow2 (-24))
  else
    Fin (sign * inject_Z (1024 + mantissa) * pow2 (exponent - 25)).

(** The magnitude of the finite half of bit pattern [k] in units of
    [2^-24], and its distance to the magnitude of the next half. *)
Definition half_ulp (k : Z) : Z := (2 ^ (Z.max ((k / 1024) `mod` 32) 1 - 1))%Z.

Definition half_units (k : Z) : Z :=
  (((if decide ((k / 1024) `mod` 32 = 0) then 0 else 1024) + k `mod` 1024) * half_ulp k)%Z.

End Shader.

(** ** [GetLut1DGPUShaderProgram]

    The shader text is embedded as the list of the fragments that the
    function writes, each with the numbers that it splices into the text. *)

Module GpuShader.

Inductive Lut1DHueAdjust : Set := HUE_NONE | HUE_DW3.

Inductive Interpolation : Set := INTERP_NEAREST | INTERP_LINEAR.

(** What the function reads of [Lut1DOpData]. *)
Record Lut1DOpData (F : Type) : Type := {
  getLength : Z;                      (* getArray().getLength() *)
  getValues : list F;                 (* getArray().getValues() *)
  getCacheID : string;
  getConcreteInterpolation : Interpolation;
  isInputHalfDomain : bool;
  getHueAdjust : Lut1DHueAdjust;
}.

Arguments getLength {F}.
Arguments getValues {F}.
Arguments getCacheID {F}.
Arguments getConcreteInterpolation {F}.
Arguments isInputHalfDomain {F}.
Arguments getHueAdjust {F}.

(** A texture registered by [addTexture]. *)
Record Texture (F : Type) : Type := {
  samplerName : string;
  cacheID : string;
  width : Z;
  height : Z;
  interpolation : Interpolation;
  values : list F;
}.

Arguments samplerName {F}.
Arguments cacheID {F}.
Arguments width {F}.
Arguments height {F}.
Arguments interpolation {F}.
Arguments values {F}.

(** The declaration of the texture, lines 124 and 209. *)
Inductive declaration : Set :=
| declareTex1D (name : string)
| declareTex2D (name : string).

(** The helper [<name>_computePos], lines 131-201, with the values of
    [float(length - 1)], [float(width - 1)], [float(width)] and
    [float(height)] written in its text: these floats are integers. *)
Inductive helper : Set :=
| computePosHalf (name : string) (widthM1 width height : Z)
| computePosFloat (name : string) (lengthM1 widthM1 width height : Z).

(** The lookup of the three channels, lines 237-261: through
    [<name>_computePos], or at [(rgb * (dim - 1) + 0.5) / dim], with the
    values of the floats [dim - 1] and [dim]. *)
Inductive sampling : Set :=
| sampleTex2D (name : string)
| sampleTex1D (name : string) (dimM1 dim : Z).

(** The block added to the function body, lines 213-281. *)
Record function_block : Set := {
  processing_for : string;
  hue_adjustment : bool;
  lookup : sampling;
}.

(** Modelled from the spec: the shader sink [GpuShaderDesc], which is not
    among the sources (section 6): [addTexture] registers a texture and
    the [addTo...ShaderCode] calls append to their streams. *)
Record GpuShaderDesc (F : Type) : Type := {
  getTextureMaxWidth : Z;
  getResourcePrefix : string;
  textures : list (Texture F);
  declareShaderCode : list declaration;
  helperShaderCode : list helper;
  functionShaderCode : list function_block;
}.

Arguments getTextureMaxWidth {F}.
Arguments getResourcePrefix {F}.
Arguments textures {F}.
Arguments declareShaderCode {F}.
Arguments helperShaderCode {F}.
Arguments functionShaderCode {F}.

(** How a call ends: the sink after a normal return, a fault of the
    packer, a vector of values that would be longer than [max_size]
    (in [values.reserve] or in the packer), a packer that does not
    return, or the division by a maximal texture width of zero at
    line 90. *)
Inductive emission (A : Type) : Type :=
| Emitted (a : A)
| PackerOutOfRange (s : site)
| VectorLengthError
| PackerUnfinished
| DivisionByZero.

Arguments Emitted {A} a.
Arguments PackerOutOfRange {A} s.
Arguments VectorLengthError {A}.
Arguments PackerUnfinished {A}.
Arguments DivisionByZero {A}.

(** [float(n)] for an [unsigned long] [n]: the binary32 value nearest to
    [n], which is an integer. *)
Definition float_of_ulong (n : Z) : Z := Float32.to_Z (Float32.of_Z n).

(** [dim - 1] for [const float dim = (float)length], lines 247-253: a
    subtraction of floats. *)
Definition dim_minus_one (length : Z) : Z :=
  Float32.to_Z (Float32.sub (Float32.of_Z length) (Float32.of_Z 1)).

Section Program.

Context {F : Type} (SanitizeFloat : F → F).

(** [GpuShaderText::getSamplerName], which is not among the sources. *)
Context (getSamplerName : string → string).

Definition getNumTextures (shaderDesc : GpuShaderDesc F) : nat :=
  length (textures shaderDesc).

(** The name of the resource of the next texture, lines 101-106. *)
Definition resource_name (shaderDesc : GpuShaderDesc F) : string :=
  getResourcePrefix shaderDesc +:+ "lut1d_" +:+ pretty (getNumTextures shaderDesc).

Definition addTexture (t : Texture F) (shaderDesc : GpuShaderDesc F) : GpuShaderDesc F :=
  {| getTextureMaxWidth := getTextureMaxWidth shaderDesc;
     getResourcePrefix := getResourcePrefix shaderDesc;
     textures := textures shaderDesc ++ [t];
     declareShaderCode := declareShaderCode shaderDesc;
     helperShaderCode := helperShaderCode shaderDesc;
     functionShaderCode := functionShaderCode shaderDesc |}.

Definition addToDeclareShaderCode (d : declaration) (shaderDesc : GpuShaderDesc F)
  : GpuShaderDesc F :=
  {| getTextureMaxWidth := getTextureMaxWidth shaderDesc;
     getResourcePrefix := getResourcePrefix shaderDesc;
     textures := textures shaderDesc;
     declareShaderCode := declareShaderCode shaderDesc ++ [d];
     helperShaderCode := helperShaderCode shaderDesc;
     functionShaderCode := functionShaderCode shaderDesc |}.

Definition addToHelperShaderCode (h : helper) (shaderDesc : GpuShaderDesc F)
  : GpuShaderDesc F :=
  {| getTextureMaxWidth := getTextureMaxWidth shaderDesc;
     getResourcePrefix := getResourcePrefix shaderDesc;
     textures := textures shaderDesc;
     declareShaderCode := declareShaderCode shaderDesc;
     helperShaderCode := helperShaderCode shaderDesc ++ [h];
     functionShaderCode := functionShaderCode shaderDesc |}.

Definition addToFunctionShaderCode (b : function_block) (shaderDesc : GpuShaderDesc F)
  : GpuShaderDesc F :=
  {| getTextureMaxWidth := getTextureMaxWidth shaderDesc;
     getResourcePrefix := getResourcePrefix shaderDesc;
     textures := textures shaderDesc;
     declareShaderCode := declareShaderCode shaderDesc;
     helperShaderCode := helperShaderCode shaderDesc;
     functionShaderCode := functionShaderCode shaderDesc ++ [b] |}.

(** Lines 83-283.  [values.reserve(width*height*3)] throws for a number
    of floats above [max_size] and has no other effect on the result;
    [&values[0]] hands the packed floats to [addTexture]. *)
Definition GetLut1DGPUShaderProgram
    (shaderDesc : GpuShaderDesc F) (lutData : Lut1DOpData F)
  : emission (GpuShaderDesc F) :=
  let defaultMaxWidth := getTextureMaxWidth shaderDesc in
  let length := getLength lutData in
  let width := Z.min length defaultMaxWidth in
  if decide (defaultMaxWidth = 0) then DivisionByZero else
  let height := ulong (length / defaultMaxWidth + 1) in
  if decide (max_size < ulong (ulong (width * height) * 3)) then VectorLengthError else
  match PadLutChannels SanitizeFloat width height (getValues lutData) with
  | OutOfRange s => PackerOutOfRange s
  | LengthError => VectorLengthError
  | Unfinished => PackerUnfinished
  | Returned values =>
      let name := resource_name shaderDesc in
      let shaderDesc :=
        addTexture {| samplerName := getSamplerName name;
                      cacheID := getCacheID lutData;
                      width := width;
                      height := height;
                      interpolation := getConcreteInterpolation lutData;
                      values := values |} shaderDesc in
      let two_dimensions := bool_decide (1 < height) || isInputHalfDomain lutData in
      let shaderDesc :=
        if two_dimensions then
          let shaderDesc := addToDeclareShaderCode (declareTex2D name) shaderDesc in
          addToHelperShaderCode
            (if isInputHalfDomain lutData
             then computePosHalf name (float_of_ulong (ulong (width - 1)))
                    (float_of_ulong width) (float_of_ulong height)
             else computePosFloat name (float_of_ulong (ulong (length - 1)))
                    (float_of_ulong (ulong (width - 1)))
                    (float_of_ulong width) (float_of_ulong height))
            shaderDesc
        else addToDeclareShaderCode (declareTex1D name) shaderDesc in
      let block :=
        {| processing_for := name;
           hue_adjustment := match getHueAdjust lutData with
                               | HUE_DW3 => true
                               | HUE_NONE => false
                               end;
           lookup := if two_dimensions then sampleTex2D name
                     else sampleTex1D name (dim_minus_one length)
                            (float_of_ulong length) |} in
      Emitted (addToFunctionShaderCode block shaderDesc)
  end.

End Program.

(** What a helper computes: the position in the texture for the input
    [f], if it is not a NaN. *)
Definition run_helper (h : helper) (f : Shader.value) : option Shader.vec2 :=
  match h with
  | computePosHalf _ widthM1 width height =>
      Shader.computePos_half (inject_Z widthM1) (inject_Z width) (inject_Z height) f
  | computePosFloat _ lengthM1 widthM1 width height =>
      q ← Shader.finite f;
      Shader.computePos_float (inject_Z lengthM1) (inject_Z widthM1)
        (inject_Z width) (inject_Z height) q
  end.

(** The divisors that the text of a helper divides by. *)
Definition divisors (h : helper) : list Z :=
  match h with
  | computePosHalf _ widthM1 width height => [widthM1; width; height]
  | computePosFloat _ _ widthM1 width height => [widthM1; width; height]
  end.

(** A sink with no texture yet, and LUTs with the single entry
    [(0, 0.1, 0.2)]. *)
Definition empty_desc : GpuShaderDesc Float32.float :=
  {| getTextureMaxWidth := 4096;
     getResourcePrefix := "ocio_";
     textures := [];
     declareShaderCode := [];
     helperShaderCode := [];
     functionShaderCode := [] |}.

Definition one_entry_lut (halfDomain : bool) : Lut1DOpData Float32.float :=
  {| getLength := 1;
     getValues := Float32.test_channel 1;
     getCacheID := "one_entry";
     getConcreteInterpolation := INTERP_LINEAR;
     isInputHalfDomain := halfDomain;
     getHueAdjust := HUE_NONE |}.

(** A sink whose textures have at most four texels in a row, and the LUT
    of the [length] entries of [test_channel]. *)
Definition narrow_desc : GpuShaderDesc Float32.float :=
  {| getTextureMaxWidth := 4;
     getResourcePrefix := "ocio_";
     textures := [];
     declareShaderCode := [];
     helperShaderCode := [];
     functionShaderCode := [] |}.

Definition test_lut (length : Z) : Lut1DOpData Float32.float :=
  {| getLength := length;
     getValues := Float32.test_channel length;
     getCacheID := "test";
     getConcreteInterpolation := INTERP_LINEAR;
     isInputHalfDomain := false;
     getHueAdjust := HUE_NONE |}.

(** The sink [empty_desc] after a call for [one_entry_lut false], and
    after a second call for [one_entry_lut true]. *)
Definition one_lut_desc : GpuShaderDesc Float32.float :=
  {| getTextureMaxWidth := 4096;
     getResourcePrefix := "ocio_";
     textures := [ {| samplerName := "ocio_lut1d_0";
                      cacheID := "one_entry";
                      width := 1;
                      height := 1;
                      interpolation := INTERP_LINEAR;
                      values := Float32.test_channel 1 |} ];
     declareShaderCode := [declareTex1D "ocio_lut1d_0"];
     helperShaderCode := [];
     functionShaderCode := [ {| processing_for := "ocio_lut1d_0";
                                hue_adjustment := false;
                                lookup := sampleTex1D "ocio_lut1d_0" 0 1 |} ] |}.

Definition two_luts_desc : GpuShaderDesc Float32.float :=
  {| getTextureMaxWidth := 4096;
     getResourcePrefix := "ocio_";
     textures := [ {| samplerName := "ocio_lut1d_0";
                      cacheID := "one_entry";
                      width := 1;
                      height := 1;
                      interpolation := INTERP_LINEAR;
                      values := Float32.test_channel 1 |};
                   {| samplerName := "ocio_lut1d_1";
                      cacheID := "one_entry";
                      width := 1;
                      height := 1;
                      interpolation := INTERP_LINEAR;
                      values := Float32.test_channel 1 |} ];
     declareShaderCode := [declareTex1D "ocio_lut1d_0"; declareTex2D "ocio_lut1d_1"];
     helperShaderCode := [computePosHalf "ocio_lut1d_1" 0 1 1];
     functionShaderCode := [ {| processing_for := "ocio_lut1d_0";
                                hue_adjustment := false;
                                lookup := sampleTex1D "ocio_lut1d_0" 0 1 |};
                             {| processing_for := "ocio_lut1d_1";
                                hue_adjustment := false;
                                lookup := sampleTex2D "ocio_lut1d_1" |} ] |}.

(** A LUT with a half domain: one entry for each of the 65536 halves. *)
Definition half_domain_lut : Lut1DOpData Float32.float :=
  {| getLength := 65536;
     getValues := replicate (Z.to_nat (3 * 65536)) (Float32.of_Z 0);
     getCacheID := "half_domain";
     getConcreteInterpolation := INTERP_LINEAR;
     isInputHalfDomain := true;
     getHueAdjust := HUE_NONE |}.

End GpuShader.

(** ** [ColorSpaceSet] *)

Module ColorSpaceSet.

(** How an operation ends: normally, or with an [Exception]; in both cases
    with the state of the set that it works on. *)
Inductive completion (A : Type) : Type :=
| Done (a : A)
| Threw (what : string) (a : A).

Arguments Done {A} a.
Arguments Threw {A} what a.

Definition state_of {A} (c : completion A) : A :=
  match c with
  | Done a => a
  | Threw _ a => a
  end.

(** A color space: its name and its other attributes. *)
Record ColorSpace (Attributes : Type) : Type := {
  getName : string;
  attributes : Attributes;
}.

Arguments getName {Attributes}.
Arguments attributes {Attributes}.

(** [pystring::lower], which is not among the sources: the upper case
    letters of ASCII are replaced by the lower case ones. *)
Definition tolower (c : ascii) : ascii :=
  let n := nat_of_ascii c in
  if (65 <=? n)%nat && (n <=? 90)%nat then ascii_of_nat (n + 32) else c.

Fixpoint pystring_lower (s : string) : string :=
  match s with
  | EmptyString => EmptyString
  | String c s' => String (tolower c) (pystring_lower s')
  end.

(** [static_cast<int>] of a [size_t], and [INT_MAX]. *)
Definition static_cast_int (n : Z) : Z := (n + 2 ^ 31) `mod` 2 ^ 32 - 2 ^ 31.

Definition INT_MAX : Z := 2 ^ 31 - 1.

Section Impl.

Context {Attributes : Type}.

(** The comparisons only use that [lower] is a function of the name. *)
Context (lower : string → string).

Local Abbreviation ColorSpace := (ColorSpace Attributes).

(** [m_colorSpaces] *)
Definition Impl : Type := list ColorSpace.

Implicit Types (m rhs lcss rcss css : Impl) (cs entry tmp : ColorSpace).

(** [size()] *)
Definition getNumColorSpaces m : Z := Z.of_nat (length m).

(** The loop of [getIndex], from the index [idx] on. *)
Fixpoint getIndex_from (str : string) (idx : Z) m : Z :=
  match m with
  | [] => -1
  | entry :: rest =>
      if decide (lower (getName entry) = str) then idx
      else getIndex_from str (idx + 1) rest
  end.

Definition getIndex m (csName : string) : Z :=
  if decide (csName ≠ "") then getIndex_from (lower csName) 0 m else -1.

(** The loop of [add]: the first entry of that name is replaced. *)
Fixpoint replace_entry (csName : string) cs m : option Impl :=
  match m with
  | [] => None
  | entry :: rest =>
      if decide (lower (getName entry) = csName) then Some (cs :: rest)
      else (entry ::.) <$> replace_entry csName cs rest
  end.

(** [add(const ConstColorSpaceRcPtr & cs)] *)
Definition add cs m : completion Impl :=
  let csName := lower (getName cs) in
  if decide (csName = "") then Threw "Cannot add a color space with an empty name." m
  else match replace_entry csName cs m with
       | Some m' => Done m'
       | None => Done (m ++ [cs])
       end.

(** [add(const Impl & rhs)] *)
Fixpoint add_all rhs m : completion Impl :=
  match rhs with
  | [] => Done m
  | cs :: rest =>
      match add cs m with
      | Done m' => add_all rest m'
      | Threw what m' => Threw what m'
      end
  end.

(** The loop of [remove]: the first entry of that name is erased. *)
Fixpoint erase_entry (name : string) m : Impl :=
  match m with
  | [] => []
  | entry :: rest =>
      if decide (lower (getName entry) = name) then rest
      else entry :: erase_entry name rest
  end.

(** [remove(const char * csName)] *)
Definition remove (csName : string) m : Impl :=
  let name := lower csName in
  if decide (name = "") then m else erase_entry name m.

(** The loop of [remove(const Impl & rhs)] over the color spaces of a set
    [rhs] that is another object than the set itself. *)
Definition remove_all rhs m : Impl :=
  foldl (λ m' cs, remove (getName cs) m') m rhs.

(** [remove(const Impl & rhs)]; [same_object] tells that [rhs] is the set
    itself.  The loop then runs over the vector from which [remove]
    erases: as soon as a color space is erased, that is unless every name
    is empty, the iterators of the loop are no longer valid and the
    behaviour is not defined ([None]). *)
Definition Impl_remove (same_object : bool) rhs m : option Impl :=
  if same_object then
    if decide (Forall (λ cs, lower (getName cs) = "") m) then Some m else None
  else Some (remove_all rhs m).

(** [clear()] *)
Definition clear m : Impl := [].

(** [createEditableCopy()]: a set with a copy of every color space. *)
Definition createEditableCopy m : Impl := m.

Definition addColorSpace cs m : completion Impl := add cs m.
Definition addColorSpaces rhs m : completion Impl := add_all rhs m.
Definition removeColorSpace (name : string) m : Impl := remove name m.
Definition removeColorSpaces (same_object : bool) rhs m : option Impl :=
  Impl_remove same_object rhs m.
Definition clearColorSpaces m : Impl := clear m.

(** [operator||] *)
Definition union lcss rcss : completion Impl :=
  let css := createEditableCopy lcss in
  addColorSpaces rcss css.

(** The loop of [operator&&] over the color spaces of [rcss] that are
    left, with the set [css] built so far. *)
Fixpoint intersection_loop lcss (rest : Impl) css : completion Impl :=
  match rest with
  | [] => Done css
  | tmp :: rest =>
      if decide (-1 ≠ getIndex lcss (getName tmp)) then
        match addColorSpace tmp css with
        | Done css' => intersection_loop lcss rest css'
        | Threw what css' => Threw what css'
        end
      else intersection_loop lcss rest css
  end.

(** [operator&&] *)
Definition intersection lcss rcss : completion Impl :=
  intersection_loop lcss rcss [].

(** The loop of [operator-] over the color spaces of [lcss]. *)
Fixpoint difference_loop rcss (rest : Impl) css : completion Impl :=
  match rest with
  | [] => Done css
  | tmp :: rest =>
      if decide (-1 = getIndex rcss (getName tmp)) then
        match addColorSpace tmp css with
        | Done css' => difference_loop rcss rest css'
        | Threw what css' => Threw what css'
        end
      else difference_loop rcss rest css
  end.

(** [operator-] *)
Definition difference lcss rcss : completion Impl :=
  difference_loop rcss lcss [].

(** The names of a set, as they are compared. *)
Definition names m : list string := (λ cs, lower (getName cs)) <$> m.

(** The names of the color spaces of the set are pairwise distinct. *)
Definition distinct_names m : Prop := NoDup (names m).

(** [size()]: the number of color spaces, converted to [int]. *)
Definition Impl_size m : Z := static_cast_int (Z.of_nat (length m)).

(** [get(int index)]; a null pointer is [None]. *)
Definition get m (index : Z) : option ColorSpace :=
  if decide (index < 0 ∨ Impl_size m ≤ index) then None
  else m !! Z.to_nat index.

(** [getName(int index)] *)
Definition Impl_getName m (index : Z) : option string :=
  if decide (index < 0 ∨ Impl_size m ≤ index) then None
  else getName <$> m !! Z.to_nat index.

(** The loop of [getByName]. *)
Fixpoint getByName_loop (str : string) m : option ColorSpace :=
  match m with
  | [] => None
  | cs :: rest =>
      if decide (lower (getName cs) = str) then Some cs
      else getByName_loop str rest
  end.

(** [getByName(const char * csName)] *)
Definition getByName m (csName : string) : option ColorSpace :=
  if decide (csName ≠ "") then getByName_loop (lower csName) m else None.

(** The loop of [operator==] over the color spaces of the left operand:
    only the names are compared. *)
Fixpoint names_found rhs (rest : Impl) : bool :=
  match rest with
  | [] => true
  | cs :: rest =>
      if decide (-1 = getIndex rhs (getName cs)) then false
      else names_found rhs rest
  end.

(** [operator==] of [Impl]; [same_object] is the test [this == &rhs]. *)
Definition Impl_eq (same_object : bool) m rhs : bool :=
  if same_object then true
  else if decide (Z.of_nat (length m) ≠ Z.of_nat (length rhs)) then false
  else names_found rhs m.

(** [operator=] of [Impl]: unless both are one object, the set is cleared
    and receives a copy of every color space of [rhs]. *)
Definition Impl_assign (same_object : bool) rhs m : Impl :=
  if same_object then m else foldl (λ m' cs, m' ++ [cs]) (clear m) rhs.

Definition operator_eq (same_object : bool) m css : bool := Impl_eq same_object m css.
Definition operator_ne (same_object : bool) m css : bool := negb (Impl_eq same_object m css).
Definition getColorSpaceNameByIndex m (index : Z) : option string := Impl_getName m index.
Definition getColorSpaceByIndex m (index : Z) : option ColorSpace := get m index.
Definition getColorSpace m (name : string) : option ColorSpace := getByName m name.
Definition getIndexForColorSpace m (name : string) : Z := getIndex m name.

(** No color space of the set has an empty name. *)
Definition named m : Prop := ∀ cs, cs ∈ m → lower (getName cs) ≠ "".

End Impl.

(** Color spaces with one attribute, [isData], and a set of three. *)
Definition color_space (name : string) (isData : bool) : ColorSpace bool :=
  {| getName := name; attributes := isData |}.

Definition three_spaces : Impl (Attributes := bool) :=
  [color_space "cs1" false; color_space "CS2" false; color_space "cs3" true].

Definition two_spaces : Impl (Attributes := bool) :=
  [color_space "cs2" true; color_space "cs4" false].

End ColorSpaceSet.


(** * Part II: properties *)

(** ** Unsigned 64-bit arithmetic *)

Lemma modulus_eq : modulus = 18446744073709551616.
Proof. reflexivity. Qed.

Lemma max_size_eq : max_size = 2305843009213693951.
Proof. reflexivity. Qed.

Lemma ulong_range x : in_range (ulong x).
Proof. unfold in_range, ulong. rewrite modulus_eq. apply Z.mod_pos_bound. lia. Qed.

Lemma ulong_small x : in_range x → ulong x = x.
Proof. unfold in_range, ulong. intros H. apply Z.mod_small. lia. Qed.

Lemma ulong_neg x : - modulus ≤ x < 0 → ulong x = x + modulus.
Proof.
  unfold ulong. rewrite modulus_eq. intros H.
  symmetry. apply (Z.mod_unique x _ (-1)); lia.
Qed.

(** ** Reads of the input vector *)

Section Reads.

Context {F : Type} (SanitizeFloat : F → F).

Implicit Types (channel chn : list F).

Local Abbreviation window := (window SanitizeFloat).

Lemma size_app chn1 chn2 : size (chn1 ++ chn2) = size chn1 + size chn2.
Proof. unfold size. rewrite length_app. lia. Qed.

Lemma size_nonneg channel : 0 ≤ size channel.
Proof. unfold size. lia. Qed.

Lemma size_window channel a n :
  0 ≤ a → 0 ≤ n → a + n ≤ size channel → size (window channel a n) = n.
Proof.
  unfold size, window. intros Ha Hn Hle.
  rewrite length_fmap, length_take, length_drop. lia.
Qed.

Lemma window_lookup channel a n j :
  0 ≤ a → 0 ≤ j < n →
  window channel a n !! Z.to_nat j = SanitizeFloat <$> channel !! Z.to_nat (a + j).
Proof.
  intros Ha Hj. unfold window.
  rewrite list_lookup_fmap, lookup_take_lt by lia.
  rewrite lookup_drop. do 2 f_equal. lia.
Qed.

Lemma window_app channel a n m :
  0 ≤ a → 0 ≤ n → 0 ≤ m →
  window channel a n ++ window channel (a + n) m = window channel a (n + m).
Proof.
  intros Ha Hn Hm. unfold window.
  rewrite <- fmap_app. f_equal.
  rewrite Z2Nat.inj_add by lia. rewrite <- drop_drop.
  rewrite take_take_drop. f_equal. lia.
Qed.

Lemma window_nil channel a : window channel a 0 = [].
Proof. reflexivity. Qed.

Lemma at_index_Some channel k :
  0 ≤ k < size channel → ∃ x, at_index channel k = Some x ∧ channel !! Z.to_nat k = Some x.
Proof.
  intros Hk. unfold at_index. rewrite decide_True by done.
  destruct (lookup_lt_is_Some_2 channel (Z.to_nat k)) as [x Hx]; [unfold size in Hk; lia|].
  eauto.
Qed.

Lemma at_index_None channel k : size channel ≤ k → at_index channel k = None.
Proof. intros Hk. unfold at_index. rewrite decide_False; [done | lia]. Qed.

Lemma transform_range_window channel a b :
  0 ≤ a ≤ b → b ≤ size channel →
  transform_range SanitizeFloat channel a b = Some (window channel a (b - a)).
Proof. intros Hab Hb. unfold transform_range. rewrite decide_True; [done | lia]. Qed.

Lemma transform_range_None channel a b :
  b < a ∨ size channel < b → transform_range SanitizeFloat channel a b = None.
Proof. intros Hab. unfold transform_range. rewrite decide_False; [done | lia]. Qed.

Lemma take3_drop channel n x y z :
  channel !! n = Some x → channel !! S n = Some y → channel !! S (S n) = Some z →
  take 3 (drop n channel) = [x; y; z].
Proof.
  intros Hx Hy Hz.
  rewrite (drop_S _ _ _ Hx), (drop_S _ _ _ Hy), (drop_S _ _ _ Hz). reflexivity.
Qed.

Lemma push_triple_window channel t :
  0 ≤ t → 3 * t + 3 ≤ size channel → size channel < modulus →
  push_triple SanitizeFloat channel t = Some (window channel (3 * t) 3).
Proof.
  intros Ht Hle Hsz. unfold push_triple.
  assert (Hr : ∀ j, 0 ≤ j < 3 → ulong (ulong (3 * t) + j) = 3 * t + j).
  { intros j Hj. rewrite (ulong_small (3 * t)) by (unfold in_range; lia).
    apply ulong_small. unfold in_range. lia. }
  rewrite !Hr by lia.
  destruct (at_index_Some channel (3 * t + 0)) as (x & -> & Hx); [lia|].
  destruct (at_index_Some channel (3 * t + 1)) as (y & -> & Hy); [lia|].
  destruct (at_index_Some channel (3 * t + 2)) as (z & -> & Hz); [lia|].
  simpl. unfold window. f_equal.
  replace (Z.to_nat (3 * t + 0)) with (Z.to_nat (3 * t)) in Hx by lia.
  replace (Z.to_nat (3 * t + 1)) with (S (Z.to_nat (3 * t))) in Hy by lia.
  replace (Z.to_nat (3 * t + 2)) with (S (S (Z.to_nat (3 * t)))) in Hz by lia.
  change (Z.to_nat 3) with 3%nat.
  by rewrite (take3_drop _ _ _ _ _ Hx Hy Hz).
Qed.

Lemma push_triple_None channel t :
  0 ≤ t → 3 * t + 3 < modulus → size channel < 3 * t + 3 →
  push_triple SanitizeFloat channel t = None.
Proof.
  intros Ht Hm Hsz. unfold push_triple.
  assert (Hr : ∀ j, 0 ≤ j < 3 → ulong (ulong (3 * t) + j) = 3 * t + j).
  { intros j Hj. rewrite (ulong_small (3 * t)) by (unfold in_range; lia).
    apply ulong_small. unfold in_range. lia. }
  rewrite !Hr by lia.
  destruct (decide (size channel ≤ 3 * t + 0)) as [H0|H0].
  { rewrite (at_index_None channel (3 * t + 0)); [reflexivity | lia]. }
  destruct (at_index channel (3 * t + 0)); simpl; [|done].
  destruct (decide (size channel ≤ 3 * t + 1)) as [H1|H1].
  { rewrite (at_index_None channel (3 * t + 1)); [reflexivity | lia]. }
  destruct (at_index channel (3 * t + 1)); simpl; [|done].
  rewrite at_index_None; [reflexivity | lia].
Qed.

(** The floats of [missing] copies of a triple. *)
Lemma length_join_replicate (n : nat) (t : list F) :
  length (mjoin (replicate n t)) = (n * length t)%nat.
Proof. induction n as [|n IH]; simpl; [done|]. rewrite length_app, IH. lia. Qed.

Lemma lookup_join_replicate (n : nat) (t : list F) (j : nat) :
  (0 < length t)%nat → (j < n * length t)%nat →
  mjoin (replicate n t) !! j = t !! (j `mod` length t)%nat.
Proof.
  intros Ht. revert j. induction n as [|n IH]; intros j Hj; simpl in *; [lia|].
  destruct (decide (j < length t)%nat) as [Hlt|Hge].
  - rewrite lookup_app_l by done. by rewrite Nat.mod_small.
  - rewrite lookup_app_r by lia. rewrite IH by lia. f_equal.
    rewrite <- (Nat.Div0.mod_add (j - length t) 1 (length t)).
    f_equal. lia.
Qed.

End Reads.

(** ** The packed layout *)

Section LayoutFacts.

Context {F : Type} (SanitizeFloat : F → F).

Implicit Types (channel chn out : list F).

Local Abbreviation packed := (packed SanitizeFloat).

Lemma packed_nil channel width : packed channel width [].
Proof. intros row col e Hr Hc He Hlt. unfold size in Hlt. simpl in Hlt. nia. Qed.

(** Coordinates of a float that lies at or after the start of row [k]. *)
Lemma row_of_index width k row col e :
  0 < width → 0 ≤ col < width → 0 ≤ e < 3 →
  3 * (k * width) ≤ 3 * (row * width + col) + e → k ≤ row.
Proof. intros Hw Hc He Hle. destruct (decide (k ≤ row)) as [|Hn]; [done|]. nia. Qed.

Lemma row_of_index_lt width k row col e :
  0 < width → 0 ≤ col < width → 0 ≤ e < 3 → 0 ≤ row →
  3 * (row * width + col) + e < 3 * (k * width) → row < k.
Proof. intros Hw Hc He Hr Hlt. destruct (decide (row < k)) as [|Hn]; [done|]. nia. Qed.

(** Appending the window of a whole or partial row keeps the layout. *)
Lemma packed_app_row channel width chn k n :
  2 ≤ width → 0 ≤ k → 0 ≤ n ≤ width →
  k * (width - 1) + n ≤ size channel / 3 →
  size chn = 3 * (k * width) →
  packed channel width chn →
  packed channel width (chn ++ window SanitizeFloat channel (3 * (k * (width - 1))) (3 * n)).
Proof.
  intros Hw Hk Hn Hin Hsz Hp row col e Hr Hc He Hlt.
  assert (0 ≤ size channel) by apply size_nonneg.
  assert (0 ≤ k * (width - 1)) by nia.
  rewrite size_app, size_window in Hlt by lia.
  destruct (decide (3 * (row * width + col) + e < size chn)) as [Hold|Hnew].
  - rewrite lookup_app_l by (unfold size in Hold; lia). by apply Hp.
  - assert (k ≤ row) by (apply (row_of_index width k row col e); lia).
    assert (row < k + 1).
    { apply (row_of_index_lt width (k + 1) row col e); nia. }
    assert (row = k) as -> by lia.
    rewrite lookup_app_r by (unfold size in Hnew; lia).
    replace (Z.to_nat (3 * (k * width + col) + e) - length chn)%nat
      with (Z.to_nat (3 * col + e)) by (unfold size in Hsz; lia).
    rewrite window_lookup by lia.
    unfold source_triple. do 3 f_equal. lia.
Qed.

(** Appending copies of the last input triple to a layout that already
    holds it in its last texel keeps the layout. *)
Lemma packed_app_last channel width chn k n (m : nat) :
  2 ≤ width → 0 ≤ k → 0 ≤ n ≤ width → 1 ≤ size channel / 3 →
  size channel < modulus →
  size channel / 3 ≤ k * (width - 1) + n →
  size chn = 3 * (k * width + n) →
  packed channel width chn →
  packed channel width
    (chn ++ mjoin (replicate m (window SanitizeFloat channel (3 * (size channel / 3 - 1)) 3))).
Proof.
  intros Hw Hk Hn Hcw Hm Hin Hsz Hp row col e Hr Hc He Hlt.
  assert (Hlen3 : length (window SanitizeFloat channel (3 * (size channel / 3 - 1)) 3) = 3%nat).
  { pose proof (size_window SanitizeFloat channel (3 * (size channel / 3 - 1)) 3) as Hs.
    unfold size in *. lia. }
  destruct (decide (3 * (row * width + col) + e < size chn)) as [Hold|Hnew].
  - rewrite lookup_app_l by (unfold size in Hold; lia). by apply Hp.
  - rewrite size_app in Hlt. unfold size in Hlt at 2.
    rewrite length_join_replicate, Hlen3 in Hlt.
    rewrite lookup_app_r by (unfold size in Hnew; lia).
    rewrite lookup_join_replicate by (rewrite ?Hlen3; unfold size in *; lia).
    rewrite Hlen3.
    replace (Z.to_nat (3 * (row * width + col) + e) - length chn)%nat
      with (Z.to_nat e + Z.to_nat (row * width + col - (k * width + n)) * 3)%nat
      by (unfold size in *; lia).
    rewrite Nat.Div0.mod_add, Nat.mod_small by lia.
    rewrite <- (Z.add_0_r e) at 1.
    replace (Z.to_nat (e + 0)) with (Z.to_nat e) by lia.
    pose proof (window_lookup SanitizeFloat channel (3 * (size channel / 3 - 1)) 3 e) as Hwl.
    rewrite Hwl by lia.
    assert (k ≤ row).
    { apply (row_of_index width k row col e); [lia..|]. nia. }
    unfold source_triple. rewrite Z.min_l; [done|].
    destruct (decide (row = k)) as [->|Hne]; [lia|]. nia.
Qed.

End LayoutFacts.

(** ** The packer on an input that holds at least one row *)

Section Regular.

Context {F : Type} (SanitizeFloat : F → F).
Context (channel : list F) (width : Z).

Local Abbreviation currWidth := (size channel / 3).
Local Abbreviation step := (width - 1).

Hypothesis width_ge_2 : 2 ≤ width.
Hypothesis size_fits : size channel ≤ max_size.

Local Lemma size_lt_modulus : size channel < modulus.
Proof. rewrite modulus_eq. rewrite max_size_eq in size_fits. lia. Qed.
Hypothesis holds_a_row : step ≤ currWidth.

Lemma whole_rows_unique n :
  n * step < currWidth → currWidth ≤ (n + 1) * step → n = whole_rows channel width.
Proof. intros Hlo Hhi. unfold whole_rows. apply (Z.div_unique _ _ n (currWidth - 1 - n * step)); lia. Qed.

(** The loop, entered at the start of row [k], writes the whole rows up to
    row [n] and leaves between one and [step] texels. *)
Lemma stepped_loop_rows (fuel : nat) k leftover chn :
  0 ≤ k → k * step + leftover = currWidth → 1 ≤ leftover →
  currWidth - k * step ≤ Z.of_nat fuel →
  size chn = 3 * (k * width) →
  packed SanitizeFloat channel width chn →
  ∃ n chn',
    stepped_loop SanitizeFloat fuel channel (currWidth - step) step (k * step) leftover chn
    = Returned (currWidth - n * step, chn')
    ∧ k ≤ n ∧ n * step < currWidth ∧ currWidth ≤ (n + 1) * step
    ∧ size chn' = 3 * (n * width)
    ∧ packed SanitizeFloat channel width chn'.
Proof.
  pose proof size_lt_modulus as Hmod.
  revert k leftover chn.
  induction fuel as [|fuel IH]; intros k leftover chn Hk Hsum Hleft Hfuel Hsz Hp.
  - lia.
  - simpl. destruct (decide (k * step < currWidth - step)) as [Hlt|Hge].
    + assert (0 ≤ k * step) by nia.
      assert (Hi : ulong (k * step + step) = (k + 1) * step).
      { rewrite ulong_small; [lia | unfold in_range; lia]. }
      rewrite Hi.
      rewrite (ulong_small (3 * (k * step))) by (unfold in_range; lia).
      rewrite (ulong_small (3 * ((k + 1) * step))) by (unfold in_range; lia).
      rewrite transform_range_window by lia. simpl.
      rewrite push_triple_window by lia. simpl.
      rewrite (ulong_small (leftover - step)) by (unfold in_range; lia).
      replace (3 * ((k + 1) * step) - 3 * (k * step)) with (3 * step) by lia.
      replace (3 * ((k + 1) * step)) with (3 * (k * step) + 3 * step) by lia.
      rewrite window_app by lia.
      replace (3 * step + 3) with (3 * width) by lia.
      destruct (IH (k + 1) (leftover - step)
                  (chn ++ window SanitizeFloat channel (3 * (k * step)) (3 * width)))
        as (n & chn' & Hrun & Hkn & Hlo & Hhi & Hsz' & Hp'); [lia..| | |].
      * rewrite size_app, size_window by lia. lia.
      * apply packed_app_row; [lia..|done|done].
      * exists n, chn'. rewrite Hrun. repeat split; [lia|done..].
    + exists k, chn. replace (currWidth - k * step) with leftover by lia.
      repeat split; [lia..|done|done].
Qed.

(** The packer returns if a vector can hold the texels written and the
    padding, and its output follows the packed layout; otherwise the run
    ends with the exception of the vector. *)
Lemma PadLutChannels_fuel_rows (fuel : nat) height :
  1 < height → currWidth ≤ Z.of_nat fuel →
  (3 * (written channel width + missing channel width height) ≤ max_size →
   ∃ out,
     PadLutChannels_fuel SanitizeFloat fuel width height channel = Returned out
     ∧ size out = 3 * (written channel width + missing channel width height)
     ∧ packed SanitizeFloat channel width out)
  ∧ (max_size < 3 * (written channel width + missing channel width height) →
     PadLutChannels_fuel SanitizeFloat fuel width height channel = LengthError).
Proof.
  intros Hh Hfuel. unfold PadLutChannels_fuel.
  pose proof size_lt_modulus as Hmod.
  pose proof modulus_eq as Hmodulus. pose proof max_size_eq as Hmax.
  assert (0 ≤ size channel) by apply size_nonneg.
  rewrite decide_True by done.
  rewrite (ulong_small currWidth) by (unfold in_range; lia).
  rewrite (ulong_small step) by (unfold in_range; lia).
  rewrite (ulong_small (currWidth - step)) by (unfold in_range; lia).
  destruct (stepped_loop_rows fuel 0 currWidth []) as
    (n & chn & Hrun & Hn & Hlo & Hhi & Hsz & Hp);
    [lia.. | done | apply packed_nil |].
  change (0 * step) with 0 in Hrun. rewrite Hrun. simpl.
  assert (Hrows : n = whole_rows channel width) by by apply whole_rows_unique.
  assert (0 ≤ n * step) by nia.
  unfold leftover_copy. rewrite decide_True by lia.
  rewrite (ulong_small (currWidth - (currWidth - n * step))) by (unfold in_range; lia).
  rewrite (ulong_small (currWidth - 1)) by (unfold in_range; lia).
  rewrite !ulong_small by (unfold in_range; lia).
  rewrite transform_range_window by lia. simpl.
  rewrite push_triple_window by lia. simpl.
  replace (currWidth - (currWidth - n * step)) with (n * step) by lia.
  set (left := currWidth - n * step).
  replace (3 * (currWidth - 1) - 3 * (n * step)) with (3 * (left - 1)) by (unfold left; lia).
  assert (Hjoin : window SanitizeFloat channel (3 * (n * step)) (3 * (left - 1))
                  ++ window SanitizeFloat channel (3 * (currWidth - 1)) 3
                  = window SanitizeFloat channel (3 * (n * step)) (3 * left)).
  { replace (3 * (currWidth - 1)) with (3 * (n * step) + 3 * (left - 1))
      by (unfold left; lia).
    rewrite window_app by (unfold left; lia). f_equal. lia. }
  rewrite Hjoin.
  set (chn2 := chn ++ window SanitizeFloat channel (3 * (n * step)) (3 * left)).
  assert (Hsz2 : size chn2 = 3 * (n * width + left)).
  { unfold chn2. rewrite size_app, size_window by (unfold left; lia). lia. }
  assert (Hp2 : packed SanitizeFloat channel width chn2).
  { apply packed_app_row; [unfold left; lia..|done|done]. }
  assert (Hwritten : n * width + left = written channel width).
  { unfold written, left. rewrite <- Hrows. lia. }
  assert (0 ≤ n * width) by nia.
  assert (n ≤ n * step) by nia.
  rewrite (ulong_small (size chn2)) by (unfold in_range, left in *; lia).
  replace (size chn2 / 3) with (written channel width) by lia.
  fold (missing channel width height).
  unfold tail_padding. destruct (decide (0 < missing channel width height)) as [Hpos|Hzero].
  - rewrite (ulong_small (currWidth - 1)) by (unfold in_range; lia).
    rewrite push_triple_window by lia. simpl.
    destruct (decide (size chn2 + 3 * missing channel width height ≤ max_size))
      as [Hroom|Hfull]; [|split; [lia|done]].
    split; [intros _|lia].
    eexists. split; [done|]. split.
    + rewrite size_app. unfold size at 2.
      rewrite length_join_replicate.
      pose proof (size_window SanitizeFloat channel (3 * (currWidth - 1)) 3) as Hs.
      assert (Hl : length (window SanitizeFloat channel (3 * (currWidth - 1)) 3) = 3%nat)
        by (unfold size in *; lia).
      rewrite Hl. unfold size in *. lia.
    + apply (packed_app_last _ _ _ _ n left); [unfold left; lia.. | lia | done].
  - assert (missing channel width height = 0).
    { pose proof (ulong_range (ulong (width * height) - written channel width)) as Hr.
      unfold in_range in Hr. unfold missing in *. lia. }
    destruct (decide (size chn2 ≤ max_size)) as [Hroom|Hfull]; [|split; [lia|done]].
    split; [intros _|lia].
    exists chn2. split; [done|]. split; [lia|done].
Qed.

End Regular.

(** ** Texels *)

Section TexelFacts.

Context {F : Type} (SanitizeFloat : F → F).

Implicit Types (channel chn out : list F).

Lemma triple_at_is_Some (l : list F) t :
  0 ≤ t → 3 * t + 3 ≤ size l → is_Some (triple_at l t).
Proof.
  intros Ht Hle. unfold triple_at. rewrite decide_True by done.
  destruct (lookup_lt_is_Some_2 l (Z.to_nat (3 * t + 0))) as [r ->]; [unfold size in Hle; lia|].
  destruct (lookup_lt_is_Some_2 l (Z.to_nat (3 * t + 1))) as [g ->]; [unfold size in Hle; lia|].
  destruct (lookup_lt_is_Some_2 l (Z.to_nat (3 * t + 2))) as [b ->]; [unfold size in Hle; lia|].
  simpl. by eexists.
Qed.

Lemma triple_at_fmap (l1 l2 : list F) t1 t2 :
  0 ≤ t1 → 0 ≤ t2 →
  (∀ e, 0 ≤ e < 3 → l1 !! Z.to_nat (3 * t1 + e) = SanitizeFloat <$> l2 !! Z.to_nat (3 * t2 + e)) →
  triple_at l1 t1 = sanitize_triple SanitizeFloat <$> triple_at l2 t2.
Proof.
  intros Ht1 Ht2 Heq. unfold triple_at. rewrite !decide_True by done.
  rewrite !Heq by lia.
  destruct (l2 !! Z.to_nat (3 * t2 + 0)) as [r|]; [simpl|done].
  destruct (l2 !! Z.to_nat (3 * t2 + 1)) as [g|]; [simpl|done].
  destruct (l2 !! Z.to_nat (3 * t2 + 2)) as [b|]; [simpl|done].
  done.
Qed.

(** A texel of a packed texture is the sanitized input triple that the
    layout assigns to it. *)
Lemma packed_texel channel width out row col :
  packed SanitizeFloat channel width out →
  1 ≤ size channel / 3 → 1 ≤ width →
  0 ≤ row → 0 ≤ col < width →
  3 * (row * width + col) + 3 ≤ size out →
  texel out width row col
  = sanitize_triple SanitizeFloat <$> triple_at channel (source_triple channel width row col).
Proof.
  intros Hp Hcw Hw Hr Hc Hin. unfold texel.
  apply triple_at_fmap; [nia | unfold source_triple; nia |].
  intros e He. apply Hp; lia.
Qed.

End TexelFacts.

(** ** Valid calls of the packer *)

Section ValidCalls.

Context {F : Type} (SanitizeFloat : F → F).

Implicit Types (channel chn out : list F).

Lemma PadLutChannels_single_row channel width height :
  ¬ 1 < height → valid_call channel width height →
  PadLutChannels SanitizeFloat width height channel
  = Returned ((SanitizeFloat <$> channel)
              ++ mjoin (replicate (Z.to_nat (width * height - size channel / 3))
                          (window SanitizeFloat channel (3 * (size channel / 3 - 1)) 3))).
Proof.
  intros Hh (Hw & Hhr & Hwh & Hmax & Hmod & Hcw & _ & Hfit & Hbound).
  unfold texels_written in Hfit. rewrite decide_False in Hfit by done.
  pose proof modulus_eq as Hmodulus. pose proof max_size_eq as Hmaxeq.
  unfold in_range in *.
  unfold PadLutChannels, PadLutChannels_fuel. rewrite decide_False by done. simpl.
  assert (Hsz : size (SanitizeFloat <$> channel) = size channel).
  { unfold size. by rewrite length_fmap. }
  rewrite Hsz.
  rewrite (ulong_small (size channel)) by (unfold in_range; lia).
  rewrite (ulong_small (width * height)) by done.
  rewrite (ulong_small (size channel / 3)) by (unfold in_range; lia).
  rewrite (ulong_small (width * height - size channel / 3)) by (unfold in_range; lia).
  unfold tail_padding.
  destruct (decide (0 < width * height - size channel / 3)) as [Hpos|Hzero].
  - rewrite (ulong_small (size channel / 3 - 1)) by (unfold in_range; lia).
    rewrite push_triple_window by lia. simpl.
    rewrite Hsz, decide_True by lia. done.
  - rewrite Hsz, decide_True by lia.
    replace (width * height - size channel / 3) with 0 by lia.
    simpl. by rewrite app_nil_r.
Qed.

(** The run for several rows ends with the vector of the texels written
    and of the padding, when a vector can hold them. *)
Lemma PadLutChannels_rows channel width height :
  1 < height → 2 ≤ width → size channel ≤ max_size → width - 1 ≤ size channel / 3 →
  3 * (written channel width + missing channel width height) ≤ max_size →
  ∃ out,
    PadLutChannels SanitizeFloat width height channel = Returned out
    ∧ size out = 3 * (written channel width + missing channel width height)
    ∧ packed SanitizeFloat channel width out.
Proof.
  intros Hh Hw Hmax Hcw Hroom. unfold PadLutChannels.
  apply PadLutChannels_fuel_rows; [done..| |done].
  unfold size. lia.
Qed.

(** And it ends with the exception of the vector otherwise. *)
Lemma PadLutChannels_rows_too_long channel width height :
  1 < height → 2 ≤ width → size channel ≤ max_size → width - 1 ≤ size channel / 3 →
  max_size < 3 * (written channel width + missing channel width height) →
  PadLutChannels SanitizeFloat width height channel = LengthError.
Proof.
  intros Hh Hw Hmax Hcw Hlong. unfold PadLutChannels.
  apply PadLutChannels_fuel_rows; [done..| |done].
  unfold size. lia.
Qed.

Lemma valid_call_missing channel width height :
  1 < height → valid_call channel width height →
  written channel width + missing channel width height = width * height.
Proof.
  intros Hh (Hw & Hhr & Hwh & Hmax & Hmod & Hcw & Hrow & Hfit & Hbound).
  unfold texels_written in Hfit. rewrite decide_True in Hfit by done.
  unfold missing. rewrite (ulong_small (width * height)) by done.
  assert (0 ≤ written channel width).
  { unfold written, whole_rows. destruct (Hrow Hh). 
    assert (0 ≤ (size channel / 3 - 1) / (width - 1)) by (apply Z.div_pos; lia). lia. }
  rewrite ulong_small; [lia|]. unfold in_range in *. lia.
Qed.

(** A valid call for several rows returns the packed texture. *)
Lemma PadLutChannels_valid_rows channel width height :
  1 < height → valid_call channel width height →
  ∃ out,
    PadLutChannels SanitizeFloat width height channel = Returned out
    ∧ size out = 3 * (width * height)
    ∧ packed SanitizeFloat channel width out.
Proof.
  intros Hh Hvalid.
  pose proof (valid_call_missing channel width height Hh Hvalid) as Hmissing.
  destruct Hvalid as (_ & _ & _ & Hmax & _ & _ & Hrow & _ & Hbound).
  destruct (Hrow Hh) as [Hw Hcw].
  destruct (PadLutChannels_rows channel width height) as (out & Hrun & Hsz & Hp);
    [done..|lia|].
  exists out. by rewrite <- Hmissing.
Qed.

End ValidCalls.

(** ** Properties of the packer *)

Section PackerProperties.

Context {F : Type} (SanitizeFloat : F → F).

Implicit Types (channel chn out : list F).

(** C1, as amended: for every valid call (the arguments fit their types,
    the input holds at least one whole triple and no partial one, at least
    [width - 1] triples when [height > 1], the texels to write fit in
    [width * height], and a vector can hold the [3 * width * height]
    floats of the texture), [PadLutChannels] returns exactly
    [3 * width * height] floats. *)
Theorem PadLutChannels_length channel width height :
  valid_call channel width height →
  ∃ out, PadLutChannels SanitizeFloat width height channel = Returned out
         ∧ size out = 3 * width * height.
Proof.
  intros Hvalid. destruct (decide (1 < height)) as [Hh|Hh].
  - destruct (PadLutChannels_valid_rows SanitizeFloat channel width height)
      as (out & Hrun & Hsz & _); [done..|].
    exists out. split; [done|lia].
  - rewrite PadLutChannels_single_row by done.
    eexists. split; [done|].
    destruct Hvalid as (Hw & Hhr & Hwh & Hmax & Hmod & Hcw & _ & Hfit & _).
    unfold texels_written in Hfit. rewrite decide_False in Hfit by done.
    rewrite size_app. unfold size at 2.
    rewrite length_join_replicate.
    assert (Hl : length (window SanitizeFloat channel (3 * (size channel / 3 - 1)) 3) = 3%nat).
    { pose proof (size_window SanitizeFloat channel (3 * (size channel / 3 - 1)) 3) as Hs.
      unfold size in *. lia. }
    rewrite Hl. unfold size in *. rewrite length_fmap. lia.
Qed.

(** C3, as amended: for every valid call (see C1) with [height > 1] and
    every row [r] in [0, height - 2], the texel [width - 1] of row [r] of
    the packed texture is the texel [0] of row [r + 1]. *)
Theorem PadLutChannels_row_continuity channel width height :
  valid_call channel width height → 1 < height →
  ∃ out, PadLutChannels SanitizeFloat width height channel = Returned out
         ∧ ∀ r, 0 ≤ r ≤ height - 2 →
             ∃ t, texel out width r (width - 1) = Some t
                  ∧ texel out width (r + 1) 0 = Some t.
Proof.
  intros Hvalid Hh.
  destruct (PadLutChannels_valid_rows SanitizeFloat channel width height)
    as (out & Hrun & Hsz & Hp); [done..|].
  pose proof Hvalid as (_ & _ & _ & Hmax & _ & Hone & Hrow & _).
  destruct (Hrow Hh) as [Hw Hcw].
  exists out. split; [done|]. intros r Hr.
  assert (Hsrc : source_triple channel width r (width - 1)
                 = source_triple channel width (r + 1) 0).
  { unfold source_triple. f_equal. lia. }
  assert (Hin : 0 ≤ source_triple channel width r (width - 1)
                ∧ 3 * source_triple channel width r (width - 1) + 3 ≤ size channel).
  { unfold source_triple. split; [nia|]. lia. }
  destruct (triple_at_is_Some SanitizeFloat channel (source_triple channel width r (width - 1)))
    as [t Ht]; [lia..|].
  exists (sanitize_triple SanitizeFloat t). split.
  - rewrite (packed_texel SanitizeFloat channel width out) by (try done; nia).
    by rewrite Ht.
  - rewrite (packed_texel SanitizeFloat channel width out) by (try done; nia).
    by rewrite <- Hsrc, Ht.
Qed.

(** C8, as amended: for every call with [height > 1], [width >= 2] and at
    least [width - 1] input triples, in which the texels to write fit in
    the [width * height] texels of the texture and a vector can hold the
    texture, the input triple [d] is found, sanitized, at the flat position
    [floor(d / (width - 1)) * width + d mod (width - 1)] of the output, for
    every [d] in [0, currWidth - 1]. *)
Theorem PadLutChannels_layout channel width height :
  size channel ≤ max_size →
  1 < height → 2 ≤ width → width - 1 ≤ size channel / 3 →
  in_range (width * height) →
  written channel width ≤ width * height → 3 * (width * height) ≤ max_size →
  ∃ out, PadLutChannels SanitizeFloat width height channel = Returned out
         ∧ size out = 3 * (width * height)
         ∧ ∀ d, 0 ≤ d ≤ size channel / 3 - 1 →
             ∃ t, triple_at channel d = Some t
                  ∧ triple_at out (d / (width - 1) * width + d `mod` (width - 1))
                    = Some (sanitize_triple SanitizeFloat t).
Proof.
  intros Hmax Hh Hw Hcw Hprod Hfit Hbound.
  assert (Hquot : 0 ≤ (size channel / 3 - 1) / (width - 1)).
  { apply Z.div_pos; [|lia]. pose proof (size_nonneg channel). lia. }
  assert (Hmissing : written channel width + missing channel width height = width * height).
  { unfold missing. rewrite (ulong_small (width * height)) by done.
    rewrite ulong_small; [lia|]. unfold in_range, written, whole_rows in *. lia. }
  destruct (PadLutChannels_rows SanitizeFloat channel width height)
    as (out & Hrun & Hsz & Hp); [done..|lia|].
  rewrite Hmissing in Hsz.
  exists out. split; [done|]. split; [done|]. intros d Hd.
  destruct (triple_at_is_Some SanitizeFloat channel d) as [t Ht]; [lia..|].
  exists t. split; [done|].
  assert (Hq : 0 ≤ d / (width - 1)) by (apply Z.div_pos; lia).
  assert (Hm : 0 ≤ d `mod` (width - 1) < width - 1) by (apply Z.mod_pos_bound; lia).
  assert (Hd_eq : d = (width - 1) * (d / (width - 1)) + d `mod` (width - 1))
    by (apply Z.div_mod; lia).
  assert (Hpos : d / (width - 1) * width + d `mod` (width - 1) < written channel width).
  { unfold written, whole_rows.
    set (n := (size channel / 3 - 1) / (width - 1)).
    assert (Hn_eq : size channel / 3 - 1
                    = (width - 1) * n + (size channel / 3 - 1) `mod` (width - 1))
      by (apply Z.div_mod; lia).
    assert (Hnm : 0 ≤ (size channel / 3 - 1) `mod` (width - 1) < width - 1)
      by (apply Z.mod_pos_bound; lia).
    assert (Hqn : d / (width - 1) ≤ n) by (apply Z.div_le_mono; lia).
    revert Hd_eq Hn_eq Hd Hm Hnm Hqn Hq.
    generalize (d / (width - 1)) (d `mod` (width - 1))
               ((size channel / 3 - 1) `mod` (width - 1)) (size channel / 3).
    clear -Hw. intros q r r' cw Hd_eq Hn_eq Hd Hm Hnm Hqn Hq.
    destruct (decide (q = n)) as [->|Hne]; nia. }
  fold (texel out width (d / (width - 1)) (d `mod` (width - 1))).
  rewrite (packed_texel SanitizeFloat channel width out) by (try done; lia).
  unfold source_triple. rewrite Z.min_r by lia.
  replace (d / (width - 1) * (width - 1) + d `mod` (width - 1)) with d by lia.
  by rewrite Ht.
Qed.

End PackerProperties.

(** ** Fuel, termination and out-of-range reads *)

Section Fuel.

Context {F : Type} (SanitizeFloat : F → F).

Implicit Types (channel chn out : list F).

Lemma stepped_loop_exit (fuel : nat) channel bound step i leftover chn :
  ¬ i < bound →
  stepped_loop SanitizeFloat fuel channel bound step i leftover chn = Returned (leftover, chn).
Proof. intros Hge. destruct fuel; simpl; by rewrite decide_False. Qed.

Lemma stepped_loop_step (fuel : nat) channel bound step i leftover chn :
  i < bound →
  stepped_loop SanitizeFloat (S fuel) channel bound step i leftover chn
  = (row ←← reading SteppedLoop
             (transform_range SanitizeFloat channel (ulong (3 * i))
                (ulong (3 * ulong (i + step))));
     last ←← reading SteppedLoop (push_triple SanitizeFloat channel (ulong (i + step)));
     stepped_loop SanitizeFloat fuel channel bound step
       (ulong (i + step)) (ulong (leftover - step)) (chn ++ row ++ last)).
Proof. intros Hlt. simpl. by rewrite decide_True. Qed.

(** A run that ends keeps its result when it is given more fuel. *)
Lemma stepped_loop_more_fuel (fuel fuel' : nat) channel bound step i leftover chn :
  (fuel ≤ fuel')%nat →
  stepped_loop SanitizeFloat fuel channel bound step i leftover chn ≠ Unfinished →
  stepped_loop SanitizeFloat fuel' channel bound step i leftover chn
  = stepped_loop SanitizeFloat fuel channel bound step i leftover chn.
Proof.
  revert fuel' i leftover chn.
  induction fuel as [|fuel IH]; intros fuel' i leftover chn Hle Hend.
  - destruct (decide (i < bound)) as [Hlt|Hge].
    + simpl in Hend. by rewrite decide_True in Hend.
    + by rewrite !stepped_loop_exit.
  - destruct fuel' as [|fuel']; [lia|].
    destruct (decide (i < bound)) as [Hlt|Hge]; [|by rewrite !stepped_loop_exit].
    rewrite !stepped_loop_step in * by done.
    destruct (transform_range _ _ _ _) as [row|]; [simpl in *|done].
    destruct (push_triple _ _ _) as [last|]; [simpl in *|done].
    apply IH; [lia|done].
Qed.

Lemma PadLutChannels_more_fuel (fuel fuel' : nat) width height channel :
  (fuel ≤ fuel')%nat →
  PadLutChannels_fuel SanitizeFloat fuel width height channel ≠ Unfinished →
  PadLutChannels_fuel SanitizeFloat fuel' width height channel
  = PadLutChannels_fuel SanitizeFloat fuel width height channel.
Proof.
  intros Hle. unfold PadLutChannels_fuel.
  destruct (decide (1 < height)) as [Hh|Hh]; [|done].
  intros Hend.
  rewrite (stepped_loop_more_fuel fuel fuel'); [done..|].
  intros Hun. by rewrite Hun in Hend.
Qed.






(** With [width = 1] and several rows the loop never ends: [i] stays 0. *)
Lemma stepped_loop_spins (fuel : nat) channel bound leftover chn :
  0 < bound → 3 ≤ size channel → size channel ≤ max_size →
  stepped_loop SanitizeFloat fuel channel bound 0 0 leftover chn = Unfinished.
Proof.
  intros Hb Hsz Hmax. pose proof max_size_eq as Hmaxeq. pose proof modulus_eq as Hmod.
  revert leftover chn. induction fuel as [|fuel IH]; intros leftover chn.
  - simpl. by rewrite decide_True.
  - rewrite stepped_loop_step by done.
    change (ulong (0 + 0)) with 0. change (ulong (3 * 0)) with 0.
    rewrite transform_range_window by lia. simpl.
    rewrite push_triple_window by lia. simpl. apply IH.
Qed.

Lemma PadLutChannels_spins (fuel : nat) height channel :
  1 < height → 1 ≤ size channel / 3 → size channel ≤ max_size →
  PadLutChannels_fuel SanitizeFloat fuel 1 height channel = Unfinished.
Proof.
  intros Hh Hcw Hmax. pose proof max_size_eq as Hmaxeq. pose proof modulus_eq as Hmod.
  unfold PadLutChannels_fuel. rewrite decide_True by done.
  change (ulong (1 - 1)) with 0.
  rewrite (ulong_small (size channel / 3)) by (unfold in_range; lia).
  rewrite (ulong_small (size channel / 3 - 0)) by (unfold in_range; lia).
  rewrite stepped_loop_spins; [done | lia..].
Qed.

End Fuel.

Section Bounds.

Context {F : Type} (SanitizeFloat : F → F).

Implicit Types (channel chn out : list F).

(** An input shorter than a row: the loop bound wraps around and the first
    iteration reads past the end of the input. *)
Lemma short_input_faults (fuel : nat) channel width height :
  1 < height → 1 ≤ width → 3 * (width - 1) < modulus → size channel ≤ max_size →
  size channel / 3 < width - 1 →
  PadLutChannels_fuel SanitizeFloat (S fuel) width height channel = OutOfRange SteppedLoop.
Proof.
  intros Hh Hw Hrow Hmax Hshort.
  pose proof max_size_eq as Hmaxeq. pose proof modulus_eq as Hmod.
  pose proof (size_nonneg channel) as Hsz.
  unfold PadLutChannels_fuel. rewrite decide_True by done.
  rewrite (ulong_small (size channel / 3)) by (unfold in_range; lia).
  rewrite (ulong_small (width - 1)) by (unfold in_range; lia).
  rewrite (ulong_neg (size channel / 3 - (width - 1))) by lia.
  rewrite stepped_loop_step by lia.
  change (ulong (3 * 0)) with 0.
  rewrite (ulong_small (0 + (width - 1))) by (unfold in_range; lia).
  rewrite (ulong_small (3 * (0 + (width - 1)))) by (unfold in_range; lia).
  rewrite transform_range_None by lia. done.
Qed.

(** No triple at all and [width = 1]: the loop and the copy of the leftover
    are skipped, and the padding reads [channel[3 * (0 - 1)]]. *)
Lemma no_input_faults (fuel : nat) channel height :
  1 < height → in_range height → size channel / 3 = 0 →
  PadLutChannels_fuel SanitizeFloat fuel 1 height channel = OutOfRange TailPadding.
Proof.
  intros Hh Hhr Hcw. pose proof modulus_eq as Hmod.
  pose proof (size_nonneg channel) as Hsz.
  unfold PadLutChannels_fuel. rewrite decide_True by done.
  rewrite Hcw. change (ulong (1 - 1)) with 0. change (ulong 0) with 0.
  change (ulong (0 - 0)) with 0.
  rewrite stepped_loop_exit by lia. simpl.
  change (size []) with 0. change (ulong 0 / 3) with 0.
  rewrite Z.mul_1_l, (ulong_small height) by done.
  rewrite Z.sub_0_r, (ulong_small height) by done.
  unfold tail_padding. rewrite decide_True by lia.
  unfold push_triple.
  change (ulong (ulong (3 * ulong (0 - 1)) + 0)) with 18446744073709551613.
  rewrite (at_index_None channel 18446744073709551613); [reflexivity | lia].
Qed.

(** The tail padding reads the last triple only. *)
Lemma tail_padding_reads channel currWidth missingEntries chn s :
  is_Some (push_triple SanitizeFloat channel (ulong (currWidth - 1))) →
  tail_padding SanitizeFloat channel currWidth missingEntries chn ≠ OutOfRange s.
Proof.
  intros [last Hlast]. unfold tail_padding.
  destruct (decide (0 < missingEntries)); [|by destruct (decide _)].
  rewrite Hlast. simpl. by destruct (decide _).
Qed.

(** C9, as amended: when [height > 1], [width >= 1] and the float index
    [3 * (width - 1)] of a row does not wrap around, every read of the
    input is within its bounds if and only if the input holds at least
    [width - 1] triples and at least one triple.  With fewer than
    [width - 1] triples the loop bound [currWidth - step] wraps around and
    the stepped loop reads past the end of the input; with no triple and
    [width = 1] the tail padding reads [channel[3 * (currWidth - 1)]] out
    of range. *)
Theorem PadLutChannels_reads_in_bounds channel width height :
  in_range height → size channel ≤ max_size →
  1 < height → 1 ≤ width → 3 * (width - 1) < modulus →
  ((∀ (fuel : nat) s,
       PadLutChannels_fuel SanitizeFloat fuel width height channel ≠ OutOfRange s)
   ↔ width - 1 ≤ size channel / 3 ∧ 1 ≤ size channel / 3)
  ∧ (size channel / 3 < width - 1 →
     ∀ fuel : nat, PadLutChannels_fuel SanitizeFloat (S fuel) width height channel
                   = OutOfRange SteppedLoop)
  ∧ (size channel / 3 = 0 → width = 1 →
     ∀ fuel : nat, PadLutChannels_fuel SanitizeFloat fuel width height channel
                   = OutOfRange TailPadding).
Proof.
  intros Hhr Hmax Hh Hw Hrow.
  pose proof max_size_eq as Hmaxeq. pose proof modulus_eq as Hmod.
  split; [split|split].
  - intros Hsafe.
    destruct (decide (size channel / 3 < width - 1)) as [Hshort|Hlong].
    { exfalso. apply (Hsafe 1%nat SteppedLoop). by apply short_input_faults. }
    split; [lia|].
    destruct (decide (1 ≤ size channel / 3)) as [|Hnone]; [done|].
    exfalso. assert (width = 1) as -> by lia.
    apply (Hsafe 0%nat TailPadding). apply no_input_faults; [done..|lia].
  - intros [Hrowin Hone] fuel s Hfault.
    destruct (decide (width = 1)) as [->|Hne].
    { by rewrite PadLutChannels_spins in Hfault. }
    destruct (PadLutChannels_fuel_rows SanitizeFloat channel width ltac:(lia) Hmax Hrowin
                (fuel `max` Z.to_nat (size channel / 3))%nat height)
      as [Hreturns Hthrows]; [done | lia |].
    destruct (decide (3 * (written channel width + missing channel width height) ≤ max_size))
      as [Hroom|Hlong].
    + destruct (Hreturns Hroom) as (out & Hrun & _).
      rewrite (PadLutChannels_more_fuel SanitizeFloat fuel) in Hrun;
        [|lia|by rewrite Hfault].
      by rewrite Hfault in Hrun.
    + assert (Hrun := Hthrows ltac:(lia)).
      rewrite (PadLutChannels_more_fuel SanitizeFloat fuel) in Hrun;
        [|lia|by rewrite Hfault].
      by rewrite Hfault in Hrun.
  - intros Hshort fuel. by apply short_input_faults.
  - intros Hnone -> fuel. by apply no_input_faults.
Qed.

End Bounds.

(** ** The unit tests of the packer, and inputs outside of its domain *)

Section PackerTests.

Import Float32.

Example tenths_1 : tenths 1 = S754_finite false 13421773 (-27).
Proof. reflexivity. Qed.

Example tenths_32 : tenths 32 = add (of_Z 3) (tenths 2).
Proof. reflexivity. Qed.

Example pad_lut_one_dimension :
  PadLutChannels SanitizeFloat 6 1 (test_channel 4) = Returned res_one_dimension.
Proof. vm_compute. reflexivity. Qed.

Example pad_lut_two_dimension_1 :
  PadLutChannels SanitizeFloat 4 3 (test_channel 8) = Returned res_two_dimension_1.
Proof. vm_compute. reflexivity. Qed.

(** C6: for [width = 4], [height = 3] and the nine triples
    [(i, i + 0.1, i + 0.2)], [i = 0..8], the packer returns 36 floats: the
    triples 0, 1, 2, 3, then 3, 4, 5, 6, then 6, 7, 8, 8. *)
Theorem pad_lut_two_dimension_2 :
  PadLutChannels SanitizeFloat 4 3 (test_channel 9) = Returned res_two_dimension_2
  ∧ length res_two_dimension_2 = 36%nat.
Proof. split; vm_compute; reflexivity. Qed.

(** C1 fails as stated.  With two triples for rows of width 4 the loop
    bound [currWidth - step] wraps around and the loop reads past the end
    of the input; with no triple at all the padding reads [channel[-3]];
    with 13 triples the packer writes 17 texels, more than the 12 of the
    texture, [missingEntries] wraps around and the padding ends with the
    exception of the vector. *)
Lemma PadLutChannels_length_counterexample :
  (stated_preconditions (test_channel 2) 4 3
   ∧ PadLutChannels SanitizeFloat 4 3 (test_channel 2) = OutOfRange SteppedLoop)
  ∧ (stated_preconditions (test_channel 0) 6 1
     ∧ PadLutChannels SanitizeFloat 6 1 (test_channel 0) = OutOfRange TailPadding)
  ∧ (stated_preconditions (test_channel 13) 4 3
     ∧ PadLutChannels SanitizeFloat 4 3 (test_channel 13) = LengthError).
Proof.
  split; [|split].
  - split; [split; [lia | reflexivity] | vm_compute; reflexivity].
  - split; [split; [lia | reflexivity] | vm_compute; reflexivity].
  - split; [split; [lia | reflexivity] | vm_compute; reflexivity].
Qed.

(** C3 fails as stated.  The call for seven triples, two rows and a width
    of 4, which is the call of [GetLut1DGPUShaderProgram] for a LUT of
    seven entries and a maximal width of 4, meets the stated
    preconditions; the packer writes 9 texels, more than the 8 of the
    texture, [missingEntries] wraps around and no texture is returned. *)
Lemma PadLutChannels_row_continuity_counterexample :
  stated_preconditions (test_channel 7) 4 2 ∧ 1 < 2
  ∧ written (test_channel 7) 4 = 9
  ∧ PadLutChannels SanitizeFloat 4 2 (test_channel 7) = LengthError.
Proof.
  split; [split; [lia | reflexivity]|]. split; [lia|].
  split; vm_compute; reflexivity.
Qed.

(** C8 fails as stated.  The call for 13 triples, three rows and a width
    of 4 has [height > 1], [width >= 2] and more than [width - 1]
    triples; the packer writes 17 texels, more than the 12 of the
    texture, and no output is returned. *)
Lemma PadLutChannels_layout_counterexample :
  1 < 3 ∧ 2 ≤ 4 ∧ 4 - 1 ≤ size (test_channel 13) / 3
  ∧ written (test_channel 13) 4 = 17
  ∧ PadLutChannels SanitizeFloat 4 3 (test_channel 13) = LengthError.
Proof.
  split; [lia|]. split; [lia|]. split; [vm_compute; discriminate|].
  split; vm_compute; reflexivity.
Qed.

End PackerTests.

Section BoundsCounterexample.

Import Float32.

(** C9 fails as stated when the float index [3 * step] of a row wraps
    around: for this width and an input of two triples, fewer than
    [width - 1], the loop reads the floats [0, 1) and the triple at the
    floats 1, 2, 3, leaves the loop since [i = step] is not below the
    wrapped bound, and every other read is within the bounds too. *)
Lemma PadLutChannels_reads_in_bounds_counterexample :
  1 < 2
  ∧ 0 < size (test_channel 2) / 3 < wrapping_width - 1
  ∧ ∀ (fuel : nat) s,
      PadLutChannels_fuel SanitizeFloat fuel wrapping_width 2 (test_channel 2)
      ≠ OutOfRange s.
Proof.
  split; [lia|]. split; [vm_compute; split; reflexivity|].
  intros fuel s. unfold PadLutChannels_fuel. rewrite decide_True by lia.
  destruct fuel as [|fuel].
  { intros Hfault. vm_compute in Hfault. discriminate. }
  rewrite stepped_loop_step by (vm_compute; reflexivity).
  destruct (transform_range _ _ _ _) as [row|] eqn:Hrow;
    [|vm_compute in Hrow; discriminate].
  clear Hrow. cbn [obind reading].
  destruct (push_triple _ _ _) as [last|] eqn:Hlast;
    [|vm_compute in Hlast; discriminate].
  clear Hlast. cbn [obind reading].
  rewrite stepped_loop_exit by (vm_compute; discriminate).
  cbn [obind fst snd]. unfold leftover_copy.
  rewrite decide_True by (vm_compute; reflexivity).
  destruct (transform_range _ _ _ _) as [row'|] eqn:Hrow';
    [|vm_compute in Hrow'; discriminate].
  clear Hrow'. cbn [obind reading].
  destruct (push_triple _ _ _) as [last'|] eqn:Hlast';
    [|vm_compute in Hlast'; discriminate].
  cbn [obind reading].
  apply tail_padding_reads. by rewrite Hlast'.
Qed.

End BoundsCounterexample.

(** ** The addressing code *)

Section ShaderProperties.

Import Shader.

Local Open Scope Q_scope.

Lemma sign_offset_negative q : q <= 0 → sign_offset (Fin q) == 32768.
Proof.
  intros Hq. unfold sign_offset, step, greater.
  apply Qle_bool_iff in Hq. rewrite Hq. reflexivity.
Qed.

Lemma sign_offset_positive q : 0 < q → sign_offset (Fin q) == 0.
Proof.
  intros Hq. unfold sign_offset, step, greater.
  destruct (Qle_bool q 0) eqn:Hle; [|reflexivity].
  apply Qle_bool_iff in Hle. exfalso. by apply (Qlt_not_le 0 q).
Qed.

(** C5, at the input where the code departs from it: for [f = 0.0], which
    is not negative, [step(f, 0.0)] is 1 and the sign term adds 32768. *)
Theorem sign_offset_zero : sign_offset (Fin 0) == 32768 ∧ ¬ 0 < 0.
Proof. split; [reflexivity | apply Qlt_irrefl]. Qed.

Lemma pow2_pos e : 0 < pow2 e.
Proof. apply Qpower_0_lt. reflexivity. Qed.

Lemma pow2_add a b : pow2 (a + b) == pow2 a * pow2 b.
Proof. unfold pow2. apply Qpower_plus. discriminate. Qed.

Lemma pow2_nonneg a : (0 ≤ a)%Z → pow2 a == inject_Z (2 ^ a).
Proof. intros Ha. unfold pow2. symmetry. apply (Zpower_Qpower 2 a Ha). Qed.

Lemma pow2_le a b : (a ≤ b)%Z → pow2 a <= pow2 b.
Proof. intros Hab. apply Qpower_le_compat_l; [done | discriminate]. Qed.

(** [floor_log2 x] is the integer [e] with [2^e <= x < 2^(e+1)]. *)
Lemma floor_log2_spec q :
  0 < q → pow2 (floor_log2 q) <= q ∧ q < pow2 (floor_log2 q + 1).
Proof.
  intros Hq. destruct q as [n d].
  assert (Hn : (0 < n)%Z).
  { unfold Qlt in Hq. simpl in Hq. lia. }
  unfold floor_log2. simpl Qnum. simpl Qden.
  set (a := Z.log2 n). set (b := Z.log2 (Z.pos d)).
  destruct (Z.log2_spec n Hn) as [Hna Hna'].
  destruct (Z.log2_spec (Z.pos d) eq_refl) as [Hdb Hdb'].
  fold a in Hna, Hna'. fold b in Hdb, Hdb'.
  assert (Ha : (0 ≤ a)%Z) by apply Z.log2_nonneg.
  assert (Hb : (0 ≤ b)%Z) by apply Z.log2_nonneg.
  assert (Hquot : n # d == inject_Z n / inject_Z (Z.pos d)) by apply Qmake_Qdiv.
  assert (Hdpos : 0 < inject_Z (Z.pos d)) by reflexivity.
  assert (Hupper : n # d < pow2 (a - b + 1)).
  { rewrite Hquot. apply Qlt_shift_div_r; [done|].
    apply Qlt_le_trans with (pow2 (a - b + 1) * pow2 b).
    - rewrite <- pow2_add. replace (a - b + 1 + b)%Z with (Z.succ a) by lia.
      rewrite pow2_nonneg by lia. rewrite <- Zlt_Qlt. exact Hna'.
    - apply Qmult_le_l; [apply pow2_pos|].
      rewrite pow2_nonneg by lia. rewrite <- Zle_Qle. exact Hdb. }
  assert (Hlower : pow2 (a - b - 1) < n # d).
  { rewrite Hquot. apply Qlt_shift_div_l; [done|].
    apply Qlt_le_trans with (pow2 (a - b - 1) * pow2 (b + 1)).
    - apply Qmult_lt_l; [apply pow2_pos|].
      rewrite pow2_nonneg by lia. rewrite <- Zlt_Qlt. exact Hdb'.
    - rewrite <- pow2_add. replace (a - b - 1 + (b + 1))%Z with a by lia.
      rewrite pow2_nonneg by lia. rewrite <- Zle_Qle. exact Hna. }
  destruct (Qle_bool (pow2 (a - b)) (n # d)) eqn:Hle.
  - apply Qle_bool_iff in Hle. by split.
  - split; [by apply Qlt_le_weak|].
    replace (a - b - 1 + 1)%Z with (a - b)%Z by lia.
    apply Qnot_le_lt. intros Hc. apply Qle_bool_iff in Hc. congruence.
Qed.

Lemma floor_log2_unique q e :
  pow2 e <= q → q < pow2 (e + 1) → floor_log2 q = e.
Proof.
  intros Hlo Hhi.
  assert (Hq : 0 < q) by (eapply Qlt_le_trans; [apply (pow2_pos e) | done]).
  destruct (floor_log2_spec q Hq) as [Hlo' Hhi'].
  destruct (Z.lt_trichotomy (floor_log2 q) e) as [Hlt | [Heq | Hgt]]; [|done|].
  - exfalso. apply (Qlt_irrefl q).
    eapply Qlt_le_trans; [exact Hhi'|].
    eapply Qle_trans; [|exact Hlo]. apply pow2_le. lia.
  - exfalso. apply (Qlt_irrefl q).
    eapply Qlt_le_trans; [exact Hhi|].
    eapply Qle_trans; [|exact Hlo']. apply pow2_le. lia.
Qed.

(** The unit of the halves: every finite half is a multiple of [2^-24]. *)
Lemma pow2_units e : (-24 ≤ e)%Z → pow2 e == inject_Z (2 ^ (e + 24)) * pow2 (-24).
Proof.
  intros He. rewrite <- pow2_nonneg by lia. rewrite <- pow2_add.
  by replace (e + 24 + -24)%Z with e by lia.
Qed.

Lemma units_le a b : (a ≤ b)%Z → inject_Z a * pow2 (-24) <= inject_Z b * pow2 (-24).
Proof. intros Hab. apply Qmult_le_r; [apply pow2_pos|]. by rewrite <- Zle_Qle. Qed.

Lemma units_lt a b : (a < b)%Z → inject_Z a * pow2 (-24) < inject_Z b * pow2 (-24).
Proof. intros Hab. apply Qmult_lt_r; [apply pow2_pos|]. by rewrite <- Zlt_Qlt. Qed.

Lemma normal_units E m :
  (1 ≤ E)%Z →
  inject_Z (1024 + m) * pow2 (E - 25) == inject_Z ((1024 + m) * 2 ^ (E - 1)) * pow2 (-24).
Proof.
  intros HE. rewrite (pow2_units (E - 25)) by lia.
  replace (E - 25 + 24)%Z with (E - 1)%Z by lia.
  rewrite inject_Z_mult. ring.
Qed.

(** The normalized branch recovers the exponent and the mantissa. *)
Lemma normalized_dep_exact E m q :
  (1 ≤ E)%Z → (0 ≤ m < 1024)%Z →
  q == inject_Z (1024 + m) * pow2 (E - 25) →
  normalized_dep q == inject_Z (1024 * E + m).
Proof.
  intros HE Hm Hq.
  assert (Hpow : (0 < 2 ^ (E - 1))%Z) by (apply Z.pow_pos_nonneg; lia).
  assert (Hfl : floor_log2 q = (E - 15)%Z).
  { apply floor_log2_unique.
    - rewrite Hq, normal_units by done. rewrite (pow2_units (E - 15)) by lia.
      apply units_le. replace (E - 15 + 24)%Z with (10 + (E - 1))%Z by lia.
      rewrite Z.pow_add_r by lia. nia.
    - rewrite Hq, normal_units by done. rewrite (pow2_units (E - 15 + 1)) by lia.
      apply units_lt. replace (E - 15 + 1 + 24)%Z with (11 + (E - 1))%Z by lia.
      rewrite Z.pow_add_r by lia. nia. }
  unfold normalized_dep. rewrite Hfl. unfold dot, NEG_MIN_EXP, EXP_SCALE. cbn [fst snd].
  rewrite Hq.
  assert (Hsplit : pow2 (E - 25) == pow2 (E - 15) * (1 # 1024)).
  { replace (E - 25)%Z with (E - 15 + -10)%Z by lia. by rewrite pow2_add. }
  rewrite Hsplit.
  pose proof (pow2_pos (E - 15)) as Hpos.
  assert (Hshift : inject_Z (E - 15) == inject_Z E - 15).
  { unfold Z.sub. by rewrite inject_Z_plus. }
  rewrite Hshift, !inject_Z_plus, !inject_Z_mult.
  change (inject_Z 1024) with 1024.
  field. intros Hzero. rewrite Hzero in Hpos. by apply (Qlt_irrefl 0).
Qed.

(** The denormalized branch recovers the mantissa. *)
Lemma denormalized_dep_exact n q :
  q == inject_Z n * pow2 (-24) → denormalized_dep q == inject_Z n.
Proof.
  intros Hq. unfold denormalized_dep, HALF_DENRM_MAX. rewrite Hq.
  change (pow2 (-24)) with (/ 16777216). field.
Qed.

(** The branch taken for a finite input whose magnitude is [n] units. *)
Lemma half_dep_finite q n :
  Qabs q == inject_Z n * pow2 (-24) → (n ≤ 2047 * 2 ^ 29)%Z →
  half_dep (Fin q)
  = Some ((if decide (n ≤ 1024)%Z then denormalized_dep (Qabs q)
           else normalized_dep (Qabs q)) + sign_offset (Fin q)).
Proof.
  intros Hq Hn. unfold half_dep, abs, greater.
  assert (Hmin : HALF_NRM_MIN == inject_Z 1024 * pow2 (-24)) by reflexivity.
  assert (Hmax : HALF_MAX == inject_Z (2047 * 2 ^ 29) * pow2 (-24)) by reflexivity.
  destruct (decide (n ≤ 1024)%Z) as [Hsmall|Hlarge].
  - assert (Hle : Qle_bool (Qabs q) HALF_NRM_MIN = true).
    { apply Qle_bool_iff. rewrite Hq, Hmin. by apply units_le. }
    rewrite Hle. reflexivity.
  - assert (Hle : Qle_bool (Qabs q) HALF_NRM_MIN = false).
    { destruct (Qle_bool (Qabs q) HALF_NRM_MIN) eqn:Hle; [|done].
      apply Qle_bool_iff in Hle. rewrite Hq, Hmin in Hle.
      exfalso. apply (Qle_not_lt _ _ Hle). apply units_lt. lia. }
    rewrite Hle. cbn [negb]. unfold min, greater.
    assert (Hle' : Qle_bool (Qabs q) HALF_MAX = true).
    { apply Qle_bool_iff. rewrite Hq, Hmax. by apply units_le. }
    rewrite Hle'. reflexivity.
Qed.

(** The magnitude of a finite half, in units, and the index of its bits. *)
Lemma magnitude_dep E m q :
  (0 ≤ E ≤ 30)%Z → (0 ≤ m < 1024)%Z →
  Qabs q == (if decide (E = 0%Z) then inject_Z m * pow2 (-24)
             else inject_Z (1024 + m) * pow2 (E - 25)) →
  ∃ dep, half_dep (Fin q) = Some (dep + sign_offset (Fin q))
         ∧ dep == inject_Z (1024 * E + m).
Proof.
  intros HE Hm Hq. destruct (decide (E = 0%Z)) as [->|HE0].
  - rewrite (half_dep_finite q m) by (done || lia).
    rewrite decide_True by lia. eexists. split; [done|].
    rewrite (denormalized_dep_exact m) by done. by replace (1024 * 0 + m)%Z with m by lia.
  - assert (Hpow : (0 < 2 ^ (E - 1))%Z) by (apply Z.pow_pos_nonneg; lia).
    assert (Hpow' : (2 ^ (E - 1) ≤ 2 ^ 29)%Z) by (apply Z.pow_le_mono_r; lia).
    rewrite normal_units in Hq by lia.
    rewrite (half_dep_finite q ((1024 + m) * 2 ^ (E - 1))) by (done || nia).
    eexists. split; [done|].
    destruct (decide ((1024 + m) * 2 ^ (E - 1) ≤ 1024)%Z) as [Hsmall|Hlarge].
    + rewrite (denormalized_dep_exact ((1024 + m) * 2 ^ (E - 1))) by done.
      assert (m = 0%Z ∧ (2 ^ (E - 1) = 1)%Z) as [-> Hone] by nia.
      assert (E = 1%Z) as ->.
      { destruct (decide (E = 1%Z)) as [|Hne]; [done|]. exfalso.
        assert (2 ^ 1 ≤ 2 ^ (E - 1))%Z by (apply Z.pow_le_mono_r; lia). lia. }
      reflexivity.
    + apply normalized_dep_exact; [lia | done |].
      rewrite Hq. by rewrite normal_units by lia.
Qed.

Lemma Qabs_signed (negative : bool) (n : Z) (e : Z) :
  (0 ≤ n)%Z →
  Qabs ((if negative then -1 else 1) * inject_Z n * pow2 e) == inject_Z n * pow2 e.
Proof.
  intros Hn. rewrite !Qabs_Qmult.
  rewrite (Qabs_pos (inject_Z n)) by (by rewrite <- (Zle_Qle 0)).
  rewrite (Qabs_pos (pow2 e)) by (apply Qlt_le_weak, pow2_pos).
  assert (Hsign : Qabs (if negative then -1 else 1) == 1) by (by destruct negative).
  rewrite Hsign. ring.
Qed.

(** Every pattern of a finite half other than [+0.0] is recovered. *)
Lemma half_dep_recovers k :
  (1 ≤ k ≤ 31743 ∨ 32768 ≤ k ≤ 64511)%Z →
  ∃ dep, half_dep (half_value k) = Some dep ∧ dep == inject_Z k.
Proof.
  intros Hk. unfold half_value.
  set (negative := bool_decide (32768 ≤ k)%Z).
  set (E := ((k / 1024) `mod` 32)%Z). set (m := (k `mod` 1024)%Z).
  assert (HE : (0 ≤ E ≤ 30)%Z) by (unfold E; lia).
  assert (Hm : (0 ≤ m < 1024)%Z) by (unfold m; lia).
  rewrite decide_False by lia.
  set (q := if decide (E = 0%Z)
            then (if negative then -1 else 1) * inject_Z m * pow2 (-24)
            else (if negative then -1 else 1) * inject_Z (1024 + m) * pow2 (E - 25)).
  assert (Hval : (if decide (E = 0%Z)
                  then Fin ((if negative then -1 else 1) * inject_Z m * pow2 (-24))
                  else Fin ((if negative then -1 else 1) * inject_Z (1024 + m)
                            * pow2 (E - 25))) = Fin q).
  { unfold q. by destruct (decide (E = 0%Z)). }
  rewrite Hval.
  destruct (magnitude_dep E m q HE Hm) as (dep & Hrun & Hdep).
  { unfold q. destruct (decide (E = 0%Z)); apply Qabs_signed; lia. }
  rewrite Hrun. eexists. split; [done|]. rewrite Hdep.
  assert (Hunits : q == (if negative then -1 else 1)
                        * (inject_Z (if decide (E = 0%Z) then m else (1024 + m) * 2 ^ (E - 1))
                           * pow2 (-24))).
  { unfold q. destruct (decide (E = 0%Z)); [ring|].
    rewrite <- normal_units by lia. ring. }
  assert (Hpow : (0 < 2 ^ (E - 1))%Z ∨ E = 0%Z).
  { destruct (decide (E = 0%Z)); [by right|]. left. apply Z.pow_pos_nonneg; lia. }
  destruct Hk as [Hpos|Hneg].
  - assert (negative = false) as Hs by (unfold negative; apply bool_decide_eq_false; lia).
    rewrite Hs in Hunits.
    rewrite sign_offset_positive.
    + rewrite Qplus_0_r. apply inject_Z_injective. unfold E, m. lia.
    + rewrite Hunits, Qmult_1_l.
      rewrite <- (Qmult_0_l (pow2 (-24))). change 0 with (inject_Z 0).
      apply units_lt. destruct (decide (E = 0%Z)) as [HE0|HE0].
      * unfold E, m in *. lia.
      * destruct Hpow as [Hpow|]; [nia|done].
  - assert (negative = true) as Hs by (unfold negative; apply bool_decide_eq_true; lia).
    rewrite Hs in Hunits.
    rewrite sign_offset_negative.
    + change 32768 with (inject_Z 32768). rewrite <- inject_Z_plus.
      apply inject_Z_injective. unfold E, m. lia.
    + rewrite Hunits.
      assert (Hnn : 0 <= inject_Z (if decide (E = 0%Z) then m else (1024 + m) * 2 ^ (E - 1))
                        * pow2 (-24)).
      { rewrite <- (Qmult_0_l (pow2 (-24))). change 0 with (inject_Z 0).
        apply units_le. destruct (decide (E = 0%Z)); [lia|].
        destruct Hpow as [Hpow|]; [nia|done]. }
      revert Hnn. generalize (inject_Z (if decide (E = 0%Z) then m else (1024 + m) * 2 ^ (E - 1))
                              * pow2 (-24)).
      intros u Hu. apply Qopp_le_compat in Hu.
      assert (Heq : -1 * u == - u) by ring.
      rewrite Heq. exact Hu.
Qed.


Lemma Qtruncate_floor q : 0 <= q → Qtruncate q = Qfloor q.
Proof.
  destruct q as [n d]. unfold Qle, Qtruncate, Qfloor. simpl. intros Hn.
  apply Z.quot_div_nonneg; lia.
Qed.

(** On a float that is not negative and below [2^31], [float(int(.))] is
    [floor]. *)
Lemma float_int_floor (q : Q) :
  0 <= q → q < inject_Z (2 ^ 31) → float_int q = Some (floor q).
Proof.
  intros Hq Hint. unfold float_int, int, floor.
  rewrite Qtruncate_floor by done.
  assert (Hlo : (0 ≤ Qfloor q)%Z) by (change 0%Z with (Qfloor 0); by apply Qfloor_resp_le).
  assert (Hhi : (Qfloor q < 2 ^ 31)%Z).
  { rewrite Zlt_Qlt. eapply Qle_lt_trans; [apply Qfloor_le | done]. }
  rewrite decide_True by lia. done.
Qed.

(** C7, as amended: for every [dep >= 0] and every [width >= 2] for which
    the row [dep / (width-1)] is below [2^31], so that it is a value of
    an [int], the row [floor(dep / (width-1))] of the half-domain code and
    the row [float(int(dep / (width-1)))] of the float-domain code are the
    same, and so are the columns. *)
Theorem row_formulas_agree (dep : Q) (width : Z) :
  0 <= dep → (2 ≤ width)%Z → dep / inject_Z (width - 1) < inject_Z (2 ^ 31) →
  float_row_column (inject_Z (width - 1)) dep
  = Some (half_row_column (inject_Z (width - 1)) dep).
Proof.
  intros Hdep Hw Hint. unfold half_row_column, float_row_column.
  rewrite float_int_floor; [done| |done].
  apply Qle_shift_div_l.
  - change 0 with (inject_Z 0). rewrite <- Zlt_Qlt. lia.
  - by rewrite Qmult_0_l.
Qed.

(** C7 fails as stated: for [dep = 2^31] and [width = 2] the half-domain
    code computes the row [2^31], which is not a value of an [int], and
    the conversion [int(dep / (width-1))] of the float-domain code is not
    defined. *)
Lemma row_formulas_agree_counterexample :
  0 <= inject_Z (2 ^ 31) ∧ (2 ≤ 2)%Z
  ∧ y (half_row_column (inject_Z (2 - 1)) (inject_Z (2 ^ 31))) == inject_Z (2 ^ 31)
  ∧ float_row_column (inject_Z (2 - 1)) (inject_Z (2 ^ 31)) = None.
Proof.
  split; [discriminate|]. split; [lia|]. split; vm_compute; reflexivity.
Qed.

(** The row and the column computed from an integral [dep] are the
    quotient and the remainder of its division by [width - 1]. *)
Lemma half_row_column_integral (k width : Z) (dep : Q) :
  (2 ≤ width)%Z → dep == inject_Z k →
  y (half_row_column (inject_Z (width - 1)) dep) = inject_Z (k / (width - 1))
  ∧ x (half_row_column (inject_Z (width - 1)) dep) == inject_Z (k `mod` (width - 1)).
Proof.
  intros Hw Hdep. unfold half_row_column, floor. cbn [x y].
  assert (Hrow : Qfloor (dep / inject_Z (width - 1)) = (k / (width - 1))%Z).
  { rewrite Hdep. symmetry. apply Zdiv_Qdiv. }
  rewrite Hrow. split; [done|].
  rewrite Hdep. unfold Qminus. rewrite <- inject_Z_mult, <- inject_Z_opp, <- inject_Z_plus.
  apply inject_Z_injective. rewrite (Z.mod_eq k (width - 1)) by lia. lia.
Qed.

(** C2, as amended: for every bit pattern [k] of a finite half other than
    [+0.0], that is [k] in [1, 31743] or in [32768, 64511], the addressing
    computation, in exact arithmetic, yields the row [k / (width-1)] and
    the column [k mod (width-1)], whose linear index is [k]. *)
Theorem half_domain_addressing (k width : Z) :
  (2 ≤ width)%Z → (1 ≤ k ≤ 31743 ∨ 32768 ≤ k ≤ 64511)%Z →
  ∃ dep, half_dep (half_value k) = Some dep
         ∧ let retVal := half_row_column (inject_Z (width - 1)) dep in
           y retVal = inject_Z (k / (width - 1))
           ∧ x retVal == inject_Z (k `mod` (width - 1))
           ∧ linear_index (inject_Z (width - 1)) retVal == inject_Z k.
Proof.
  intros Hw Hk.
  destruct (half_dep_recovers k Hk) as (dep & Hrun & Hdep).
  exists dep. split; [done|].
  destruct (half_row_column_integral k width dep Hw Hdep) as [Hy Hx].
  simpl. split; [done|]. split; [done|].
  unfold linear_index. rewrite Hy, Hx.
  rewrite <- inject_Z_mult, <- inject_Z_plus.
  apply inject_Z_injective. rewrite (Z.mod_eq k (width - 1)) by lia. lia.
Qed.

(** The patterns of the infinities are clamped to the largest finite half,
    and the patterns of the NaNs are sent to no index. *)
Lemma half_dep_infinity :
  (∃ dep, half_dep (half_value 31744) = Some dep ∧ dep == 31743)
  ∧ (∃ dep, half_dep (half_value 64512) = Some dep ∧ dep == 64511).
Proof. split; eexists; (split; [vm_compute; reflexivity | reflexivity]). Qed.

Lemma half_dep_nan k :
  (31745 ≤ k ≤ 32767 ∨ 64513 ≤ k ≤ 65535)%Z → half_dep (half_value k) = None.
Proof.
  intros Hk. unfold half_value.
  rewrite decide_True by lia. by rewrite decide_False by lia.
Qed.

(** C2 fails as stated: the pattern 0 of [+0.0] is sent to the index 32768
    of [-0.0]; the pattern 31744 of the infinity is sent to the index
    31743 of the largest finite half, to which the code clamps; the
    pattern 31745 of a NaN is sent to no index. *)
Lemma half_domain_addressing_counterexample :
  (∃ dep, half_dep (half_value 0) = Some dep
          ∧ linear_index (inject_Z (4096 - 1)) (half_row_column (inject_Z (4096 - 1)) dep)
            == 32768)
  ∧ (∃ dep, half_dep (half_value 31744) = Some dep
            ∧ linear_index (inject_Z (4096 - 1)) (half_row_column (inject_Z (4096 - 1)) dep)
              == 31743)
  ∧ half_dep (half_value 31745) = None.
Proof.
  split; [|split].
  - eexists. split; [vm_compute; reflexivity|]. vm_compute. reflexivity.
  - eexists. split; [vm_compute; reflexivity|]. vm_compute. reflexivity.
  - vm_compute. reflexivity.
Qed.

End ShaderProperties.

(** ** The shader program *)

Section ProgramProperties.

Import GpuShader.

Context {F : Type} (SanitizeFloat : F → F) (getSamplerName : string → string).

Lemma PadLutChannels_one_texel (channel : list F) :
  size channel = 3 →
  PadLutChannels SanitizeFloat 1 1 channel = Returned (SanitizeFloat <$> channel).
Proof.
  intros Hsz. rewrite PadLutChannels_single_row; [|lia|].
  - rewrite Hsz. simpl. by rewrite app_nil_r.
  - unfold valid_call, texels_written, in_range. rewrite Hsz, modulus_eq, max_size_eq.
    rewrite decide_False by lia. repeat split; try lia; done.
Qed.

(** C4, as amended: the function does not check the length of the LUT.
    For a LUT of length 1 and a maximal texture width of at least 2 it
    returns normally: it registers a texture of one texel that holds the
    sanitized triple and, for a half-domain LUT, it emits a helper whose
    text divides by [float(width - 1)], which is 0; for the other LUTs it
    emits the one-dimensional lookup, which divides by [dim = 1]. *)
Theorem GetLut1DGPUShaderProgram_length_one
    (shaderDesc : GpuShaderDesc F) (lutData : Lut1DOpData F) :
  getLength lutData = 1 → size (getValues lutData) = 3 →
  2 ≤ getTextureMaxWidth shaderDesc →
  ∃ shaderDesc',
    GetLut1DGPUShaderProgram SanitizeFloat getSamplerName shaderDesc lutData
    = Emitted shaderDesc'
    ∧ textures shaderDesc'
      = textures shaderDesc
        ++ [ {| samplerName := getSamplerName (resource_name shaderDesc);
                cacheID := getCacheID lutData;
                width := 1;
                height := 1;
                interpolation := getConcreteInterpolation lutData;
                values := SanitizeFloat <$> getValues lutData |} ]
    ∧ helperShaderCode shaderDesc'
      = helperShaderCode shaderDesc
        ++ (if isInputHalfDomain lutData
            then [computePosHalf (resource_name shaderDesc) 0 1 1]
            else [])
    ∧ lookup <$> last (functionShaderCode shaderDesc')
      = Some (if isInputHalfDomain lutData
              then sampleTex2D (resource_name shaderDesc)
              else sampleTex1D (resource_name shaderDesc) 0 1).
Proof.
  intros Hlen Hsz Hmax. unfold GetLut1DGPUShaderProgram.
  rewrite decide_False by lia. rewrite Hlen.
  rewrite Z.min_l by lia.
  replace (1 / getTextureMaxWidth shaderDesc) with 0 by (symmetry; apply Z.div_small; lia).
  change (ulong (0 + 1)) with 1.
  rewrite PadLutChannels_one_texel by done.
  eexists. split; [reflexivity|].
  rewrite bool_decide_eq_false_2 by lia.
  fold (resource_name shaderDesc).
  destruct (isInputHalfDomain lutData); simpl.
  - split; [done|]. split; [done|]. by rewrite last_snoc.
  - split; [done|]. split; [by rewrite app_nil_r|]. by rewrite last_snoc.
Qed.

End ProgramProperties.

Section ProgramExamples.

Import GpuShader Float32.

(** C4 fails as stated: for a LUT of length 1 the function returns
    normally, with a texture of one texel registered and the
    one-dimensional lookup emitted, in which nothing is divided by
    [length - 1]; with the half-domain flag it returns normally too, and
    the helper that it emits divides by [float(width - 1) = 0]. *)
Lemma GetLut1DGPUShaderProgram_counterexample :
  getLength (one_entry_lut false) < 2
  ∧ GetLut1DGPUShaderProgram SanitizeFloat id empty_desc (one_entry_lut false)
    = Emitted
        {| getTextureMaxWidth := 4096;
           getResourcePrefix := "ocio_";
           textures := [ {| samplerName := "ocio_lut1d_0";
                            cacheID := "one_entry";
                            width := 1;
                            height := 1;
                            interpolation := INTERP_LINEAR;
                            values := test_channel 1 |} ];
           declareShaderCode := [declareTex1D "ocio_lut1d_0"];
           helperShaderCode := [];
           functionShaderCode := [ {| processing_for := "ocio_lut1d_0";
                                      hue_adjustment := false;
                                      lookup := sampleTex1D "ocio_lut1d_0" 0 1 |} ] |}
  ∧ GetLut1DGPUShaderProgram SanitizeFloat id empty_desc (one_entry_lut true)
    = Emitted
        {| getTextureMaxWidth := 4096;
           getResourcePrefix := "ocio_";
           textures := [ {| samplerName := "ocio_lut1d_0";
                            cacheID := "one_entry";
                            width := 1;
                            height := 1;
                            interpolation := INTERP_LINEAR;
                            values := test_channel 1 |} ];
           declareShaderCode := [declareTex2D "ocio_lut1d_0"];
           helperShaderCode := [computePosHalf "ocio_lut1d_0" 0 1 1];
           functionShaderCode := [ {| processing_for := "ocio_lut1d_0";
                                      hue_adjustment := false;
                                      lookup := sampleTex2D "ocio_lut1d_0" |} ] |}
  ∧ head (divisors (computePosHalf "ocio_lut1d_0" 0 1 1)) = Some 0.
Proof.
  split; [done|]. split; [vm_compute; reflexivity|].
  split; [vm_compute; reflexivity | reflexivity].
Qed.

(** With a maximal texture width of 1 the same LUT is packed in two rows of
    width 1, and the loop of the packer never ends. *)
Lemma GetLut1DGPUShaderProgram_spins (halfDomain : bool) :
  GetLut1DGPUShaderProgram SanitizeFloat id
    {| getTextureMaxWidth := 1;
       getResourcePrefix := "ocio_";
       textures := [];
       declareShaderCode := [];
       helperShaderCode := [];
       functionShaderCode := [] |}
    (one_entry_lut halfDomain)
  = PackerUnfinished.
Proof.
  unfold GetLut1DGPUShaderProgram. cbn [getTextureMaxWidth getLength getValues one_entry_lut].
  rewrite decide_False by lia.
  change (Z.min 1 1) with 1. change (ulong (1 / 1 + 1)) with 2.
  unfold PadLutChannels. rewrite PadLutChannels_spins; [done | lia | | ].
  - vm_compute. discriminate.
  - vm_compute. discriminate.
Qed.

End ProgramExamples.

(** ** Color space sets *)

Section ColorSpaceSetProperties.

Import ColorSpaceSet.

Context {Attributes : Type} (lower : string → string).

Local Abbreviation ColorSpace := (ColorSpace Attributes).

Implicit Types (m rhs lcss rcss css : Impl (Attributes := Attributes)).
Implicit Types (cs entry tmp old : ColorSpace).

Lemma replace_entry_None csName cs m :
  csName ∉ names lower m → replace_entry lower csName cs m = None.
Proof.
  induction m as [|entry rest IH]; simpl; [done|].
  rewrite not_elem_of_cons. intros [Hne Hrest].
  rewrite decide_False by done. by rewrite IH.
Qed.

(** The entry of index [i] is the first of its name: it is the one that
    [add] replaces. *)
Lemma replace_entry_lookup cs m i old :
  distinct_names lower m → m !! i = Some old →
  replace_entry lower (lower (getName old)) cs m = Some (<[i := cs]> m).
Proof.
  revert i. induction m as [|entry rest IH]; intros i Hdistinct Hold; [done|].
  unfold distinct_names in Hdistinct. simpl in Hdistinct.
  apply NoDup_cons in Hdistinct as [Hfresh Hrest].
  destruct i as [|i]; simpl in *.
  - injection Hold as ->. by rewrite decide_True.
  - rewrite decide_False.
    + by rewrite (IH i).
    + intros Heq. apply Hfresh. rewrite Heq.
      apply list_elem_of_fmap. exists old. split; [done|].
      by eapply list_elem_of_lookup_2.
Qed.

Lemma replace_entry_names csName cs m m' :
  lower (getName cs) = csName →
  replace_entry lower csName cs m = Some m' → names lower m' = names lower m.
Proof.
  intros Hcs. revert m'. induction m as [|entry rest IH]; intros m' Hrun; [done|].
  simpl in Hrun. destruct (decide (lower (getName entry) = csName)) as [Heq|Hne].
  - injection Hrun as <-. simpl. by rewrite Hcs, Heq.
  - destruct (replace_entry lower csName cs rest) as [rest'|]; [|done].
    injection Hrun as <-. simpl. by rewrite (IH rest').
Qed.

Lemma replace_entry_Some_inv csName cs m :
  replace_entry lower csName cs m = None → csName ∉ names lower m.
Proof.
  induction m as [|entry rest IH]; simpl; [intros _; apply not_elem_of_nil|].
  destruct (decide (lower (getName entry) = csName)) as [Heq|Hne]; [done|].
  destruct (replace_entry lower csName cs rest); [done|].
  intros _. apply not_elem_of_cons. split; [done | by apply IH].
Qed.

Lemma add_distinct cs m :
  distinct_names lower m → distinct_names lower (state_of (add lower cs m)).
Proof.
  intros Hdistinct. unfold add.
  destruct (decide (lower (getName cs) = "")); [done|].
  destruct (replace_entry lower (lower (getName cs)) cs m) as [m'|] eqn:Hrun; simpl.
  - unfold distinct_names. by rewrite (replace_entry_names _ cs m m' eq_refl Hrun).
  - unfold distinct_names, names. rewrite fmap_app. simpl.
    apply NoDup_app. split; [done|]. split; [|apply NoDup_singleton].
    intros name Hin Hname. apply list_elem_of_singleton in Hname as ->.
    by apply (replace_entry_Some_inv _ cs m Hrun).
Qed.

Lemma add_all_distinct rhs m :
  distinct_names lower m → distinct_names lower (state_of (add_all lower rhs m)).
Proof.
  revert m. induction rhs as [|cs rest IH]; intros m Hdistinct; [done|].
  simpl. pose proof (add_distinct cs m Hdistinct) as Hadd.
  destruct (add lower cs m) as [m'|what m']; simpl in *; [by apply IH | done].
Qed.

Lemma erase_entry_sublist name m : names lower (erase_entry lower name m) `sublist_of` names lower m.
Proof.
  induction m as [|entry rest IH]; simpl; [done|].
  destruct (decide (lower (getName entry) = name)).
  - by apply sublist_cons.
  - simpl. by apply sublist_skip.
Qed.

Lemma remove_distinct name m :
  distinct_names lower m → distinct_names lower (remove lower name m).
Proof.
  intros Hdistinct. unfold remove. destruct (decide (lower name = "")); [done|].
  unfold distinct_names. eapply sublist_NoDup; [done | apply erase_entry_sublist].
Qed.

Lemma remove_all_distinct rhs m :
  distinct_names lower m → distinct_names lower (remove_all lower rhs m).
Proof.
  revert m. induction rhs as [|cs rest IH]; intros m Hdistinct; [done|].
  simpl. by apply IH, remove_distinct.
Qed.

Lemma intersection_loop_distinct lcss rest css :
  distinct_names lower css →
  distinct_names lower (state_of (intersection_loop lower lcss rest css)).
Proof.
  revert css. induction rest as [|tmp rest IH]; intros css Hdistinct; [done|].
  simpl. destruct (decide (-1 ≠ getIndex lower lcss (getName tmp))); [|by apply IH].
  unfold addColorSpace. pose proof (add_distinct tmp css Hdistinct) as Hadd.
  destruct (add lower tmp css) as [css'|what css']; simpl in *; [by apply IH | done].
Qed.

Lemma difference_loop_distinct rcss rest css :
  distinct_names lower css →
  distinct_names lower (state_of (difference_loop lower rcss rest css)).
Proof.
  revert css. induction rest as [|tmp rest IH]; intros css Hdistinct; [done|].
  simpl. destruct (decide (-1 = getIndex lower rcss (getName tmp))); [|by apply IH].
  unfold addColorSpace. pose proof (add_distinct tmp css Hdistinct) as Hadd.
  destruct (add lower tmp css) as [css'|what css']; simpl in *; [by apply IH | done].
Qed.

(** The operations keep the names distinct, and [addColorSpace] replaces
    in place the member that has the name of the new color space. *)
Lemma operations_keep_names_distinct m :
  distinct_names lower m →
  (∀ cs, distinct_names lower (state_of (addColorSpace lower cs m)))
  ∧ (∀ rhs, distinct_names lower (state_of (addColorSpaces lower rhs m)))
  ∧ (∀ name, distinct_names lower (removeColorSpace lower name m))
  ∧ distinct_names lower (clearColorSpaces m)
  ∧ (∀ rcss, distinct_names lower (state_of (union lower m rcss)))
  ∧ (∀ rcss, distinct_names lower (state_of (intersection lower m rcss)))
  ∧ (∀ rcss, distinct_names lower (state_of (difference lower m rcss)))
  ∧ (∀ cs i old,
        m !! i = Some old → lower (getName old) = lower (getName cs) →
        lower (getName cs) ≠ "" →
        addColorSpace lower cs m = Done (<[i := cs]> m)
        ∧ <[i := cs]> m !! i = Some cs
        ∧ length (<[i := cs]> m) = length m).
Proof.
  intros Hdistinct. split; [|split; [|split; [|split; [|split; [|split; [|split]]]]]].
  - intros cs. by apply add_distinct.
  - intros rhs. by apply add_all_distinct.
  - intros name. by apply remove_distinct.
  - apply NoDup_nil_2.
  - intros rcss. by apply add_all_distinct.
  - intros rcss. apply intersection_loop_distinct, NoDup_nil_2.
  - intros rcss. apply difference_loop_distinct, NoDup_nil_2.
  - intros cs i old Hold Hname Hnonempty. split; [|split].
    + unfold addColorSpace, add. rewrite decide_False by done.
      rewrite <- Hname. by rewrite (replace_entry_lookup cs m i old).
    + apply list_lookup_insert_eq. by eapply lookup_lt_Some.
    + apply length_insert.
Qed.

End ColorSpaceSetProperties.

Section CaseInsensitiveNames.

Import ColorSpaceSet.

Context {Attributes : Type}.

Implicit Types (m rhs rcss : Impl (Attributes := Attributes)).

(** C10: every operation of a color space set ([addColorSpace],
    [addColorSpaces], [removeColorSpace], [clearColorSpaces] and the
    operators [||], [&&] and [-]) keeps the names of the set pairwise
    distinct under the case-insensitive comparison; and [addColorSpace]
    of a color space whose name matches, case-insensitively, the name of
    the member of index [i] replaces that member in place: the position
    and the size of the set are kept. *)
Theorem ColorSpaceSet_names_stay_distinct m :
  distinct_names pystring_lower m →
  (∀ cs, distinct_names pystring_lower (state_of (addColorSpace pystring_lower cs m)))
  ∧ (∀ rhs, distinct_names pystring_lower (state_of (addColorSpaces pystring_lower rhs m)))
  ∧ (∀ name, distinct_names pystring_lower (removeColorSpace pystring_lower name m))
  ∧ distinct_names pystring_lower (clearColorSpaces m)
  ∧ (∀ rcss, distinct_names pystring_lower (state_of (union pystring_lower m rcss)))
  ∧ (∀ rcss, distinct_names pystring_lower (state_of (intersection pystring_lower m rcss)))
  ∧ (∀ rcss, distinct_names pystring_lower (state_of (difference pystring_lower m rcss)))
  ∧ (∀ cs i old,
        m !! i = Some old →
        pystring_lower (getName old) = pystring_lower (getName cs) →
        pystring_lower (getName cs) ≠ "" →
        addColorSpace pystring_lower cs m = Done (<[i := cs]> m)
        ∧ <[i := cs]> m !! i = Some cs
        ∧ length (<[i := cs]> m) = length m).
Proof. apply operations_keep_names_distinct. Qed.

End CaseInsensitiveNames.

Section ColorSpaceSetExamples.

Import ColorSpaceSet.

Example pystring_lower_example : pystring_lower "Lin_sRGB 2" = "lin_srgb 2".
Proof. reflexivity. Qed.

(** A color space named "Cs1" takes the place of "cs1". *)
Example addColorSpace_replaces :
  addColorSpace pystring_lower (color_space "Cs1" true) three_spaces
  = Done [color_space "Cs1" true; color_space "CS2" false; color_space "cs3" true].
Proof. reflexivity. Qed.

Example addColorSpace_appends :
  addColorSpace pystring_lower (color_space "cs4" false) three_spaces
  = Done (three_spaces ++ [color_space "cs4" false]).
Proof. reflexivity. Qed.

Example addColorSpace_throws :
  addColorSpace pystring_lower (color_space "" false) three_spaces
  = Threw "Cannot add a color space with an empty name." three_spaces.
Proof. reflexivity. Qed.

Example difference_example :
  difference pystring_lower three_spaces [color_space "cs2" false]
  = Done [color_space "cs1" false; color_space "cs3" true].
Proof. reflexivity. Qed.

Example intersection_example :
  intersection pystring_lower [color_space "cs2" false] three_spaces
  = Done [color_space "CS2" false].
Proof. reflexivity. Qed.

Lemma three_spaces_distinct : distinct_names pystring_lower three_spaces.
Proof.
  unfold distinct_names. apply (bool_decide_unpack _). vm_compute. reflexivity.
Qed.

End ColorSpaceSetExamples.

(** ** The theorems at concrete inputs *)

Section Witnesses.

Import Float32.

Lemma test_channel_8_valid : valid_call (test_channel 8) 4 3.
Proof.
  unfold valid_call, texels_written, in_range. rewrite decide_True by lia.
  change (size (test_channel 8)) with 24.
  change (written (test_channel 8) 4) with 10.
  rewrite modulus_eq, max_size_eq. repeat split; lia.
Qed.

Lemma PadLutChannels_length_witness :
  valid_call (test_channel 8) 4 3
  ∧ ∃ out, PadLutChannels SanitizeFloat 4 3 (test_channel 8) = Returned out
           ∧ size out = 3 * 4 * 3.
Proof.
  split; [exact test_channel_8_valid|].
  exact (PadLutChannels_length SanitizeFloat (test_channel 8) 4 3 test_channel_8_valid).
Defined.

Lemma PadLutChannels_row_continuity_witness :
  valid_call (test_channel 8) 4 3 ∧ 1 < 3
  ∧ ∃ out, PadLutChannels SanitizeFloat 4 3 (test_channel 8) = Returned out
           ∧ ∀ r, 0 ≤ r ≤ 3 - 2 →
               ∃ t, texel out 4 r (4 - 1) = Some t ∧ texel out 4 (r + 1) 0 = Some t.
Proof.
  split; [exact test_channel_8_valid|]. split; [lia|].
  exact (PadLutChannels_row_continuity SanitizeFloat (test_channel 8) 4 3
           test_channel_8_valid ltac:(lia)).
Defined.

Lemma PadLutChannels_layout_witness :
  size (test_channel 8) ≤ max_size ∧ 1 < 3 ∧ 2 ≤ 4 ∧ 4 - 1 ≤ size (test_channel 8) / 3
  ∧ in_range (4 * 3) ∧ written (test_channel 8) 4 ≤ 4 * 3 ∧ 3 * (4 * 3) ≤ max_size
  ∧ ∃ out, PadLutChannels SanitizeFloat 4 3 (test_channel 8) = Returned out
           ∧ size out = 3 * (4 * 3)
           ∧ ∀ d, 0 ≤ d ≤ size (test_channel 8) / 3 - 1 →
               ∃ t, triple_at (test_channel 8) d = Some t
                    ∧ triple_at out (d / (4 - 1) * 4 + d `mod` (4 - 1))
                      = Some (sanitize_triple SanitizeFloat t).
Proof.
  assert (Hmax : size (test_channel 8) ≤ max_size) by (vm_compute; discriminate).
  assert (Hh : 1 < 3) by lia.
  assert (Hw : 2 ≤ 4) by lia.
  assert (Hrow : 4 - 1 ≤ size (test_channel 8) / 3) by (vm_compute; discriminate).
  assert (Hprod : in_range (4 * 3)) by (vm_compute; split; [discriminate|reflexivity]).
  assert (Hfit : written (test_channel 8) 4 ≤ 4 * 3) by (vm_compute; discriminate).
  assert (Hbound : 3 * (4 * 3) ≤ max_size) by (vm_compute; discriminate).
  split; [exact Hmax|]. split; [exact Hh|]. split; [exact Hw|]. split; [exact Hrow|].
  split; [exact Hprod|]. split; [exact Hfit|]. split; [exact Hbound|].
  exact (PadLutChannels_layout SanitizeFloat (test_channel 8) 4 3
           Hmax Hh Hw Hrow Hprod Hfit Hbound).
Defined.

Lemma PadLutChannels_reads_in_bounds_witness :
  in_range 3 ∧ size (test_channel 8) ≤ max_size ∧ 1 < 3 ∧ 1 ≤ 4 ∧ 3 * (4 - 1) < modulus
  ∧ ((∀ (fuel : nat) s,
         PadLutChannels_fuel SanitizeFloat fuel 4 3 (test_channel 8) ≠ OutOfRange s)
     ↔ 4 - 1 ≤ size (test_channel 8) / 3 ∧ 1 ≤ size (test_channel 8) / 3)
  ∧ (size (test_channel 8) / 3 < 4 - 1 →
     ∀ fuel : nat, PadLutChannels_fuel SanitizeFloat (S fuel) 4 3 (test_channel 8)
                   = OutOfRange SteppedLoop)
  ∧ (size (test_channel 8) / 3 = 0 → 4 = 1 →
     ∀ fuel : nat, PadLutChannels_fuel SanitizeFloat fuel 4 3 (test_channel 8)
                   = OutOfRange TailPadding).
Proof.
  assert (Hh : in_range 3) by (unfold in_range; rewrite modulus_eq; lia).
  assert (Hmax : size (test_channel 8) ≤ max_size) by (vm_compute; discriminate).
  assert (Hmod : 3 * (4 - 1) < modulus) by reflexivity.
  split; [exact Hh|]. split; [exact Hmax|]. split; [lia|]. split; [lia|].
  split; [exact Hmod|].
  exact (PadLutChannels_reads_in_bounds SanitizeFloat (test_channel 8) 4 3
           Hh Hmax ltac:(lia) ltac:(lia) Hmod).
Defined.

Import Shader.

Lemma row_formulas_agree_witness :
  (0 <= 65535)%Q ∧ 2 ≤ 4096 ∧ (65535 / inject_Z (4096 - 1) < inject_Z (2 ^ 31))%Q
  ∧ float_row_column (inject_Z (4096 - 1)) 65535
    = Some (half_row_column (inject_Z (4096 - 1)) 65535).
Proof.
  assert (Hdep : (0 <= 65535)%Q) by (vm_compute; discriminate).
  assert (Hw : 2 ≤ 4096) by lia.
  assert (Hint : (65535 / inject_Z (4096 - 1) < inject_Z (2 ^ 31))%Q) by reflexivity.
  split; [exact Hdep|]. split; [exact Hw|]. split; [exact Hint|].
  exact (row_formulas_agree 65535 4096 Hdep Hw Hint).
Defined.

(** The pattern 15360 is the half 1.0. *)
Lemma half_domain_addressing_witness :
  2 ≤ 4096 ∧ (1 ≤ 15360 ≤ 31743 ∨ 32768 ≤ 15360 ≤ 64511)
  ∧ ∃ dep, half_dep (half_value 15360) = Some dep
           ∧ let retVal := half_row_column (inject_Z (4096 - 1)) dep in
             y retVal = inject_Z (15360 / (4096 - 1))
             ∧ (x retVal == inject_Z (15360 `mod` (4096 - 1)))%Q
             ∧ (linear_index (inject_Z (4096 - 1)) retVal == inject_Z 15360)%Q.
Proof.
  assert (Hk : 1 ≤ 15360 ≤ 31743 ∨ 32768 ≤ 15360 ≤ 64511) by (left; lia).
  split; [lia|]. split; [exact Hk|].
  exact (half_domain_addressing 15360 4096 ltac:(lia) Hk).
Defined.

Import GpuShader.

Lemma GetLut1DGPUShaderProgram_length_one_witness :
  getLength (one_entry_lut false) = 1
  ∧ size (getValues (one_entry_lut false)) = 3
  ∧ 2 ≤ getTextureMaxWidth empty_desc
  ∧ ∃ shaderDesc',
      GetLut1DGPUShaderProgram SanitizeFloat id empty_desc (one_entry_lut false)
      = Emitted shaderDesc'
      ∧ textures shaderDesc'
        = textures empty_desc
          ++ [ {| samplerName := id (resource_name empty_desc);
                  cacheID := getCacheID (one_entry_lut false);
                  width := 1;
                  height := 1;
                  interpolation := getConcreteInterpolation (one_entry_lut false);
                  values := SanitizeFloat <$> getValues (one_entry_lut false) |} ]
      ∧ helperShaderCode shaderDesc'
        = helperShaderCode empty_desc
          ++ (if isInputHalfDomain (one_entry_lut false)
              then [computePosHalf (resource_name empty_desc) 0 1 1]
              else [])
      ∧ lookup <$> last (functionShaderCode shaderDesc')
        = Some (if isInputHalfDomain (one_entry_lut false)
                then sampleTex2D (resource_name empty_desc)
                else sampleTex1D (resource_name empty_desc) 0 1).
Proof.
  assert (Hsz : size (getValues (one_entry_lut false)) = 3) by reflexivity.
  assert (Hmax : 2 ≤ getTextureMaxWidth empty_desc) by (vm_compute; discriminate).
  split; [reflexivity|]. split; [exact Hsz|]. split; [exact Hmax|].
  exact (GetLut1DGPUShaderProgram_length_one SanitizeFloat id empty_desc
           (one_entry_lut false) eq_refl Hsz Hmax).
Defined.

Import ColorSpaceSet.

Lemma ColorSpaceSet_names_stay_distinct_witness :
  distinct_names pystring_lower three_spaces
  ∧ (∀ cs, distinct_names pystring_lower
             (state_of (addColorSpace pystring_lower cs three_spaces)))
  ∧ (∀ rhs, distinct_names pystring_lower
              (state_of (addColorSpaces pystring_lower rhs three_spaces)))
  ∧ (∀ name, distinct_names pystring_lower
               (removeColorSpace pystring_lower name three_spaces))
  ∧ distinct_names pystring_lower (clearColorSpaces three_spaces)
  ∧ (∀ rcss, distinct_names pystring_lower
               (state_of (union pystring_lower three_spaces rcss)))
  ∧ (∀ rcss, distinct_names pystring_lower
               (state_of (intersection pystring_lower three_spaces rcss)))
  ∧ (∀ rcss, distinct_names pystring_lower
               (state_of (difference pystring_lower three_spaces rcss)))
  ∧ (∀ cs i old,
        three_spaces !! i = Some old →
        pystring_lower (getName old) = pystring_lower (getName cs) →
        pystring_lower (getName cs) ≠ "" →
        addColorSpace pystring_lower cs three_spaces = Done (<[i := cs]> three_spaces)
        ∧ <[i := cs]> three_spaces !! i = Some cs
        ∧ length (<[i := cs]> three_spaces) = length three_spaces).
Proof.
  split; [exact three_spaces_distinct|].
  exact (ColorSpaceSet_names_stay_distinct three_spaces three_spaces_distinct).
Defined.

End Witnesses.

(** * Part III: further properties *)

(** ** Further properties of the packer *)

Section PackerTexels.

Context {F : Type} (SanitizeFloat : F → F).

Implicit Types (channel chn out : list F).

(** A texture of a single row: the sanitized input, then copies of its
    last triple. *)
Lemma single_row_packed channel width (n : nat) :
  1 ≤ size channel / 3 → size channel `mod` 3 = 0 →
  size channel / 3 + Z.of_nat n ≤ width →
  packed SanitizeFloat channel width
    ((SanitizeFloat <$> channel)
     ++ mjoin (replicate n (window SanitizeFloat channel (3 * (size channel / 3 - 1)) 3))).
Proof.
  intros Hcw Hmod Hfit row col e Hr Hc He Hlt.
  assert (Hlen3 : length (window SanitizeFloat channel (3 * (size channel / 3 - 1)) 3) = 3%nat).
  { pose proof (size_window SanitizeFloat channel (3 * (size channel / 3 - 1)) 3) as Hs.
    unfold size in *. lia. }
  rewrite size_app in Hlt. unfold size in Hlt at 2.
  rewrite length_join_replicate, Hlen3 in Hlt.
  assert (Hsz : size (SanitizeFloat <$> channel) = size channel).
  { unfold size. by rewrite length_fmap. }
  rewrite Hsz in Hlt.
  assert (row = 0) as -> by nia.
  unfold source_triple. rewrite Z.mul_0_l, !Z.add_0_l.
  destruct (decide (col < size channel / 3)) as [Hin|Hpad].
  - rewrite lookup_app_l by (rewrite length_fmap; unfold size in *; lia).
    rewrite list_lookup_fmap, Z.min_r by lia. done.
  - rewrite lookup_app_r by (rewrite length_fmap; unfold size in *; lia).
    rewrite lookup_join_replicate by (rewrite ?Hlen3, ?length_fmap; unfold size in *; lia).
    rewrite Hlen3, length_fmap.
    replace (Z.to_nat (3 * col + e) - length channel)%nat
      with (Z.to_nat e + Z.to_nat (col - size channel / 3) * 3)%nat
      by (unfold size in *; lia).
    rewrite Nat.Div0.mod_add, Nat.mod_small by lia.
    pose proof (window_lookup SanitizeFloat channel (3 * (size channel / 3 - 1)) 3 e) as Hwl.
    rewrite Hwl by lia. by rewrite Z.min_l by lia.
Qed.

(** X1: for every valid call (the domain of C1, with a texture that a
    vector can hold), every texel of the packed texture is known: the
    texel of row [row] and column [col] holds the sanitized input triple
    [row * (width - 1) + col] or, when the input is over, the sanitized
    last triple. *)
Theorem PadLutChannels_texels channel width height :
  valid_call channel width height →
  ∃ out, PadLutChannels SanitizeFloat width height channel = Returned out
    ∧ ∀ row col, 0 ≤ row < height → 0 ≤ col < width →
        ∃ t, triple_at channel (Z.min (size channel / 3 - 1) (row * (width - 1) + col))
             = Some t
             ∧ texel out width row col = Some (sanitize_triple SanitizeFloat t).
Proof.
  intros Hvalid.
  assert (Hout : ∃ out, PadLutChannels SanitizeFloat width height channel = Returned out
                        ∧ size out = 3 * (width * height)
                        ∧ packed SanitizeFloat channel width out).
  { destruct (decide (1 < height)) as [Hh|Hh].
    - by apply PadLutChannels_valid_rows.
    - rewrite PadLutChannels_single_row by done.
      destruct Hvalid as (Hw & Hhr & Hwh & Hmax & Hmod & Hcw & _ & Hfit & _).
      unfold texels_written in Hfit. rewrite decide_False in Hfit by done.
      unfold in_range in *.
      assert (height = 1) as -> by nia.
      eexists. split; [done|]. split.
      + rewrite size_app. unfold size at 2. rewrite length_join_replicate.
        pose proof (size_window SanitizeFloat channel (3 * (size channel / 3 - 1)) 3) as Hs.
        unfold size in *. rewrite length_fmap. lia.
      + apply single_row_packed; [done..|lia]. }
  destruct Hout as (out & Hrun & Hsz & Hp). exists out. split; [done|].
  intros row col Hrow Hcol.
  pose proof Hvalid as (_ & _ & _ & _ & Hmod & Hcw & _ & _ & _).
  fold (source_triple channel width row col).
  destruct (triple_at_is_Some SanitizeFloat channel (source_triple channel width row col))
    as [t Ht]; [unfold source_triple; nia | unfold source_triple; lia |].
  exists t. split; [done|].
  rewrite (packed_texel SanitizeFloat channel width out) by (try done; nia).
  by rewrite Ht.
Qed.

End PackerTexels.

Section PackerSanitizes.

Context {F : Type} (SanitizeFloat : F → F).

Implicit Types (channel chn out : list F).

(** The floats that are the image of a float of [channel]. *)
Local Abbreviation sanitized channel :=
  (Forall (λ y, ∃ x, x ∈ channel ∧ y = SanitizeFloat x)).

Lemma transform_range_sanitized channel a b row :
  transform_range SanitizeFloat channel a b = Some row → sanitized channel row.
Proof.
  unfold transform_range. destruct (decide _); [|done]. intros [= <-].
  apply Forall_fmap, Forall_forall. intros x Hx. exists x. split; [|done].
  eapply elem_of_sublist; [done|].
  etrans; [apply sublist_take | apply sublist_drop].
Qed.

Lemma at_index_elem_of channel k x : at_index channel k = Some x → x ∈ channel.
Proof.
  unfold at_index. destruct (decide _); [|done]. apply list_elem_of_lookup_2.
Qed.

Lemma push_triple_sanitized channel t last :
  push_triple SanitizeFloat channel t = Some last → sanitized channel last.
Proof.
  unfold push_triple.
  destruct (at_index channel (ulong (ulong (3 * t) + 0))) as [r|] eqn:Hr; simpl; [|done].
  destruct (at_index channel (ulong (ulong (3 * t) + 1))) as [g|] eqn:Hg; simpl; [|done].
  destruct (at_index channel (ulong (ulong (3 * t) + 2))) as [b|] eqn:Hb; simpl; [|done].
  intros [= <-].
  repeat apply Forall_cons_2; [..|done]; eexists; (split; [|done]);
    by eapply at_index_elem_of.
Qed.

Lemma stepped_loop_sanitized (fuel : nat) channel bound step i leftover chn leftover' chn' :
  sanitized channel chn →
  stepped_loop SanitizeFloat fuel channel bound step i leftover chn
  = Returned (leftover', chn') →
  sanitized channel chn'.
Proof.
  revert i leftover chn. induction fuel as [|fuel IH]; intros i leftover chn Hchn; simpl.
  - destruct (decide (i < bound)); [done|]. by intros [= _ <-].
  - destruct (decide (i < bound)); [|by intros [= _ <-]].
    destruct (transform_range _ _ _ _) as [row|] eqn:Hrow; [simpl|done].
    destruct (push_triple _ _ _) as [last|] eqn:Hlast; [simpl|done].
    apply IH. apply Forall_app. split; [done|]. apply Forall_app. split.
    + by eapply transform_range_sanitized.
    + by eapply push_triple_sanitized.
Qed.

Lemma leftover_copy_sanitized channel currWidth leftover chn chn' :
  sanitized channel chn →
  leftover_copy SanitizeFloat channel currWidth leftover chn = Returned chn' →
  sanitized channel chn'.
Proof.
  intros Hchn. unfold leftover_copy. destruct (decide (0 < leftover)); [|by intros [= <-]].
  destruct (transform_range _ _ _ _) as [row|] eqn:Hrow; [simpl|done].
  destruct (push_triple _ _ _) as [last|] eqn:Hlast; [simpl|done].
  intros [= <-]. apply Forall_app. split; [done|]. apply Forall_app. split.
  - by eapply transform_range_sanitized.
  - by eapply push_triple_sanitized.
Qed.

Lemma tail_padding_sanitized channel currWidth missingEntries chn out :
  sanitized channel chn →
  tail_padding SanitizeFloat channel currWidth missingEntries chn = Returned out →
  sanitized channel out.
Proof.
  intros Hchn. unfold tail_padding.
  destruct (decide (0 < missingEntries)); [|destruct (decide _); [by intros [= <-]|done]].
  destruct (push_triple _ _ _) as [last|] eqn:Hlast; [simpl|done].
  destruct (decide _); [|done].
  intros [= <-]. apply Forall_app. split; [done|].
  pose proof (push_triple_sanitized _ _ _ Hlast) as Hl.
  induction (Z.to_nat missingEntries) as [|n IH]; simpl; [done|].
  by apply Forall_app.
Qed.

(** X2: whatever the arguments, every float that the packer returns is
    [SanitizeFloat] of a float of the input: no float reaches the texture
    without having been sanitized, and none is made up. *)
Theorem PadLutChannels_sanitizes (fuel : nat) channel width height out :
  PadLutChannels_fuel SanitizeFloat fuel width height channel = Returned out →
  ∀ y, y ∈ out → ∃ x, x ∈ channel ∧ y = SanitizeFloat x.
Proof.
  unfold PadLutChannels_fuel. intros Hrun.
  apply Forall_forall. revert Hrun.
  destruct (decide (1 < height)).
  - destruct (stepped_loop _ _ _ _ _ _ _ _) as [[leftover chn]| | |] eqn:Hloop; [simpl|done..].
    destruct (leftover_copy _ _ _ _ _) as [chn'| | |] eqn:Hcopy; [simpl|done..].
    apply tail_padding_sanitized.
    eapply leftover_copy_sanitized; [|done].
    eapply stepped_loop_sanitized; [|done]. done.
  - simpl. apply tail_padding_sanitized.
    apply Forall_fmap, Forall_forall. intros x Hx. by exists x.
Qed.

End PackerSanitizes.

Section PackerTermination.

Context {F : Type} (SanitizeFloat : F → F).

Implicit Types (channel chn out : list F).


(** The texels written before the padding, for an input that holds at
    least one row. *)
Lemma texels_before_padding_rows (fuel : nat) channel width height :
  2 ≤ width → size channel ≤ max_size → width - 1 ≤ size channel / 3 →
  1 < height → size channel / 3 ≤ Z.of_nat fuel →
  ∃ chn, texels_before_padding SanitizeFloat fuel width height channel = Returned chn
         ∧ size chn = 3 * written channel width
         ∧ packed SanitizeFloat channel width chn.
Proof.
  intros Hw Hmax Hrow Hh Hfuel. unfold texels_before_padding.
  pose proof modulus_eq as Hmodulus. pose proof max_size_eq as Hmaxeq.
  pose proof (size_nonneg channel) as Hsize.
  set (currWidth := size channel / 3) in *.
  set (step := width - 1) in *.
  rewrite decide_True by done.
  rewrite (ulong_small currWidth) by (unfold in_range, currWidth; lia).
  rewrite (ulong_small step) by (unfold in_range, step, currWidth in *; lia).
  rewrite (ulong_small (currWidth - step)) by (unfold in_range, currWidth in *; lia).
  destruct (stepped_loop_rows SanitizeFloat channel width Hw Hmax fuel 0 currWidth [])
    as (n & chn & Hrun & Hn & Hlo & Hhi & Hsz & Hp);
    [lia | done | unfold currWidth, step in *; lia | unfold currWidth in *; lia
     | done | apply packed_nil |].
  change (0 * (width - 1)) with 0 in Hrun. fold currWidth step in Hrun, Hlo, Hhi.
  rewrite Hrun. simpl.
  assert (Hrows : n = whole_rows channel width) by by apply whole_rows_unique.
  assert (0 ≤ n * step) by (unfold step; nia).
  unfold leftover_copy. rewrite decide_True by lia.
  rewrite (ulong_small (currWidth - (currWidth - n * step)))
    by (unfold in_range, currWidth in *; lia).
  rewrite (ulong_small (currWidth - 1)) by (unfold in_range, currWidth in *; lia).
  rewrite !ulong_small by (unfold in_range, currWidth in *; lia).
  rewrite transform_range_window by (unfold currWidth in *; lia). simpl.
  rewrite push_triple_window by (unfold currWidth in *; lia). simpl.
  replace (currWidth - (currWidth - n * step)) with (n * step) by lia.
  set (left := currWidth - n * step).
  replace (3 * (currWidth - 1) - 3 * (n * step)) with (3 * (left - 1)) by (unfold left; lia).
  replace (3 * (currWidth - 1)) with (3 * (n * step) + 3 * (left - 1)) by (unfold left; lia).
  rewrite window_app by (unfold left; lia).
  replace (3 * (left - 1) + 3) with (3 * left) by lia.
  eexists. split; [done|]. split.
  - rewrite size_app, size_window by (unfold left, currWidth in *; lia).
    unfold written. fold currWidth. rewrite <- Hrows. unfold left, step. lia.
  - apply packed_app_row; [unfold left, step in *; lia..|done|done].
Qed.

(** The packer is the padding of what [texels_before_padding] returns. *)
Lemma PadLutChannels_fuel_padding (fuel : nat) channel width height :
  PadLutChannels_fuel SanitizeFloat fuel width height channel
  = (chn ←← texels_before_padding SanitizeFloat fuel width height channel;
     tail_padding SanitizeFloat channel (ulong (size channel / 3))
       (missingEntries width height chn) chn).
Proof. reflexivity. Qed.

End PackerTermination.

(** ** Further properties of [GetLut1DGPUShaderProgram] *)

(** The floats of the integers up to [2^24] *)

Section Binary32.

Import Float32.

Lemma digits2_pos_size p : digits2_pos p = Pos.size p.
Proof. induction p; simpl; by rewrite ?IHp. Qed.

Lemma iter_xO_value p k : Zpos (Pos.iter xO p k) = Zpos p * 2 ^ Zpos k.
Proof.
  induction k as [|k IH] using Pos.peano_ind.
  - simpl. lia.
  - rewrite Pos.iter_succ, Pos2Z.inj_succ, Z.pow_succ_r by lia.
    rewrite Pos2Z.inj_xO, IH. lia.
Qed.

Lemma iter_xO_size p k : Pos.size (Pos.iter xO p k) = (Pos.size p + k)%positive.
Proof.
  induction k as [|k IH] using Pos.peano_ind.
  - simpl. lia.
  - rewrite Pos.iter_succ. simpl. rewrite IH. lia.
Qed.

(** The positive [r * 2^k] *)
Lemma shifted_positive (q r : positive) (k : Z) :
  0 ≤ k → Zpos q = Zpos r * 2 ^ k →
  Zpos (Pos.size q) = Zpos (Pos.size r) + k.
Proof.
  intros Hk Hq. destruct k as [|d|d]; [| |lia].
  - assert (q = r) as -> by lia. lia.
  - assert (q = Pos.iter xO r d) as ->.
    { apply Pos2Z.inj. by rewrite iter_xO_value. }
    rewrite iter_xO_size. lia.
Qed.

Lemma size_bound p : Zpos p < 2 ^ 24 → Zpos (Pos.size p) ≤ 24.
Proof.
  intros Hp. pose proof (Pos.size_le p) as Hle.
  destruct (decide (Zpos (Pos.size p) ≤ 24)) as [|Hgt]; [done|]. exfalso.
  assert (H25 : 2 ^ 25 ≤ 2 ^ Zpos (Pos.size p)) by (apply Z.pow_le_mono_r; lia).
  assert (Hpow : Zpos (2 ^ Pos.size p) = 2 ^ Zpos (Pos.size p)) by apply Pos2Z.inj_pow.
  lia.
Qed.

Lemma iter_pos_iter {A} (f : A → A) (n : positive) (x : A) :
  SpecFloat.iter_pos f n x = Pos.iter f x n.
Proof.
  revert x. induction n as [n IH|n IH|]; intros x; simpl; [|by rewrite !IH|done].
  by rewrite !IH, !Pos.iter_swap.
Qed.

(** Shifting out zeros is exact. *)
Lemma shr_zeros (a d : positive) :
  SpecFloat.iter_pos shr_1 d (Build_shr_record (Zpos (Pos.iter xO a d)) false false)
  = Build_shr_record (Zpos a) false false.
Proof.
  rewrite iter_pos_iter. induction d as [|d IH] using Pos.peano_ind; [done|].
  rewrite Pos.iter_succ_r, Pos.iter_succ. exact IH.
Qed.

(** A mantissa of 24 digits is kept as it is. *)
Lemma binary_round_aux_canonical s m e :
  Zpos (Pos.size m) = 24 → -149 ≤ e ≤ 104 →
  binary_round_aux prec emax s (Zpos m) e loc_Exact = S754_finite s m e.
Proof.
  intros Hd He. unfold binary_round_aux.
  assert (Hshr : ∀ l, shr_fexp prec emax (Zpos m) e l = (shr_record_of_loc (Zpos m) l, e)).
  { intros l. unfold shr_fexp, Zdigits2. rewrite digits2_pos_size, Hd.
    unfold fexp, emin, prec, emax.
    replace (Z.max (24 + e - 24) (3 - 128 - 24) - e) with 0 by lia. reflexivity. }
  rewrite Hshr. cbn [shr_record_of_loc shr_m loc_of_shr_record round_nearest_even].
  rewrite Hshr. cbn [shr_record_of_loc shr_m].
  unfold emax, prec. rewrite (proj2 (Z.leb_le e (128 - 24))) by lia. done.
Qed.

(** A mantissa of 24 digits followed by zeros loses the zeros. *)
Lemma binary_round_aux_zeros s (a d : positive) e :
  Zpos (Pos.size a) = 24 → -149 ≤ e → e + Zpos d ≤ 104 →
  binary_round_aux prec emax s (Zpos (Pos.iter xO a d)) e loc_Exact
  = S754_finite s a (e + Zpos d).
Proof.
  intros Hd Hlo Hhi. unfold binary_round_aux.
  assert (Hshr : shr_fexp prec emax (Zpos (Pos.iter xO a d)) e loc_Exact
                 = (Build_shr_record (Zpos a) false false, e + Zpos d)).
  { unfold shr_fexp, Zdigits2. rewrite digits2_pos_size, iter_xO_size.
    unfold fexp, emin, prec, emax. rewrite Pos2Z.inj_add, Hd.
    replace (Z.max (24 + Zpos d + e - 24) (3 - 128 - 24) - e) with (Zpos d) by lia.
    cbn [shr shr_record_of_loc]. by rewrite shr_zeros. }
  rewrite Hshr. cbn [shr_m loc_of_shr_record round_nearest_even].
  assert (Hshr' : shr_fexp prec emax (Zpos a) (e + Zpos d) loc_Exact
                  = (Build_shr_record (Zpos a) false false, e + Zpos d)).
  { unfold shr_fexp, Zdigits2. rewrite digits2_pos_size, Hd.
    unfold fexp, emin, prec, emax.
    replace (Z.max (24 + (e + Zpos d) - 24) (3 - 128 - 24) - (e + Zpos d)) with 0 by lia.
    reflexivity. }
  rewrite Hshr'. cbn [shr_m].
  unfold emax, prec. rewrite (proj2 (Z.leb_le (e + Zpos d) (128 - 24))) by lia. done.
Qed.

(** The rounding of the integer [r], given as [r * 2^k] with the exponent
    [-k], for an [r] of at most 24 digits: nothing is lost. *)
Lemma binary_round_integer s (q r : positive) (k : Z) :
  0 ≤ k ≤ 23 → Zpos q = Zpos r * 2 ^ k → Zpos r < 2 ^ 24 →
  ∃ m e, binary_round prec emax s q (- k) = S754_finite s m e
         ∧ -23 ≤ e ≤ 0 ∧ Zpos m = Zpos r * 2 ^ (- e).
Proof.
  intros Hk Hq Hr. pose proof (size_bound r Hr) as Hd.
  pose proof (shifted_positive q r k ltac:(lia) Hq) as Hsize.
  assert (Hpos : 0 < Zpos (Pos.size r)) by lia.
  unfold binary_round, shl_align.
  rewrite digits2_pos_size, Hsize. unfold fexp, emin, prec, emax.
  replace (Z.max (Zpos (Pos.size r) + k + - k - 24) (3 - 128 - 24))
    with (Zpos (Pos.size r) - 24) by lia.
  destruct (Zpos (Pos.size r) - 24 - - k) as [|d|d] eqn:Hsub.
  - change (binary_round_aux 24 128) with (binary_round_aux prec emax).
    rewrite binary_round_aux_canonical by lia.
    exists q, (- k). split; [done|]. split; [lia|]. by rewrite Z.opp_involutive.
  - assert (Ha : ∃ a, Zpos a = Zpos r * 2 ^ (24 - Zpos (Pos.size r))).
    { destruct (24 - Zpos (Pos.size r)) as [|j|j] eqn:Hj; [| |lia].
      - exists r. lia.
      - exists (Pos.iter xO r j). by rewrite iter_xO_value. }
    destruct Ha as [a Ha].
    pose proof (shifted_positive a r (24 - Zpos (Pos.size r)) ltac:(lia) Ha) as Hsize_a.
    assert (q = Pos.iter xO a d) as ->.
    { apply Pos2Z.inj. rewrite iter_xO_value, Ha, Hq, <- Z.mul_assoc, <- Z.pow_add_r by lia.
      f_equal. f_equal. lia. }
    change (binary_round_aux 24 128) with (binary_round_aux prec emax).
    rewrite binary_round_aux_zeros by lia.
    exists a, (- k + Zpos d). split; [done|]. split; [lia|].
    rewrite Ha. f_equal. f_equal. lia.
  - change (binary_round_aux 24 128) with (binary_round_aux prec emax).
    rewrite binary_round_aux_canonical.
    + exists (Pos.iter xO q d), (Zpos (Pos.size r) - 24). split; [done|]. split; [lia|].
      rewrite iter_xO_value, Hq, <- Z.mul_assoc, <- Z.pow_add_r by lia.
      f_equal. f_equal. lia.
    + rewrite iter_xO_size. lia.
    + lia.
Qed.

Lemma to_Z_integer (m : positive) (e n : Z) :
  e ≤ 0 → Zpos m = n * 2 ^ (- e) → to_Z (S754_finite false m e) = n.
Proof.
  intros He Hm. unfold to_Z, cond_Zopp. rewrite Hm.
  rewrite <- (Z.opp_involutive e) at 2.
  rewrite Z.shiftl_opp_r, Z.shiftr_div_pow2 by lia.
  apply Z.div_mul. apply Z.pow_nonzero; lia.
Qed.

(** [float(n)] is [n] for an integer [n] up to [2^24]. *)
Lemma of_Z_exact n : 0 ≤ n ≤ 2 ^ 24 → to_Z (of_Z n) = n.
Proof.
  intros Hn. destruct (decide (n = 2 ^ 24)) as [->|Hne]; [reflexivity|].
  destruct n as [|p|p]; [reflexivity| |lia].
  destruct (binary_round_integer false p p 0) as (m & e & Hrun & He & Hm); [lia..|].
  unfold of_Z, binary_normalize. change (- 0) with 0 in Hrun. rewrite Hrun.
  by apply to_Z_integer; [lia|].
Qed.

(** [float(n) - 1] is [n - 1] for an integer [n] from 1 to [2^24]. *)
Lemma sub_one_exact n : 1 ≤ n ≤ 2 ^ 24 → to_Z (sub (of_Z n) (of_Z 1)) = n - 1.
Proof.
  intros Hn. destruct (decide (n = 2 ^ 24)) as [->|Hne]; [reflexivity|].
  destruct (decide (n = 1)) as [->|Hone]; [reflexivity|].
  destruct n as [|p|p]; [lia| |lia].
  destruct (binary_round_integer false p p 0) as (m & e & Hrun & He & Hm); [lia..|].
  assert (Hof : of_Z (Zpos p) = S754_finite false m e).
  { unfold of_Z, binary_normalize. exact Hrun. }
  rewrite Hof. change (of_Z 1) with (S754_finite false 8388608 (-23)).
  unfold sub, SFsub. rewrite Z.min_r by lia.
  change (fst (shl_align 8388608 (-23) (-23))) with 8388608%positive.
  assert (Hx : Zpos (fst (shl_align m e (-23))) = Zpos p * 2 ^ 23).
  { unfold shl_align. destruct (-23 - e) as [|d|d] eqn:Hd; [|lia|]; cbn [fst].
    - rewrite Hm. f_equal. f_equal. lia.
    - rewrite iter_xO_value, Hm, <- Z.mul_assoc, <- Z.pow_add_r by lia.
      f_equal. f_equal. lia. }
  cbn [cond_Zopp]. rewrite Hx.
  destruct (Zpos p * 2 ^ 23 - 8388608) as [|q|q] eqn:Hq; [lia| |lia].
  unfold binary_normalize.
  destruct (binary_round_integer false q (Pos.pred p) 23) as (m' & e' & Hrun' & He' & Hm');
    [lia | lia | lia |].
  change (Z.opp 23) with (-23) in Hrun'. rewrite Hrun'.
  apply to_Z_integer; [lia|]. rewrite Hm'. f_equal. lia.
Qed.

End Binary32.

Section ProgramGeometry.

Import GpuShader.

Context {F : Type} (SanitizeFloat : F → F) (getSamplerName : string → string).

(** The rows of the texture of a LUT of [length] entries, for a maximal
    width [maxWidth]: with [length = q * maxWidth + r] the packer needs
    [q + r <= maxWidth], and then it writes [length + q] texels. *)
Lemma rows_of_length (length maxWidth : Z) :
  2 ≤ maxWidth → maxWidth ≤ length →
  length / maxWidth + length `mod` maxWidth < maxWidth →
  (length - 1) / (maxWidth - 1) = length / maxWidth.
Proof.
  intros Hw Hl Hfit.
  assert (Hq : 1 ≤ length / maxWidth) by (apply Z.div_le_lower_bound; lia).
  pose proof (Z.div_mod length maxWidth ltac:(lia)) as Heq.
  pose proof (Z.mod_pos_bound length maxWidth ltac:(lia)) as Hr.
  symmetry. apply (Z.div_unique _ _ _ (length / maxWidth + length `mod` maxWidth - 1)).
  - left. revert Hq Hr Hfit. generalize (length / maxWidth) (length `mod` maxWidth). lia.
  - revert Heq. generalize (length / maxWidth) (length `mod` maxWidth). lia.
Qed.

Lemma rows_of_length_too_many (length maxWidth : Z) :
  2 ≤ maxWidth → maxWidth ≤ length →
  maxWidth ≤ length / maxWidth + length `mod` maxWidth →
  length / maxWidth + 1 ≤ (length - 1) / (maxWidth - 1).
Proof.
  intros Hw Hl Hfit.
  assert (Hq : 1 ≤ length / maxWidth) by (apply Z.div_le_lower_bound; lia).
  pose proof (Z.div_mod length maxWidth ltac:(lia)) as Heq.
  pose proof (Z.mod_pos_bound length maxWidth ltac:(lia)) as Hr.
  apply Z.div_le_lower_bound; [lia|].
  revert Hq Hr Hfit Heq. generalize (length / maxWidth) (length `mod` maxWidth). nia.
Qed.

Lemma valid_call_of_length (channel : list F) (length maxWidth : Z) :
  2 ≤ maxWidth → maxWidth ≤ length →
  size channel = 3 * length → 3 * (maxWidth * (length / maxWidth + 1)) ≤ max_size →
  length / maxWidth + length `mod` maxWidth < maxWidth →
  valid_call channel maxWidth (length / maxWidth + 1).
Proof.
  intros Hw Hl Hsz Hmax Hfit.
  pose proof modulus_eq as Hmodulus. pose proof max_size_eq as Hmaxeq.
  assert (Hcw : size channel / 3 = length) by lia.
  unfold valid_call, texels_written, written, whole_rows, in_range.
  assert (Hq : 1 ≤ length / maxWidth) by (apply Z.div_le_lower_bound; lia).
  pose proof (Z.div_mod length maxWidth ltac:(lia)) as Heq.
  pose proof (Z.mod_pos_bound length maxWidth ltac:(lia)) as Hr.
  rewrite decide_True by lia. rewrite Hcw, rows_of_length by done.
  assert (Hmod3 : size channel `mod` 3 = 0) by lia.
  rewrite Hsz.
  revert Hq Hr Hfit Heq Hmax. generalize (length / maxWidth) (length `mod` maxWidth).
  intros q r Hq Hr Hfit Heq Hmax.
  repeat split; try done; nia.
Qed.

(** The texture of a LUT that fits in its rows holds at least the LUT. *)
Lemma texture_holds_length (length maxWidth : Z) :
  2 ≤ maxWidth → maxWidth ≤ length →
  length < maxWidth * (length / maxWidth + 1)
  ∧ maxWidth * (length / maxWidth + 1) ≤ 2 * length.
Proof.
  intros Hw Hl.
  assert (Hq : 1 ≤ length / maxWidth) by (apply Z.div_le_lower_bound; lia).
  pose proof (Z.div_mod length maxWidth ltac:(lia)) as Heq.
  pose proof (Z.mod_pos_bound length maxWidth ltac:(lia)) as Hr.
  revert Hq Hr Heq. generalize (length / maxWidth) (length `mod` maxWidth). nia.
Qed.

End ProgramGeometry.

Section ProgramTextures.

Import GpuShader.

Context {F : Type} (SanitizeFloat : F → F) (getSamplerName : string → string).

Local Abbreviation GetLut1DGPUShaderProgram :=
  (GetLut1DGPUShaderProgram SanitizeFloat getSamplerName).

Lemma float_of_ulong_exact (n : Z) : 0 ≤ n ≤ 2 ^ 24 → float_of_ulong n = n.
Proof. apply of_Z_exact. Qed.

Lemma dim_minus_one_exact (n : Z) : 1 ≤ n ≤ 2 ^ 24 → dim_minus_one n = n - 1.
Proof. apply sub_one_exact. Qed.

(** The call for a LUT that needs several rows and fits in them. *)
Lemma GetLut1DGPUShaderProgram_rows (shaderDesc : GpuShaderDesc F) (lutData : Lut1DOpData F) :
  let length := getLength lutData in
  let maxWidth := getTextureMaxWidth shaderDesc in
  let height := length / maxWidth + 1 in
  let name := resource_name shaderDesc in
  2 ≤ maxWidth → maxWidth ≤ length →
  size (getValues lutData) = 3 * length → 3 * (maxWidth * height) ≤ max_size →
  length / maxWidth + length `mod` maxWidth < maxWidth →
  ∃ vals,
    PadLutChannels SanitizeFloat maxWidth height (getValues lutData) = Returned vals
    ∧ size vals = 3 * (maxWidth * height)
    ∧ packed SanitizeFloat (getValues lutData) maxWidth vals
    ∧ GetLut1DGPUShaderProgram shaderDesc lutData
      = Emitted
          (addToFunctionShaderCode
             {| processing_for := name;
                hue_adjustment := match getHueAdjust lutData with
                                  | HUE_DW3 => true
                                  | HUE_NONE => false
                                  end;
                lookup := sampleTex2D name |}
             (addToHelperShaderCode
                (if isInputHalfDomain lutData
                 then computePosHalf name (float_of_ulong (maxWidth - 1))
                        (float_of_ulong maxWidth) (float_of_ulong height)
                 else computePosFloat name (float_of_ulong (length - 1))
                        (float_of_ulong (maxWidth - 1))
                        (float_of_ulong maxWidth) (float_of_ulong height))
                (addToDeclareShaderCode (declareTex2D name)
                   (addTexture
                      {| samplerName := getSamplerName name;
                         cacheID := getCacheID lutData;
                         width := maxWidth;
                         height := height;
                         interpolation := getConcreteInterpolation lutData;
                         values := vals |}
                      shaderDesc)))).
Proof.
  intros length maxWidth height name Hw Hl Hsz Hmax Hfit.
  pose proof modulus_eq as Hmodulus. pose proof max_size_eq as Hmaxeq.
  pose proof (valid_call_of_length (getValues lutData) length maxWidth Hw Hl Hsz Hmax Hfit)
    as Hvalid.
  pose proof (texture_holds_length length maxWidth Hw Hl) as [Hholds Htwice].
  assert (Hq : 1 ≤ length / maxWidth) by (apply Z.div_le_lower_bound; lia).
  assert (Hqle : length / maxWidth ≤ length) by (apply Z.div_le_upper_bound; nia).
  assert (Hh : 1 < height) by (unfold height; lia).
  destruct (PadLutChannels_valid_rows SanitizeFloat (getValues lutData) maxWidth height)
    as (vals & Hrun & Hsize & Hp); [done..|].
  exists vals. split; [done|]. split; [done|]. split; [done|].
  unfold GpuShader.GetLut1DGPUShaderProgram.
  fold length maxWidth name.
  rewrite decide_False by lia.
  rewrite Z.min_r by lia.
  rewrite (ulong_small (length / maxWidth + 1)) by (unfold in_range; lia).
  fold height.
  rewrite (ulong_small (maxWidth * height)) by (unfold in_range, height in *; lia).
  rewrite (ulong_small (maxWidth * height * 3)) by (unfold in_range, height in *; lia).
  rewrite decide_False by lia.
  rewrite Hrun.
  rewrite bool_decide_eq_true_2 by done.
  rewrite (ulong_small (maxWidth - 1)) by (unfold in_range; lia).
  rewrite (ulong_small (length - 1)) by (unfold in_range; lia).
  done.
Qed.

(** X4: a LUT that is shorter than the maximal texture width is stored
    in a texture of one row that holds its sanitized values and nothing
    else; the texture is declared as one-dimensional and sampled at
    [(rgb * (dim - 1) + 0.5) / dim] for the float [dim] of the length,
    unless the LUT has a half domain; the floats written in the shader
    are [length - 1] and [length] themselves for a LUT of at most [2^24]
    entries. *)
Theorem GetLut1DGPUShaderProgram_single_row
    (shaderDesc : GpuShaderDesc F) (lutData : Lut1DOpData F) :
  1 ≤ getLength lutData → getLength lutData < getTextureMaxWidth shaderDesc →
  size (getValues lutData) = 3 * getLength lutData → 3 * getLength lutData ≤ max_size →
  ∃ shaderDesc',
    GetLut1DGPUShaderProgram shaderDesc lutData = Emitted shaderDesc'
    ∧ textures shaderDesc'
      = textures shaderDesc
        ++ [ {| samplerName := getSamplerName (resource_name shaderDesc);
                cacheID := getCacheID lutData;
                width := getLength lutData;
                height := 1;
                interpolation := getConcreteInterpolation lutData;
                values := SanitizeFloat <$> getValues lutData |} ]
    ∧ declareShaderCode shaderDesc'
      = declareShaderCode shaderDesc
        ++ [ if isInputHalfDomain lutData
             then declareTex2D (resource_name shaderDesc)
             else declareTex1D (resource_name shaderDesc) ]
    ∧ helperShaderCode shaderDesc'
      = helperShaderCode shaderDesc
        ++ (if isInputHalfDomain lutData
            then [computePosHalf (resource_name shaderDesc)
                    (float_of_ulong (getLength lutData - 1))
                    (float_of_ulong (getLength lutData)) 1]
            else [])
    ∧ lookup <$> last (functionShaderCode shaderDesc')
      = Some (if isInputHalfDomain lutData
              then sampleTex2D (resource_name shaderDesc)
              else sampleTex1D (resource_name shaderDesc)
                     (dim_minus_one (getLength lutData))
                     (float_of_ulong (getLength lutData)))
    ∧ (getLength lutData ≤ 2 ^ 24 →
       float_of_ulong (getLength lutData - 1) = getLength lutData - 1
       ∧ float_of_ulong (getLength lutData) = getLength lutData
       ∧ dim_minus_one (getLength lutData) = getLength lutData - 1).
Proof.
  intros Hl Hw Hsz Hmax.
  pose proof modulus_eq as Hmodulus. pose proof max_size_eq as Hmaxeq.
  unfold GpuShader.GetLut1DGPUShaderProgram.
  rewrite decide_False by lia. rewrite Z.min_l by lia.
  rewrite (Z.div_small (getLength lutData)) by lia.
  change (ulong (0 + 1)) with 1.
  rewrite (ulong_small (getLength lutData * 1)) by (unfold in_range; lia).
  rewrite (ulong_small (getLength lutData * 1 * 3)) by (unfold in_range; lia).
  rewrite decide_False by lia.
  rewrite PadLutChannels_single_row; [|lia|].
  - replace (getLength lutData * 1 - size (getValues lutData) / 3) with 0 by lia.
    simpl. rewrite app_nil_r.
    eexists. split; [reflexivity|].
    rewrite (ulong_small (getLength lutData - 1)) by (unfold in_range; lia).
    fold (resource_name shaderDesc).
    change (float_of_ulong 1) with 1.
    assert (Hexact : getLength lutData ≤ 2 ^ 24 →
              float_of_ulong (getLength lutData - 1) = getLength lutData - 1
              ∧ float_of_ulong (getLength lutData) = getLength lutData
              ∧ dim_minus_one (getLength lutData) = getLength lutData - 1).
    { intros Hsmall. split; [|split].
      - apply float_of_ulong_exact. lia.
      - apply float_of_ulong_exact. lia.
      - apply dim_minus_one_exact. lia. }
    destruct (isInputHalfDomain lutData); simpl.
    + split; [done|]. split; [done|]. split; [done|]. split; [by rewrite last_snoc|done].
    + split; [done|]. split; [done|]. split; [by rewrite app_nil_r|].
      split; [by rewrite last_snoc|done].
  - unfold valid_call, texels_written, in_range. rewrite decide_False by lia.
    repeat split; lia.
Qed.

(** In the texture of a LUT that fits, the entry [d] is the texel of row
    [d / (maxWidth - 1)] and column [d mod (maxWidth - 1)]. *)
Lemma packed_entry (channel vals : list F) (length maxWidth d : Z) :
  2 ≤ maxWidth → maxWidth ≤ length → size channel = 3 * length →
  length / maxWidth + length `mod` maxWidth < maxWidth →
  size vals = 3 * (maxWidth * (length / maxWidth + 1)) →
  packed SanitizeFloat channel maxWidth vals →
  0 ≤ d < length →
  ∃ t, triple_at channel d = Some t
       ∧ texel vals maxWidth (d / (maxWidth - 1)) (d `mod` (maxWidth - 1))
         = Some (sanitize_triple SanitizeFloat t).
Proof.
  intros Hw Hl Hsz Hfit Hsize Hp Hd.
  destruct (triple_at_is_Some SanitizeFloat channel d) as [t Ht]; [lia..|].
  exists t. split; [done|].
  assert (Hq : 0 ≤ d / (maxWidth - 1)) by (apply Z.div_pos; lia).
  assert (Hm : 0 ≤ d `mod` (maxWidth - 1) < maxWidth - 1) by (apply Z.mod_pos_bound; lia).
  assert (Hd_eq : d = (maxWidth - 1) * (d / (maxWidth - 1)) + d `mod` (maxWidth - 1))
    by (apply Z.div_mod; lia).
  assert (Hrow : d / (maxWidth - 1) ≤ length / maxWidth).
  { rewrite <- (rows_of_length length maxWidth) by done. apply Z.div_le_mono; lia. }
  rewrite (packed_texel SanitizeFloat channel maxWidth vals);
    [| done | lia | lia | lia | lia |].
  - unfold source_triple. rewrite Z.min_r by lia.
    replace (d / (maxWidth - 1) * (maxWidth - 1) + d `mod` (maxWidth - 1)) with d by lia.
    by rewrite Ht.
  - rewrite Hsize.
    revert Hq Hm Hrow. generalize (d / (maxWidth - 1)) (d `mod` (maxWidth - 1))
                                  (length / maxWidth). nia.
Qed.

(** X5: a LUT of at least [maxWidth] entries, with
    [length / maxWidth + length mod maxWidth < maxWidth], is stored in a
    texture of [maxWidth] columns and [length / maxWidth + 1] rows, if a
    vector can hold that texture: the values registered with [addTexture]
    hold that many texels; the LUT entry [d] is the texel of row
    [d / (maxWidth - 1)] and column [d mod (maxWidth - 1)]; the texture is
    declared as two-dimensional, and the helper is written with the floats
    of [length - 1], [maxWidth - 1], [maxWidth] and the number of rows,
    which are these numbers themselves for a LUT of at most [2^24]
    entries. *)
Theorem GetLut1DGPUShaderProgram_several_rows
    (shaderDesc : GpuShaderDesc F) (lutData : Lut1DOpData F) :
  let length := getLength lutData in
  let maxWidth := getTextureMaxWidth shaderDesc in
  let height := length / maxWidth + 1 in
  let name := resource_name shaderDesc in
  2 ≤ maxWidth → maxWidth ≤ length →
  size (getValues lutData) = 3 * length → 3 * (maxWidth * height) ≤ max_size →
  length / maxWidth + length `mod` maxWidth < maxWidth →
  ∃ shaderDesc' vals,
    GetLut1DGPUShaderProgram shaderDesc lutData = Emitted shaderDesc'
    ∧ textures shaderDesc'
      = textures shaderDesc
        ++ [ {| samplerName := getSamplerName name;
                cacheID := getCacheID lutData;
                width := maxWidth;
                height := height;
                interpolation := getConcreteInterpolation lutData;
                values := vals |} ]
    ∧ size vals = 3 * maxWidth * height
    ∧ (∀ d, 0 ≤ d < length →
         ∃ t, triple_at (getValues lutData) d = Some t
              ∧ texel vals maxWidth (d / (maxWidth - 1)) (d `mod` (maxWidth - 1))
                = Some (sanitize_triple SanitizeFloat t))
    ∧ declareShaderCode shaderDesc' = declareShaderCode shaderDesc ++ [declareTex2D name]
    ∧ helperShaderCode shaderDesc'
      = helperShaderCode shaderDesc
        ++ [ if isInputHalfDomain lutData
             then computePosHalf name (float_of_ulong (maxWidth - 1))
                    (float_of_ulong maxWidth) (float_of_ulong height)
             else computePosFloat name (float_of_ulong (length - 1))
                    (float_of_ulong (maxWidth - 1))
                    (float_of_ulong maxWidth) (float_of_ulong height) ]
    ∧ lookup <$> last (functionShaderCode shaderDesc') = Some (sampleTex2D name)
    ∧ (length ≤ 2 ^ 24 →
       float_of_ulong (length - 1) = length - 1
       ∧ float_of_ulong (maxWidth - 1) = maxWidth - 1
       ∧ float_of_ulong maxWidth = maxWidth
       ∧ float_of_ulong height = height).
Proof.
  intros length maxWidth height name Hw Hl Hsz Hmax Hfit.
  destruct (GetLut1DGPUShaderProgram_rows shaderDesc lutData Hw Hl Hsz Hmax Hfit)
    as (vals & Hrun & Hsize & Hp & Hemit).
  fold length maxWidth height name in Hrun, Hsize, Hp, Hemit.
  eexists _, vals. split; [exact Hemit|]. simpl.
  split; [done|]. split; [lia|]. split; [|split; [done|split; [done|split]]].
  - intros d Hd. by apply (packed_entry _ vals length maxWidth d).
  - by rewrite last_snoc.
  - intros Hsmall.
    assert (Hq : 1 ≤ length / maxWidth) by (apply Z.div_le_lower_bound; lia).
    assert (Hqle : length / maxWidth < length) by (apply Z.div_lt_upper_bound; nia).
    repeat split; apply float_of_ulong_exact; unfold height; lia.
Qed.

(** X6: a LUT of at least [maxWidth] entries with
    [length / maxWidth + length mod maxWidth >= maxWidth], such as one of
    [2 * maxWidth - 1] entries, does not fit in the texture of
    [maxWidth] columns and [length / maxWidth + 1] rows that the function
    asks for: the packer has written more than [width * height] texels
    when the padding starts, and the number [missingEntries] of texels to
    pad wraps around. *)
Theorem GetLut1DGPUShaderProgram_texture_too_small
    (fuel : nat) (shaderDesc : GpuShaderDesc F) (lutData : Lut1DOpData F) :
  let length := getLength lutData in
  let maxWidth := getTextureMaxWidth shaderDesc in
  let width := Z.min length maxWidth in
  let height := ulong (length / maxWidth + 1) in
  2 ≤ maxWidth → maxWidth ≤ length →
  size (getValues lutData) = 3 * length → 3 * length ≤ max_size →
  length ≤ Z.of_nat fuel →
  maxWidth ≤ length / maxWidth + length `mod` maxWidth →
  ∃ chn,
    texels_before_padding SanitizeFloat fuel width height (getValues lutData)
    = Returned chn
    ∧ width * height < size chn / 3
    ∧ missingEntries width height chn = modulus - (size chn / 3 - width * height).
Proof.
  intros length maxWidth width height Hw Hl Hsz Hmax Hfuel Hfit.
  pose proof modulus_eq as Hmodulus. pose proof max_size_eq as Hmaxeq.
  assert (Hq : 1 ≤ length / maxWidth) by (apply Z.div_le_lower_bound; lia).
  assert (Hqle : length / maxWidth ≤ length) by (apply Z.div_le_upper_bound; nia).
  assert (Hwidth : width = maxWidth) by (unfold width; lia).
  assert (Hheight : height = length / maxWidth + 1).
  { unfold height. apply ulong_small. unfold in_range. lia. }
  rewrite Hwidth, Hheight.
  destruct (texels_before_padding_rows SanitizeFloat fuel (getValues lutData) maxWidth
              (length / maxWidth + 1))
    as (chn & Hrun & Hsize & _); [lia..|].
  exists chn. split; [done|].
  assert (Hwritten : size chn / 3 = length + (length - 1) / (maxWidth - 1)).
  { rewrite Hsize. unfold written, whole_rows. rewrite Hsz.
    replace (3 * length / 3) with length by lia. lia. }
  pose proof (rows_of_length_too_many length maxWidth Hw Hl Hfit) as Hrows.
  assert (Hupper : (length - 1) / (maxWidth - 1) ≤ length).
  { apply Z.div_le_upper_bound; nia. }
  pose proof (Z.div_mod length maxWidth ltac:(lia)) as Heq.
  pose proof (Z.mod_pos_bound length maxWidth ltac:(lia)) as Hr.
  assert (Hover : maxWidth * (length / maxWidth + 1) < size chn / 3).
  { rewrite Hwritten. revert Hq Hr Hfit Heq Hrows.
    generalize (length / maxWidth) (length `mod` maxWidth) ((length - 1) / (maxWidth - 1)).
    nia. }
  split; [done|].
  unfold missingEntries.
  assert (Hprod : 0 ≤ maxWidth * (length / maxWidth + 1) ≤ 2 * length).
  { revert Hq Hr Heq. generalize (length / maxWidth) (length `mod` maxWidth). nia. }
  rewrite (ulong_small (maxWidth * (length / maxWidth + 1))) by (unfold in_range; lia).
  assert (Hchn : size chn = 3 * (size chn / 3)).
  { rewrite Hsize. lia. }
  rewrite (ulong_small (size chn)) by (unfold in_range; lia).
  rewrite ulong_neg by lia. lia.
Qed.

(** X29: for such a LUT, whose texture is too small, the call does not
    return: the padding loop runs for the wrapped number of entries until
    the vector of the values cannot grow any more, and the exception
    leaves [GetLut1DGPUShaderProgram] before any texture is registered. *)
Theorem GetLut1DGPUShaderProgram_texture_too_small_throws
    (shaderDesc : GpuShaderDesc F) (lutData : Lut1DOpData F) :
  let length := getLength lutData in
  let maxWidth := getTextureMaxWidth shaderDesc in
  2 ≤ maxWidth → maxWidth ≤ length →
  size (getValues lutData) = 3 * length → 3 * length ≤ max_size →
  maxWidth ≤ length / maxWidth + length `mod` maxWidth →
  PadLutChannels SanitizeFloat (Z.min length maxWidth) (ulong (length / maxWidth + 1))
    (getValues lutData) = LengthError
  ∧ GetLut1DGPUShaderProgram shaderDesc lutData = VectorLengthError.
Proof.
  intros length maxWidth Hw Hl Hsz Hmax Hfit.
  pose proof modulus_eq as Hmodulus. pose proof max_size_eq as Hmaxeq.
  pose proof (texture_holds_length length maxWidth Hw Hl) as [Hholds Htwice].
  assert (Hq : 1 ≤ length / maxWidth) by (apply Z.div_le_lower_bound; lia).
  pose proof (rows_of_length_too_many length maxWidth Hw Hl Hfit) as Hrows.
  assert (Hupper : (length - 1) / (maxWidth - 1) ≤ length).
  { apply Z.div_le_upper_bound; nia. }
  assert (Hcw : size (getValues lutData) / 3 = length) by lia.
  assert (Hthrows : PadLutChannels SanitizeFloat maxWidth (length / maxWidth + 1)
                      (getValues lutData) = LengthError).
  { apply PadLutChannels_rows_too_long; [lia..|].
    unfold missing, written, whole_rows. rewrite Hcw.
    rewrite (ulong_small (maxWidth * (length / maxWidth + 1))) by (unfold in_range; lia).
    assert (Hover : maxWidth * (length / maxWidth + 1) < length + (length - 1) / (maxWidth - 1)).
    { pose proof (Z.div_mod length maxWidth ltac:(lia)) as Heq.
      pose proof (Z.mod_pos_bound length maxWidth ltac:(lia)) as Hr.
      revert Hq Hr Hfit Heq Hrows.
      generalize (length / maxWidth) (length `mod` maxWidth) ((length - 1) / (maxWidth - 1)).
      nia. }
    rewrite ulong_neg by lia. lia. }
  rewrite Z.min_r by lia.
  rewrite (ulong_small (length / maxWidth + 1)) by (unfold in_range; lia).
  split; [exact Hthrows|].
  unfold GpuShader.GetLut1DGPUShaderProgram. fold length maxWidth.
  rewrite decide_False by lia.
  rewrite Z.min_r by lia.
  rewrite (ulong_small (length / maxWidth + 1)) by (unfold in_range; lia).
  destruct (decide _); [done|]. by rewrite Hthrows.
Qed.

End ProgramTextures.

Section ProgramNames.

Import GpuShader.

Context {F : Type} (SanitizeFloat : F → F) (getSamplerName : string → string).

Local Abbreviation GetLut1DGPUShaderProgram :=
  (GetLut1DGPUShaderProgram SanitizeFloat getSamplerName).

(** A call that returns has added one texture, one declaration, at most
    one helper and one block to the sink, and has left the rest of the
    sink as it was. *)
Lemma GetLut1DGPUShaderProgram_appends
    (shaderDesc shaderDesc' : GpuShaderDesc F) (lutData : Lut1DOpData F) :
  GetLut1DGPUShaderProgram shaderDesc lutData = Emitted shaderDesc' →
  getTextureMaxWidth shaderDesc' = getTextureMaxWidth shaderDesc
  ∧ getResourcePrefix shaderDesc' = getResourcePrefix shaderDesc
  ∧ (∃ t, textures shaderDesc' = textures shaderDesc ++ [t]
          ∧ samplerName t = getSamplerName (resource_name shaderDesc))
  ∧ (declareShaderCode shaderDesc'
     = declareShaderCode shaderDesc ++ [declareTex1D (resource_name shaderDesc)]
     ∨ declareShaderCode shaderDesc'
       = declareShaderCode shaderDesc ++ [declareTex2D (resource_name shaderDesc)])
  ∧ (helperShaderCode shaderDesc' = helperShaderCode shaderDesc
     ∨ ∃ h, helperShaderCode shaderDesc' = helperShaderCode shaderDesc ++ [h])
  ∧ (∃ block, functionShaderCode shaderDesc' = functionShaderCode shaderDesc ++ [block]
              ∧ processing_for block = resource_name shaderDesc).
Proof.
  unfold GpuShader.GetLut1DGPUShaderProgram.
  destruct (decide (getTextureMaxWidth shaderDesc = 0)); [done|].
  destruct (decide (max_size < _)); [done|].
  destruct (PadLutChannels _ _ _ _) as [vals| | |]; [|done..].
  fold (resource_name shaderDesc).
  intros [= <-].
  destruct (bool_decide _ || isInputHalfDomain lutData); simpl.
  - split; [done|]. split; [done|]. split; [by eexists|]. split; [by right|].
    split; [right; by eexists|]. by eexists.
  - split; [done|]. split; [done|]. split; [by eexists|]. split; [by left|].
    split; [by left|]. by eexists.
Qed.

(** X7: two LUTs that are added one after the other to the same sink get
    different resource names, since the name ends with the number of the
    textures that the sink holds and every call adds one texture; the
    blocks of both are in the function code, in the order of the
    calls. *)
Theorem GetLut1DGPUShaderProgram_resource_names
    (shaderDesc shaderDesc' shaderDesc'' : GpuShaderDesc F)
    (lutData lutData' : Lut1DOpData F) :
  GetLut1DGPUShaderProgram shaderDesc lutData = Emitted shaderDesc' →
  GetLut1DGPUShaderProgram shaderDesc' lutData' = Emitted shaderDesc'' →
  getNumTextures shaderDesc'' = S (S (getNumTextures shaderDesc))
  ∧ resource_name shaderDesc' ≠ resource_name shaderDesc
  ∧ ∃ block block',
      functionShaderCode shaderDesc''
      = functionShaderCode shaderDesc ++ [block; block']
      ∧ processing_for block = resource_name shaderDesc
      ∧ processing_for block' = resource_name shaderDesc'.
Proof.
  intros Hfirst Hsecond.
  apply GetLut1DGPUShaderProgram_appends in Hfirst
    as (_ & Hprefix & (t & Htex & _) & _ & _ & (block & Hcode & Hname)).
  apply GetLut1DGPUShaderProgram_appends in Hsecond
    as (_ & _ & (t' & Htex' & _) & _ & _ & (block' & Hcode' & Hname')).
  assert (Hcount : getNumTextures shaderDesc' = S (getNumTextures shaderDesc)).
  { unfold getNumTextures. rewrite Htex, length_app. simpl. lia. }
  split; [|split].
  - unfold getNumTextures in *. rewrite Htex', length_app, Hcount. simpl. lia.
  - unfold resource_name. rewrite Hprefix, Hcount. intros Heq.
    apply String.app_inj, String.app_inj in Heq.
    apply (inj pretty) in Heq. lia.
  - exists block, block'. split; [|done].
    rewrite Hcode', Hcode, <- app_assoc. done.
Qed.

End ProgramNames.

(** ** Further properties of the addressing code *)

Section ShaderPositions.

Import Shader.

Local Open Scope Q_scope.

Lemma inject_Z_pos (n : Z) : (0 < n)%Z → 0 < inject_Z n.
Proof. intros Hn. change 0 with (inject_Z 0). by rewrite <- Zlt_Qlt. Qed.

(** On a [dep] that is not negative, with a row below [2^31], the
    conversion [float(int(.))] of the float path is the [floor] of the
    half path; and it is so whenever the conversion is defined. *)
Lemma float_row_column_floor (dep : Q) (width : Z) :
  0 <= dep → (2 ≤ width)%Z → dep / inject_Z (width - 1) < inject_Z (2 ^ 31) →
  float_row_column (inject_Z (width - 1)) dep
  = Some (half_row_column (inject_Z (width - 1)) dep).
Proof.
  intros Hdep Hw Hint. unfold half_row_column, float_row_column.
  rewrite float_int_floor; [done| |done].
  apply Qle_shift_div_l; [apply inject_Z_pos; lia|]. by rewrite Qmult_0_l.
Qed.

Lemma float_row_column_defined (dep : Q) (width : Z) (retVal : vec2) :
  0 <= dep → (2 ≤ width)%Z →
  float_row_column (inject_Z (width - 1)) dep = Some retVal →
  retVal = half_row_column (inject_Z (width - 1)) dep.
Proof.
  intros Hdep Hw. unfold half_row_column, float_row_column, float_int, int, floor.
  rewrite Qtruncate_floor.
  - destruct (decide _); [|done]. simpl. by intros [= <-].
  - apply Qle_shift_div_l; [apply inject_Z_pos; lia|]. by rewrite Qmult_0_l.
Qed.

(** X8: for a [dep] that is not negative, both paths compute a row that
    is a natural number and a column in [0, width - 1), with
    [row * (width - 1) + column = dep]: the sampled position and its
    right neighbour are in the same row of the texture.  The float path
    does so for a row below [2^31], where its conversion to [int] is
    defined. *)
Theorem row_column_within_row (dep : Q) (width : Z) :
  0 <= dep → (2 ≤ width)%Z →
  (dep / inject_Z (width - 1) < inject_Z (2 ^ 31) →
   ∃ retVal, float_row_column (inject_Z (width - 1)) dep = Some retVal)
  ∧ ∀ retVal : vec2,
      retVal = half_row_column (inject_Z (width - 1)) dep
      ∨ float_row_column (inject_Z (width - 1)) dep = Some retVal →
      ∃ row : Z,
        (0 ≤ row)%Z ∧ y retVal = inject_Z row
        ∧ 0 <= x retVal ∧ x retVal < inject_Z (width - 1)
        ∧ linear_index (inject_Z (width - 1)) retVal == dep.
Proof.
  intros Hdep Hw. split.
  { intros Hint. eexists. by apply float_row_column_floor. }
  intros retVal Hret.
  assert (retVal = half_row_column (inject_Z (width - 1)) dep) as ->.
  { destruct Hret as [->|Hret]; [done | by apply float_row_column_defined]. }
  pose proof (inject_Z_pos (width - 1) ltac:(lia)) as Hpos.
  assert (Hnz : ¬ inject_Z (width - 1) == 0).
  { intros Hz. rewrite Hz in Hpos. by apply (Qlt_irrefl 0). }
  set (w1 := inject_Z (width - 1)) in *.
  assert (Hq : 0 <= dep / w1).
  { apply Qle_shift_div_l; [done|]. by rewrite Qmult_0_l. }
  exists (Qfloor (dep / w1)). unfold half_row_column, floor, linear_index. cbn [x y].
  assert (Hlow : inject_Z (Qfloor (dep / w1)) * w1 <= dep).
  { assert (Hdiv : dep == dep / w1 * w1) by (field; done).
    rewrite Hdiv at 2. apply Qmult_le_compat_r; [apply Qfloor_le | by apply Qlt_le_weak]. }
  assert (Hhigh : dep < (inject_Z (Qfloor (dep / w1)) + 1) * w1).
  { assert (Hdiv : dep == dep / w1 * w1) by (field; done).
    rewrite Hdiv at 1. apply Qmult_lt_compat_r; [done|].
    change 1 with (inject_Z 1). rewrite <- inject_Z_plus. apply Qlt_floor. }
  split; [|split; [done|split; [|split]]].
  - change 0%Z with (Qfloor 0). by apply Qfloor_resp_le.
  - apply (Qplus_le_l _ _ (inject_Z (Qfloor (dep / w1)) * w1)). ring_simplify.
    exact Hlow.
  - apply (Qplus_lt_l _ _ (inject_Z (Qfloor (dep / w1)) * w1)). ring_simplify.
    ring_simplify in Hhigh. exact Hhigh.
  - ring.
Qed.

(** X9: a finite input beyond the largest finite half, and an infinite
    one, address the entry of the largest finite half of their sign: the
    raw half is 31743 for a positive input and 64511 for a negative
    one. *)
Theorem half_dep_clamps :
  (∀ q, HALF_MAX <= q → ∃ dep, half_dep (Fin q) = Some dep ∧ dep == 31743)
  ∧ (∀ q, q <= - HALF_MAX → ∃ dep, half_dep (Fin q) = Some dep ∧ dep == 64511)
  ∧ (∃ dep, half_dep (Inf false) = Some dep ∧ dep == 31743)
  ∧ (∃ dep, half_dep (Inf true) = Some dep ∧ dep == 64511).
Proof.
  assert (Hmax : HALF_MAX == inject_Z (1024 + 1023) * pow2 (30 - 25)) by reflexivity.
  assert (Hclamp : ∀ q, HALF_MAX <= Qabs q →
            ∃ dep, half_dep (Fin q) = Some (dep + sign_offset (Fin q))
                   ∧ dep == inject_Z (1024 * 30 + 1023)).
  { intros q Hq. unfold half_dep, abs, greater.
    assert (Hnrm : Qle_bool (Qabs q) HALF_NRM_MIN = false).
    { destruct (Qle_bool (Qabs q) HALF_NRM_MIN) eqn:Hle; [|done].
      apply Qle_bool_iff in Hle. exfalso.
      apply (Qle_not_lt _ _ (Qle_trans _ _ _ Hq Hle)). reflexivity. }
    rewrite Hnrm. cbn [negb]. unfold min, greater.
    destruct (Qle_bool (Qabs q) HALF_MAX) eqn:Hle; cbn [negb finite mbind option_bind].
    - apply Qle_bool_iff in Hle. eexists. split; [reflexivity|].
      apply normalized_dep_exact; [lia..|].
      rewrite <- Hmax. by apply Qle_antisym.
    - eexists. split; [reflexivity|]. by apply normalized_dep_exact. }
  split; [|split; [|split]].
  - intros q Hq.
    assert (Hpos : 0 < q) by (eapply Qlt_le_trans; [|exact Hq]; reflexivity).
    destruct (Hclamp q) as (dep & Hrun & Hdep).
    { rewrite Qabs_pos; [done | by apply Qlt_le_weak]. }
    eexists. split; [exact Hrun|].
    rewrite Hdep, sign_offset_positive by done. reflexivity.
  - intros q Hq.
    assert (Hneg : q <= 0) by (eapply Qle_trans; [exact Hq|]; discriminate).
    destruct (Hclamp q) as (dep & Hrun & Hdep).
    { rewrite Qabs_neg by done. apply Qopp_le_compat in Hq.
      by rewrite Qopp_involutive in Hq. }
    eexists. split; [exact Hrun|].
    rewrite Hdep, sign_offset_negative by done. reflexivity.
  - eexists. split; [reflexivity|]. vm_compute. reflexivity.
  - eexists. split; [reflexivity|]. vm_compute. reflexivity.
Qed.

End ShaderPositions.

Section ProgramLookups.

Import GpuShader Shader.

Context {F : Type} (SanitizeFloat : F → F) (getSamplerName : string → string).

Local Abbreviation GetLut1DGPUShaderProgram :=
  (GetLut1DGPUShaderProgram SanitizeFloat getSamplerName).

(** The centre of the texel of an entry, for a [dep] that is its index. *)
Lemma texel_centre_entry (width height j : Z) (dep : Q) :
  (2 ≤ width)%Z → (0 ≤ j)%Z → (dep == inject_Z j)%Q →
  let pos := texel_centre (inject_Z width) (inject_Z height)
               (half_row_column (inject_Z (width - 1)) dep) in
  (x pos == (inject_Z (j `mod` (width - 1)) + (1 # 2)) / inject_Z width)%Q
  ∧ (y pos == (inject_Z (j / (width - 1)) + (1 # 2)) / inject_Z height)%Q.
Proof.
  intros Hw Hj Hdep pos. unfold pos, texel_centre. cbn [x y].
  destruct (half_row_column_integral j width dep Hw Hdep) as [Hy Hx].
  rewrite Hy, Hx. split; reflexivity.
Qed.

(** The floats written in the helper of a LUT of at most [2^24] entries
    that fits in its rows are the numbers themselves. *)
Lemma helper_constants_exact (length maxWidth : Z) :
  (2 ≤ maxWidth → maxWidth ≤ length → length ≤ 2 ^ 24 →
   float_of_ulong (length - 1) = length - 1
   ∧ float_of_ulong (maxWidth - 1) = maxWidth - 1
   ∧ float_of_ulong maxWidth = maxWidth
   ∧ float_of_ulong (length / maxWidth + 1) = length / maxWidth + 1
   ∧ 3 * (maxWidth * (length / maxWidth + 1)) ≤ max_size)%Z.
Proof.
  intros Hw Hl Hsmall. pose proof max_size_eq as Hmaxeq.
  assert (Hq : (1 ≤ length / maxWidth)%Z) by (apply Z.div_le_lower_bound; lia).
  assert (Hqle : (length / maxWidth < length)%Z) by (apply Z.div_lt_upper_bound; nia).
  pose proof (texture_holds_length length maxWidth Hw Hl) as [_ Htwice].
  repeat split; try (apply float_of_ulong_exact; lia). lia.
Qed.

(** X10: for a LUT of at most [2^24] entries in several rows that does
    not have a half domain, the position that the helper [computePos]
    returns for the input [f = j / (length - 1)] is the centre of the
    texel that holds the LUT entry [j]; an input above 1 is sent to the
    last entry. *)
Theorem GetLut1DGPUShaderProgram_float_lookup
    (shaderDesc : GpuShaderDesc F) (lutData : Lut1DOpData F) :
  let length := getLength lutData in
  let maxWidth := getTextureMaxWidth shaderDesc in
  isInputHalfDomain lutData = false →
  2 ≤ maxWidth → maxWidth ≤ length →
  size (getValues lutData) = 3 * length → length ≤ 2 ^ 24 →
  length / maxWidth + length `mod` maxWidth < maxWidth →
  ∃ shaderDesc' t h,
    GetLut1DGPUShaderProgram shaderDesc lutData = Emitted shaderDesc'
    ∧ last (textures shaderDesc') = Some t
    ∧ last (helperShaderCode shaderDesc') = Some h
    ∧ ∀ (j : Z) (f : Q),
        0 ≤ j < length →
        (f == inject_Z j / inject_Z (length - 1))%Q ∨ (j = length - 1 ∧ (1 <= f)%Q) →
        ∃ pos entry,
          run_helper h (Fin f) = Some pos
          ∧ (x pos == (inject_Z (j `mod` (width t - 1)) + (1 # 2)) / inject_Z (width t))%Q
          ∧ (y pos == (inject_Z (j / (width t - 1)) + (1 # 2)) / inject_Z (height t))%Q
          ∧ triple_at (getValues lutData) j = Some entry
          ∧ texel (values t) (width t) (j / (width t - 1)) (j `mod` (width t - 1))
            = Some (sanitize_triple SanitizeFloat entry).
Proof.
  intros length maxWidth Hhalf Hw Hl Hsz Hsmall Hfit.
  destruct (helper_constants_exact length maxWidth Hw Hl Hsmall)
    as (HlengthM1 & HwidthM1 & Hwidth & Hheight & Hmax).
  destruct (GetLut1DGPUShaderProgram_rows SanitizeFloat getSamplerName shaderDesc lutData
              Hw Hl Hsz Hmax Hfit) as (vals & Hrun & Hsize & Hp & Hemit).
  fold length maxWidth in Hrun, Hsize, Hp, Hemit.
  rewrite Hhalf, HlengthM1, HwidthM1, Hwidth, Hheight in Hemit.
  eexists _, _, _. split; [exact Hemit|]. simpl.
  split; [by rewrite last_snoc|]. split; [by rewrite last_snoc|].
  intros j f Hj Hf.
  destruct (packed_entry SanitizeFloat (getValues lutData) vals length maxWidth j)
    as (entry & Hentry & Htexel); [done..|].
  assert (Hlen : (0 < inject_Z (length - 1))%Q) by (apply inject_Z_pos; lia).
  assert (Hdep : (Qmin f 1 * inject_Z (length - 1) == inject_Z j)%Q).
  { destruct Hf as [Hf|[-> Hf]].
    - assert (Hle : (f <= 1)%Q).
      { rewrite Hf. apply Qle_shift_div_r; [done|]. rewrite Qmult_1_l.
        rewrite <- Zle_Qle. lia. }
      rewrite (Q.min_l _ _ Hle), Hf. field.
      intros Hz. rewrite Hz in Hlen. by apply (Qlt_irrefl 0).
    - rewrite (Q.min_r _ _ Hf). by rewrite Qmult_1_l. }
  assert (Hrow : float_row_column (inject_Z (maxWidth - 1))
                   (Qmin f 1 * inject_Z (length - 1))
                 = Some (half_row_column (inject_Z (maxWidth - 1))
                           (Qmin f 1 * inject_Z (length - 1)))).
  { apply float_row_column_floor; [|done|].
    - rewrite Hdep. change 0%Q with (inject_Z 0). rewrite <- Zle_Qle. lia.
    - rewrite Hdep. apply Qlt_shift_div_r; [apply inject_Z_pos; lia|].
      rewrite <- inject_Z_mult, <- Zlt_Qlt. nia. }
  eexists _, entry. split.
  { cbn [run_helper finite mbind option_bind]. unfold computePos_float.
    rewrite Hrow. reflexivity. }
  destruct (texel_centre_entry maxWidth (length / maxWidth + 1) j _ Hw ltac:(lia) Hdep)
    as [Hx Hy].
  split; [exact Hx|]. split; [exact Hy|]. done.
Qed.

(** X11: for a LUT with a half domain, of 65536 entries in several rows,
    the position that the helper [computePos] returns for the float whose
    half has the bit pattern [k] is the centre of the texel that holds
    the LUT entry [k], for every finite half other than [+0.0]. *)
Theorem GetLut1DGPUShaderProgram_half_lookup
    (shaderDesc : GpuShaderDesc F) (lutData : Lut1DOpData F) :
  let maxWidth := getTextureMaxWidth shaderDesc in
  isInputHalfDomain lutData = true → getLength lutData = 65536 →
  2 ≤ maxWidth → maxWidth ≤ 65536 →
  size (getValues lutData) = 3 * 65536 →
  65536 / maxWidth + 65536 `mod` maxWidth < maxWidth →
  ∃ shaderDesc' t h,
    GetLut1DGPUShaderProgram shaderDesc lutData = Emitted shaderDesc'
    ∧ last (textures shaderDesc') = Some t
    ∧ last (helperShaderCode shaderDesc') = Some h
    ∧ ∀ k : Z,
        1 ≤ k ≤ 31743 ∨ 32768 ≤ k ≤ 64511 →
        ∃ pos entry,
          run_helper h (half_value k) = Some pos
          ∧ (x pos == (inject_Z (k `mod` (width t - 1)) + (1 # 2)) / inject_Z (width t))%Q
          ∧ (y pos == (inject_Z (k / (width t - 1)) + (1 # 2)) / inject_Z (height t))%Q
          ∧ triple_at (getValues lutData) k = Some entry
          ∧ texel (values t) (width t) (k / (width t - 1)) (k `mod` (width t - 1))
            = Some (sanitize_triple SanitizeFloat entry).
Proof.
  intros maxWidth Hhalf Hlength Hw Hl Hsz Hfit.
  destruct (helper_constants_exact 65536 maxWidth Hw Hl ltac:(lia))
    as (_ & HwidthM1 & Hwidth & Hheight & Hmax).
  destruct (GetLut1DGPUShaderProgram_rows SanitizeFloat getSamplerName shaderDesc lutData)
    as (vals & Hrun & Hsize & Hp & Hemit); [rewrite ?Hlength; fold maxWidth; done..|].
  fold maxWidth in Hrun, Hsize, Hp, Hemit.
  rewrite Hhalf, Hlength in *.
  rewrite HwidthM1, Hwidth, Hheight in Hemit.
  eexists _, _, _. split; [exact Hemit|]. simpl.
  split; [by rewrite last_snoc|]. split; [by rewrite last_snoc|].
  intros k Hk.
  destruct (packed_entry SanitizeFloat (getValues lutData) vals 65536 maxWidth k)
    as (entry & Hentry & Htexel); [done..|lia|].
  destruct (half_dep_recovers k Hk) as (dep & Hdep & Hk_eq).
  eexists _, entry. split.
  { cbn [run_helper]. unfold computePos_half. rewrite Hdep. reflexivity. }
  destruct (texel_centre_entry maxWidth (65536 / maxWidth + 1) k dep Hw ltac:(lia) Hk_eq)
    as [Hx Hy].
  split; [exact Hx|]. split; [exact Hy|]. done.
Qed.

End ProgramLookups.


(** ** Lookups and updates of a color space set *)

Section ColorSpaceSetLoops.

Import ColorSpaceSet.

Context {Attributes : Type} (lower : string → string).

Local Abbreviation ColorSpace := (ColorSpace Attributes).

Implicit Types (m rhs lcss rcss css : Impl (Attributes := Attributes)).
Implicit Types (cs entry tmp old : ColorSpace).

Lemma static_cast_int_small n : 0 ≤ n ≤ INT_MAX → static_cast_int n = n.
Proof.
  unfold static_cast_int, INT_MAX.
  change (2 ^ 31) with 2147483648. change (2 ^ 32) with 4294967296. lia.
Qed.

Lemma Impl_size_small m :
  getNumColorSpaces m ≤ INT_MAX → Impl_size m = getNumColorSpaces m.
Proof. intros Hm. apply static_cast_int_small. unfold getNumColorSpaces in *. lia. Qed.

(** Every loop that looks for a name stops at the first color space of
    that name. *)
Lemma getIndex_from_find str idx m :
  getIndex_from lower str idx m
  = from_option (λ p, idx + Z.of_nat p.1) (-1)
      (list_find (λ cs, lower (getName cs) = str) m).
Proof.
  revert idx. induction m as [|entry rest IH]; intros idx; simpl; [done|].
  destruct (decide (lower (getName entry) = str)); simpl; [lia|].
  rewrite IH. destruct (list_find _ rest) as [[i cs]|]; simpl; lia.
Qed.

Lemma getByName_loop_find str m :
  getByName_loop lower str m = snd <$> list_find (λ cs, lower (getName cs) = str) m.
Proof.
  induction m as [|entry rest IH]; simpl; [done|].
  destruct (decide (lower (getName entry) = str)); simpl; [done|].
  rewrite IH. by destruct (list_find _ rest) as [[i cs]|].
Qed.

Lemma replace_entry_find str cs m :
  replace_entry lower str cs m
  = (λ p, <[p.1 := cs]> m) <$> list_find (λ cs', lower (getName cs') = str) m.
Proof.
  induction m as [|entry rest IH]; simpl; [done|].
  destruct (decide (lower (getName entry) = str)); simpl; [done|].
  rewrite IH. by destruct (list_find _ rest) as [[i cs']|].
Qed.

Lemma erase_entry_find str m :
  erase_entry lower str m
  = from_option (λ p, delete p.1 m) m (list_find (λ cs, lower (getName cs) = str) m).
Proof.
  induction m as [|entry rest IH]; simpl; [done|].
  destruct (decide (lower (getName entry) = str)); simpl; [done|].
  rewrite IH. by destruct (list_find _ rest) as [[i cs]|].
Qed.

Lemma find_name_None str m :
  list_find (λ cs, lower (getName cs) = str) m = None ↔ str ∉ names lower m.
Proof.
  rewrite list_find_None, Forall_forall. unfold names. rewrite list_elem_of_fmap.
  split.
  - intros Hall (cs & -> & Hin). by apply (Hall cs).
  - intros Hnot cs Hin Heq. apply Hnot. by exists cs.
Qed.

End ColorSpaceSetLoops.

Section ColorSpaceSetUpdates.

Import ColorSpaceSet.

Context {Attributes : Type} (lower : string → string).

Local Abbreviation ColorSpace := (ColorSpace Attributes).

Implicit Types (m rhs lcss rcss css : Impl (Attributes := Attributes)).
Implicit Types (cs entry tmp old : ColorSpace).

(** Lookups after [add] has replaced a color space. *)
Lemma replace_entry_getByName str cs m m' :
  lower (getName cs) = str → replace_entry lower str cs m = Some m' →
  getByName_loop lower str m' = Some cs
  ∧ replace_entry lower str cs m' = Some m'.
Proof.
  intros Hcs. revert m'. induction m as [|entry rest IH]; intros m' Hrun; [done|].
  simpl in Hrun. destruct (decide (lower (getName entry) = str)) as [Heq|Hne].
  - injection Hrun as <-. simpl. by rewrite !decide_True.
  - destruct (replace_entry lower str cs rest) as [rest'|]; [|done].
    injection Hrun as <-. simpl. rewrite !decide_False by done.
    destruct (IH rest' eq_refl) as [-> ->]. done.
Qed.

Lemma replace_entry_other str str' cs m m' idx :
  lower (getName cs) = str → str' ≠ str → replace_entry lower str cs m = Some m' →
  getByName_loop lower str' m' = getByName_loop lower str' m
  ∧ getIndex_from lower str' idx m' = getIndex_from lower str' idx m.
Proof.
  intros Hcs Hne. revert m' idx.
  induction m as [|entry rest IH]; intros m' idx Hrun; [done|].
  simpl in Hrun. destruct (decide (lower (getName entry) = str)) as [Heq|Hne'].
  - injection Hrun as <-. simpl.
    destruct (decide (lower (getName cs) = str')); [congruence|].
    destruct (decide (lower (getName entry) = str')); [congruence|]. done.
  - destruct (replace_entry lower str cs rest) as [rest'|]; [|done].
    injection Hrun as <-. simpl.
    destruct (decide (lower (getName entry) = str')); [done|].
    by apply IH.
Qed.

(** Lookups after [add] has appended a color space. *)
Lemma append_getByName str cs m :
  lower (getName cs) = str → str ∉ names lower m →
  getByName_loop lower str (m ++ [cs]) = Some cs
  ∧ replace_entry lower str cs (m ++ [cs]) = Some (m ++ [cs])
  ∧ erase_entry lower str (m ++ [cs]) = m.
Proof.
  intros Hcs. induction m as [|entry rest IH]; simpl.
  - intros _. by rewrite !decide_True.
  - rewrite not_elem_of_cons. intros [Hne Hrest].
    rewrite !decide_False by done.
    destruct (IH Hrest) as (-> & -> & ->). done.
Qed.

Lemma append_other str' cs m idx :
  str' ≠ lower (getName cs) →
  getByName_loop lower str' (m ++ [cs]) = getByName_loop lower str' m
  ∧ getIndex_from lower str' idx (m ++ [cs]) = getIndex_from lower str' idx m.
Proof.
  intros Hne. revert idx. induction m as [|entry rest IH]; intros idx; simpl.
  - destruct (decide (lower (getName cs) = str')); [congruence | done].
  - destruct (decide (lower (getName entry) = str')); [done|]. apply IH.
Qed.

(** Lookups after [remove] has erased a color space. *)
Lemma erase_entry_absent str m :
  distinct_names lower m → str ∉ names lower (erase_entry lower str m).
Proof.
  unfold distinct_names. induction m as [|entry rest IH]; simpl.
  - intros _. apply not_elem_of_nil.
  - rewrite NoDup_cons. intros [Hfresh Hrest].
    destruct (decide (lower (getName entry) = str)) as [<-|Hne]; [done|].
    simpl. apply not_elem_of_cons. split; [done | by apply IH].
Qed.

Lemma erase_entry_other str str' m :
  str' ≠ str →
  getByName_loop lower str' (erase_entry lower str m) = getByName_loop lower str' m.
Proof.
  intros Hne. induction m as [|entry rest IH]; simpl; [done|].
  destruct (decide (lower (getName entry) = str)) as [Heq|Hne'].
  - by rewrite decide_False by congruence.
  - simpl. by destruct (decide (lower (getName entry) = str')).
Qed.

Lemma getIndex_from_absent str idx m :
  getIndex_from lower str idx m = -1 → 0 ≤ idx → str ∉ names lower m.
Proof.
  rewrite getIndex_from_find. intros Hrun Hidx. apply find_name_None.
  destruct (list_find _ m) as [[i cs]|]; [simpl in Hrun; lia | done].
Qed.

End ColorSpaceSetUpdates.

Section ColorSpaceSetOperators.

Import ColorSpaceSet.

Context {Attributes : Type} (lower : string → string).

Local Abbreviation ColorSpace := (ColorSpace Attributes).

Implicit Types (m rhs lcss rcss css : Impl (Attributes := Attributes)).
Implicit Types (cs entry tmp old : ColorSpace).

Lemma filter_ext_elem {A} (P Q : A → Prop) `{∀ x, Decision (P x)} `{∀ x, Decision (Q x)}
    (l : list A) :
  (∀ x, x ∈ l → P x ↔ Q x) → filter P l = filter Q l.
Proof.
  induction l as [|x l IH]; intros Hext; [done|].
  rewrite !filter_cons.
  assert (Hx : P x ↔ Q x) by (apply Hext; left).
  assert (Hl : filter P l = filter Q l) by (apply IH; intros y Hy; apply Hext; by right).
  destruct (decide (P x)), (decide (Q x)); try tauto; by rewrite Hl.
Qed.

Lemma filter_all {A} (P : A → Prop) `{∀ x, Decision (P x)} (l : list A) :
  Forall P l → filter P l = l.
Proof.
  induction 1 as [|x l Hx Hl IH]; [done|].
  rewrite filter_cons, decide_True by done. by rewrite IH.
Qed.

(** The index that a lookup returns depends on the names only. *)
Lemma getIndex_absent_iff m name :
  getIndex lower m name = -1 ↔ name = "" ∨ lower name ∉ names lower m.
Proof.
  unfold getIndex. destruct (decide (name ≠ "")) as [Hname|Hname].
  - rewrite getIndex_from_find, <- find_name_None.
    destruct (list_find _ m) as [[i cs]|]; simpl.
    + split; [lia|]. intros [?|?]; done.
    + split; [by right | done].
  - split; [|done]. intros _. left. by destruct (decide (name = "")).
Qed.

Lemma getIndex_from_names str idx m m' :
  names lower m = names lower m' →
  getIndex_from lower str idx m = getIndex_from lower str idx m'.
Proof.
  revert idx m'. induction m as [|entry rest IH]; intros idx [|entry' rest'] Hnames;
    try done.
  simpl in *. injection Hnames as Hhead Hrest. rewrite Hhead.
  destruct (decide (lower (getName entry') = str)); [done|]. by apply IH.
Qed.

Lemma getIndex_from_app str idx m m' :
  str ∈ names lower m →
  getIndex_from lower str idx (m ++ m') = getIndex_from lower str idx m.
Proof.
  revert idx. induction m as [|entry rest IH]; intros idx; simpl.
  - by intros ?%elem_of_nil.
  - rewrite elem_of_cons. intros [Heq|Hin].
    + by rewrite !decide_True.
    + destruct (decide (lower (getName entry) = str)); [done|]. by apply IH.
Qed.

(** What [add] does to the names and to the lookups. *)
Lemma add_fresh cs m :
  lower (getName cs) ≠ "" → lower (getName cs) ∉ names lower m →
  add lower cs m = Done (m ++ [cs]).
Proof.
  intros Hname Hfresh. unfold add. rewrite decide_False by done.
  by rewrite replace_entry_None.
Qed.

Lemma add_lookup cs m :
  lower (getName cs) ≠ "" →
  ∃ m', add lower cs m = Done m'
        ∧ (∀ n, n ∈ names lower m' ↔ n ∈ names lower m ∨ n = lower (getName cs))
        ∧ getByName_loop lower (lower (getName cs)) m' = Some cs
        ∧ (∀ str, str ≠ lower (getName cs) →
             getByName_loop lower str m' = getByName_loop lower str m)
        ∧ (∀ str idx, str ∈ names lower m →
             getIndex_from lower str idx m' = getIndex_from lower str idx m).
Proof.
  intros Hname. unfold add. rewrite decide_False by done.
  destruct (replace_entry lower (lower (getName cs)) cs m) as [m'|] eqn:Hrun.
  - exists m'. split; [done|].
    pose proof (replace_entry_names lower _ cs m m' eq_refl Hrun) as Hnames.
    destruct (replace_entry_getByName lower _ cs m m' eq_refl Hrun) as [Hfound _].
    split; [|split; [done|split]].
    + intros n. rewrite Hnames. split; [by left|]. intros [Hin| ->]; [done|].
      destruct (decide (lower (getName cs) ∈ names lower m)) as [|Habsent]; [done|].
      by rewrite (replace_entry_None lower _ cs m Habsent) in Hrun.
    + intros str Hother.
      by apply (replace_entry_other lower (lower (getName cs)) str cs m m' 0).
    + intros str idx _. by apply getIndex_from_names.
  - exists (m ++ [cs]). split; [done|].
    apply replace_entry_Some_inv in Hrun.
    destruct (append_getByName lower _ cs m eq_refl Hrun) as (Hfound & _ & _).
    split; [|split; [done|split]].
    + intros n. unfold names. rewrite fmap_app, elem_of_app. simpl.
      by rewrite list_elem_of_singleton.
    + intros str Hother. by apply (append_other lower str cs m 0).
    + intros str idx Hin. by apply getIndex_from_app.
Qed.

(** The members of a set after an operation come from the set or from the
    argument of the operation. *)
Lemma replace_entry_elem_of str cs m m' x :
  replace_entry lower str cs m = Some m' → x ∈ m' → x ∈ m ∨ x = cs.
Proof.
  revert m'. induction m as [|entry rest IH]; intros m' Hrun Hin; [done|].
  simpl in Hrun. destruct (decide (lower (getName entry) = str)).
  - injection Hrun as <-. apply elem_of_cons in Hin as [->|Hin]; [by right|].
    left. by right.
  - destruct (replace_entry lower str cs rest) as [rest'|]; [|done].
    injection Hrun as <-. apply elem_of_cons in Hin as [->|Hin]; [left; by left|].
    destruct (IH rest' eq_refl Hin) as [?|?]; [left; by right | by right].
Qed.

Lemma erase_entry_elem_of str m x : x ∈ erase_entry lower str m → x ∈ m.
Proof.
  induction m as [|entry rest IH]; simpl; [done|].
  destruct (decide (lower (getName entry) = str)).
  - intros Hin. by right.
  - rewrite !elem_of_cons. intros [->|Hin]; [by left | right; by apply IH].
Qed.

Lemma add_named cs m : named lower m → named lower (state_of (add lower cs m)).
Proof.
  intros Hnamed. unfold add.
  destruct (decide (lower (getName cs) = "")) as [|Hname]; [done|].
  destruct (replace_entry lower (lower (getName cs)) cs m) as [m'|] eqn:Hrun; simpl.
  - intros x Hin.
    destruct (replace_entry_elem_of _ cs m m' x Hrun Hin) as [Hold| ->]; [by apply Hnamed | done].
  - intros x Hin. apply elem_of_app in Hin as [Hold|Hnew]; [by apply Hnamed|].
    by apply list_elem_of_singleton in Hnew as ->.
Qed.

Lemma add_all_named rhs m : named lower m → named lower (state_of (add_all lower rhs m)).
Proof.
  revert m. induction rhs as [|cs rest IH]; intros m Hnamed; [done|].
  simpl. pose proof (add_named cs m Hnamed) as Hadd.
  destruct (add lower cs m) as [m'|what m']; simpl in *; [by apply IH | done].
Qed.

Lemma remove_named name m : named lower m → named lower (remove lower name m).
Proof.
  intros Hnamed. unfold remove. destruct (decide (lower name = "")); [done|].
  intros x Hin. by apply Hnamed, (erase_entry_elem_of (lower name)).
Qed.

Lemma remove_all_named rhs m : named lower m → named lower (remove_all lower rhs m).
Proof.
  revert m. induction rhs as [|cs rest IH]; intros m Hnamed; [done|].
  simpl. by apply IH, remove_named.
Qed.

Lemma intersection_loop_named lcss rest css :
  named lower css → named lower (state_of (intersection_loop lower lcss rest css)).
Proof.
  revert css. induction rest as [|tmp rest IH]; intros css Hnamed; [done|].
  simpl. destruct (decide (-1 ≠ getIndex lower lcss (getName tmp))); [|by apply IH].
  unfold addColorSpace. pose proof (add_named tmp css Hnamed) as Hadd.
  destruct (add lower tmp css) as [css'|what css']; simpl in *; [by apply IH | done].
Qed.

Lemma difference_loop_named rcss rest css :
  named lower css → named lower (state_of (difference_loop lower rcss rest css)).
Proof.
  revert css. induction rest as [|tmp rest IH]; intros css Hnamed; [done|].
  simpl. destruct (decide (-1 = getIndex lower rcss (getName tmp))); [|by apply IH].
  unfold addColorSpace. pose proof (add_named tmp css Hnamed) as Hadd.
  destruct (add lower tmp css) as [css'|what css']; simpl in *; [by apply IH | done].
Qed.

(** The loops of the operators [&&] and [-] append the color spaces that
    pass their test, when these have distinct names that are not empty. *)
Lemma intersection_loop_filter lcss (rest : list ColorSpace) css :
  NoDup (names lower css ++ names lower rest) →
  (∀ tmp, tmp ∈ rest → -1 ≠ getIndex lower lcss (getName tmp) → lower (getName tmp) ≠ "") →
  intersection_loop lower lcss rest css
  = Done (css ++ filter (λ tmp, -1 ≠ getIndex lower lcss (getName tmp)) rest).
Proof.
  revert css. induction rest as [|tmp rest IH]; intros css Hdistinct Hnamed.
  - simpl. by rewrite app_nil_r.
  - rewrite filter_cons. cbn [intersection_loop difference_loop].
    apply NoDup_app in Hdistinct as (Hcss & Hfresh & Hrest).
    apply NoDup_cons in Hrest as [Htmp Hrest].
    assert (Hnext : ∀ tmp', tmp' ∈ rest → -1 ≠ getIndex lower lcss (getName tmp') →
                            lower (getName tmp') ≠ "").
    { intros tmp' Hin. apply Hnamed. by right. }
    destruct (decide (-1 ≠ getIndex lower lcss (getName tmp))) as [Hfound|Habsent].
    + unfold addColorSpace. rewrite add_fresh.
      * rewrite IH; [by rewrite <- app_assoc | | done].
        unfold names. rewrite fmap_app. simpl. rewrite <- app_assoc. simpl.
        apply NoDup_app. split; [done|]. split; [|by apply NoDup_cons].
        intros n Hn. by apply Hfresh.
      * apply Hnamed; [by left | done].
      * intros Hin. apply (Hfresh _ Hin). by left.
    + apply IH; [|done]. apply NoDup_app. split; [done|]. split; [|done].
      intros n Hn Hin. apply (Hfresh n Hn). by right.
Qed.

Lemma difference_loop_filter rcss (rest : list ColorSpace) css :
  NoDup (names lower css ++ names lower rest) → named lower rest →
  difference_loop lower rcss rest css
  = Done (css ++ filter (λ tmp, -1 = getIndex lower rcss (getName tmp)) rest).
Proof.
  revert css. induction rest as [|tmp rest IH]; intros css Hdistinct Hnamed.
  - simpl. by rewrite app_nil_r.
  - rewrite filter_cons. cbn [intersection_loop difference_loop].
    apply NoDup_app in Hdistinct as (Hcss & Hfresh & Hrest).
    apply NoDup_cons in Hrest as [Htmp Hrest].
    assert (Hnext : named lower rest) by (intros tmp' Hin; apply Hnamed; by right).
    destruct (decide (-1 = getIndex lower rcss (getName tmp))) as [Habsent|Hfound].
    + unfold addColorSpace. rewrite add_fresh.
      * rewrite IH; [by rewrite <- app_assoc | | done].
        unfold names. rewrite fmap_app. simpl. rewrite <- app_assoc. simpl.
        apply NoDup_app. split; [done|]. split; [|by apply NoDup_cons].
        intros n Hn. by apply Hfresh.
      * apply Hnamed. by left.
      * intros Hin. apply (Hfresh _ Hin). by left.
    + apply IH; [|done]. apply NoDup_app. split; [done|]. split; [|done].
      intros n Hn Hin. apply (Hfresh n Hn). by right.
Qed.

(** In a set of distinct names [remove] erases every color space of the
    name. *)
Lemma erase_entry_filter str (m : list ColorSpace) :
  distinct_names lower m →
  erase_entry lower str m = filter (λ cs, lower (getName cs) ≠ str) m.
Proof.
  unfold distinct_names. induction m as [|entry rest IH]; simpl; [done|].
  rewrite NoDup_cons, filter_cons. intros [Hfresh Hrest].
  destruct (decide (lower (getName entry) = str)) as [Heq|Hne].
  - rewrite decide_False by (by intros ?).
    symmetry. apply filter_all, Forall_forall. intros cs Hin Hcs.
    apply Hfresh. rewrite Heq, <- Hcs. apply list_elem_of_fmap. by exists cs.
  - rewrite decide_True by done. f_equal. by apply IH.
Qed.

End ColorSpaceSetOperators.

Section ColorSpaceSetAlgebra.

Import ColorSpaceSet.

Context {Attributes : Type} (lower : string → string).

Local Abbreviation ColorSpace := (ColorSpace Attributes).

Implicit Types (m rhs lcss rcss css : Impl (Attributes := Attributes)).
Implicit Types (cs entry tmp old : ColorSpace).

(** The names and the lookups after [add(const Impl & rhs)]. *)
Lemma add_all_lookup rhs m :
  named lower rhs →
  ∃ css, add_all lower rhs m = Done css
    ∧ (∀ n, n ∈ names lower css ↔ n ∈ names lower m ∨ n ∈ names lower rhs)
    ∧ (∀ str idx, str ∈ names lower m →
         getIndex_from lower str idx css = getIndex_from lower str idx m)
    ∧ (∀ str, str ∉ names lower rhs →
         getByName_loop lower str css = getByName_loop lower str m)
    ∧ (distinct_names lower rhs → ∀ str, str ∈ names lower rhs →
         getByName_loop lower str css = getByName_loop lower str rhs).
Proof.
  revert m. induction rhs as [|cs rest IH]; intros m Hnamed.
  - exists m. split; [done|]. split; [|split; [done|split; [done|]]].
    + intros n. split; [by left|]. intros [?|Hin]; [done|]. by apply elem_of_nil in Hin.
    + intros _ str Hin. by apply elem_of_nil in Hin.
  - assert (Hcs : lower (getName cs) ≠ "") by (apply Hnamed; left).
    assert (Hrest : named lower rest) by (intros x Hx; apply Hnamed; by right).
    destruct (add_lookup lower cs m Hcs) as (m1 & Hadd & Hnames1 & Hfound1 & Hother1 & Hidx1).
    destruct (IH m1 Hrest) as (css & Hrun & Hnames & Hidx & Habsent & Hright).
    exists css. simpl. rewrite Hadd. split; [done|].
    split; [|split; [|split]].
    + intros n. rewrite Hnames, Hnames1, elem_of_cons. tauto.
    + intros str idx Hin. rewrite Hidx; [by apply Hidx1|]. apply Hnames1. by left.
    + intros str Hnot. apply not_elem_of_cons in Hnot as [Hne Hnot].
      rewrite Habsent by done. by apply Hother1.
    + intros Hdistinct str Hin. unfold distinct_names in Hdistinct. simpl in Hdistinct.
      apply NoDup_cons in Hdistinct as [Hfresh Hdistinct].
      cbn [getByName_loop].
      destruct (decide (lower (getName cs) = str)) as [<-|Hne].
      * by rewrite Habsent.
      * apply Hright; [done|].
        apply elem_of_cons in Hin as [->|Hin]; done.
Qed.

(** [remove(const Impl & rhs)] on a set of distinct names that are not
    empty. *)
Lemma remove_all_filter rhs (m : list ColorSpace) :
  distinct_names lower m → named lower m →
  remove_all lower rhs m = filter (λ cs, lower (getName cs) ∉ names lower rhs) m.
Proof.
  revert m. induction rhs as [|cs' rest IH]; intros m Hdistinct Hnamed.
  - simpl. symmetry. apply filter_all, Forall_forall. intros cs _. apply not_elem_of_nil.
  - simpl. rewrite IH; [|by apply remove_distinct|by apply remove_named].
    unfold remove. destruct (decide (lower (getName cs') = "")) as [Hempty|Hname].
    + apply filter_ext_elem. intros cs Hin. rewrite not_elem_of_cons.
      split; [|tauto]. intros Hnot. split; [|done]. rewrite Hempty. by apply Hnamed.
    + rewrite erase_entry_filter by done. rewrite list_filter_filter.
      apply list_filter_iff. intros cs. rewrite not_elem_of_cons. tauto.
Qed.

(** The loop of [operator==]. *)
Lemma names_found_spec rhs m :
  names_found lower rhs m = true ↔ ∀ cs, cs ∈ m → getIndex lower rhs (getName cs) ≠ -1.
Proof.
  induction m as [|entry rest IH]; simpl.
  - split; [|done]. intros _ cs Hin. by apply elem_of_nil in Hin.
  - destruct (decide (-1 = getIndex lower rhs (getName entry))) as [Habsent|Hfound].
    + split; [done|]. intros Hall. exfalso. apply (Hall entry); [by left | done].
    + rewrite IH. split.
      * intros Hall cs Hin. apply elem_of_cons in Hin as [->|Hin]; [lia | by apply Hall].
      * intros Hall cs Hin. apply Hall. by right.
Qed.

End ColorSpaceSetAlgebra.

Section ColorSpaceSetLookups.

Import ColorSpaceSet.

Context {Attributes : Type}.

Local Abbreviation lower := pystring_lower.
Local Abbreviation ColorSpace := (ColorSpace Attributes).

Implicit Types (m rhs lcss rcss css : Impl (Attributes := Attributes)).
Implicit Types (cs entry tmp old : ColorSpace).

Lemma pystring_lower_empty s : pystring_lower s = "" ↔ s = "".
Proof. by destruct s. Qed.

(** X12: [getColorSpace(name)] is the color space at the index that
    [getIndexForColorSpace(name)] returns, and null when that index is -1;
    [getColorSpaceByIndex] returns a color space exactly for the indices
    from 0 to [getNumColorSpaces() - 1], and [getColorSpaceNameByIndex]
    returns its name. *)
Theorem getColorSpace_by_index m :
  getNumColorSpaces m ≤ INT_MAX →
  (∀ name, getColorSpace lower m name
           = getColorSpaceByIndex m (getIndexForColorSpace lower m name))
  ∧ (∀ index, is_Some (getColorSpaceByIndex m index) ↔ 0 ≤ index < getNumColorSpaces m)
  ∧ (∀ index, getColorSpaceNameByIndex m index = getName <$> getColorSpaceByIndex m index).
Proof.
  intros Hm. pose proof (Impl_size_small m Hm) as Hsize.
  split; [|split].
  - intros name.
    unfold getColorSpace, getColorSpaceByIndex, getIndexForColorSpace, getByName, getIndex, get.
    rewrite Hsize. unfold getNumColorSpaces.
    destruct (decide (name ≠ "")) as [Hname|Hname];
      [|destruct (decide _) as [_|Hin]; [done | lia]].
    rewrite getByName_loop_find, getIndex_from_find.
    destruct (list_find _ m) as [[i cs]|] eqn:Hfind; simpl.
    + apply list_find_Some in Hfind as (Hi & _ & _).
      pose proof (lookup_lt_Some _ _ _ Hi).
      destruct (decide _) as [Hout|_]; [lia|].
      rewrite <- Hi. f_equal. lia.
    + done.
  - intros index. unfold getColorSpaceByIndex, get. rewrite Hsize. unfold getNumColorSpaces.
    destruct (decide (index < 0 ∨ Z.of_nat (length m) ≤ index)) as [Hout|Hin].
    + split; [by intros [? ?] | lia].
    + split; [lia|]. intros _. apply lookup_lt_is_Some. lia.
  - intros index. unfold getColorSpaceNameByIndex, getColorSpaceByIndex, Impl_getName, get.
    by destruct (decide _).
Qed.

(** X13: [getIndexForColorSpace(name)] is -1 exactly when the name is empty
    or no color space of the set has this name, case-insensitively;
    otherwise it is the index of the first color space of this name. *)
Theorem getIndexForColorSpace_first_match m name :
  (getIndexForColorSpace lower m name = -1
   ↔ name = "" ∨ lower name ∉ names lower m)
  ∧ (getIndexForColorSpace lower m name ≠ -1 →
     ∃ (i : nat) cs,
       getIndexForColorSpace lower m name = Z.of_nat i
       ∧ m !! i = Some cs
       ∧ lower (getName cs) = lower name
       ∧ ∀ (j : nat) cs', (j < i)%nat → m !! j = Some cs' →
                          lower (getName cs') ≠ lower name).
Proof.
  unfold getIndexForColorSpace, getIndex.
  destruct (decide (name ≠ "")) as [Hname|Hname].
  - rewrite getIndex_from_find.
    destruct (list_find _ m) as [[i cs]|] eqn:Hfind; simpl.
    + pose proof Hfind as Hsome. apply list_find_Some in Hsome as (Hi & Hcs & Hfirst).
      split.
      * split; [lia|]. intros [Hempty|Habsent]; [done|].
        apply (find_name_None lower) in Habsent. congruence.
      * intros _. exists i, cs. split; [lia|]. split; [done|]. split; [done|].
        intros j cs' Hj Hcs'. by apply (Hfirst j cs').
    + split; [|done]. split; [|done]. intros _. right.
      by apply (find_name_None lower).
  - split; [|done]. split; [|done]. intros _. left.
    by destruct (decide (name = "")).
Qed.

End ColorSpaceSetLookups.

Section ColorSpaceSetUpdateTheorems.

Import ColorSpaceSet.

Context {Attributes : Type}.

Local Abbreviation lower := pystring_lower.
Local Abbreviation ColorSpace := (ColorSpace Attributes).

Implicit Types (m rhs lcss rcss css : Impl (Attributes := Attributes)).
Implicit Types (cs entry tmp old : ColorSpace).

(** X14: [addColorSpace] throws for a color space with an empty name and
    leaves the set as it is; otherwise it overwrites the color space at
    the index [getIndexForColorSpace] of that name, or appends the new
    color space when that index is -1. *)
Theorem addColorSpace_overwrites_or_appends m cs :
  addColorSpace lower cs m
  = if decide (getName cs = "")
    then Threw "Cannot add a color space with an empty name." m
    else if decide (getIndexForColorSpace lower m (getName cs) = -1)
         then Done (m ++ [cs])
         else Done (<[Z.to_nat (getIndexForColorSpace lower m (getName cs)) := cs]> m).
Proof.
  unfold addColorSpace, add, getIndexForColorSpace, getIndex.
  destruct (decide (getName cs = "")) as [Hempty|Hname].
  - rewrite decide_True; [done|]. by apply pystring_lower_empty.
  - rewrite decide_False by (by rewrite pystring_lower_empty).
    rewrite !(decide_True (P := getName cs ≠ "")) by done.
    rewrite replace_entry_find, getIndex_from_find.
    destruct (list_find _ m) as [[i old]|]; simpl.
    + rewrite decide_False by lia. do 2 f_equal. lia.
    + done.
Qed.

(** X15: after [addColorSpace(cs)], [getColorSpace] of the name of [cs]
    returns [cs], and the lookups of every other name, by name and by
    index, return what they did before. *)
Theorem addColorSpace_then_lookup m cs :
  getName cs ≠ "" →
  ∃ m', addColorSpace lower cs m = Done m'
        ∧ getColorSpace lower m' (getName cs) = Some cs
        ∧ ∀ name, lower name ≠ lower (getName cs) →
            getColorSpace lower m' name = getColorSpace lower m name
            ∧ getIndexForColorSpace lower m' name = getIndexForColorSpace lower m name.
Proof.
  intros Hname. unfold addColorSpace, add, getColorSpace, getIndexForColorSpace.
  rewrite decide_False by (by rewrite pystring_lower_empty).
  destruct (replace_entry lower (lower (getName cs)) cs m) as [m'|] eqn:Hrun.
  - exists m'. split; [done|].
    destruct (replace_entry_getByName lower _ cs m m' eq_refl Hrun) as [Hfound _].
    unfold getByName, getIndex. rewrite decide_True by done.
    split; [done|]. intros name Hother.
    destruct (decide (name ≠ "")); [|done].
    by apply (replace_entry_other lower (lower (getName cs)) (lower name) cs m m').
  - exists (m ++ [cs]). split; [done|].
    apply replace_entry_Some_inv in Hrun.
    destruct (append_getByName lower _ cs m eq_refl Hrun) as (Hfound & _ & _).
    unfold getByName, getIndex. rewrite decide_True by done.
    split; [done|]. intros name Hother.
    destruct (decide (name ≠ "")); [|done].
    by apply append_other.
Qed.

(** X16: [removeColorSpace(name)] erases the color space at the index
    [getIndexForColorSpace(name)], and nothing when that index is -1. *)
Theorem removeColorSpace_erases_first m name :
  removeColorSpace lower name m
  = if decide (getIndexForColorSpace lower m name = -1) then m
    else delete (Z.to_nat (getIndexForColorSpace lower m name)) m.
Proof.
  unfold removeColorSpace, remove, getIndexForColorSpace, getIndex.
  destruct (decide (lower name = "")) as [Hempty|Hname].
  - apply (proj1 (pystring_lower_empty _)) in Hempty as ->. done.
  - rewrite !(decide_True (P := name ≠ "")) by (by intros ->).
    rewrite erase_entry_find, getIndex_from_find.
    destruct (list_find _ m) as [[i old]|]; simpl; [|done].
    rewrite decide_False by lia. f_equal. lia.
Qed.

(** X17: in a set whose names are distinct, a name is no longer found
    after [removeColorSpace] of it, and the lookup of every other name
    returns what it did before. *)
Theorem removeColorSpace_then_lookup m name :
  distinct_names lower m →
  getIndexForColorSpace lower (removeColorSpace lower name m) name = -1
  ∧ getColorSpace lower (removeColorSpace lower name m) name = None
  ∧ ∀ other, lower other ≠ lower name →
      getColorSpace lower (removeColorSpace lower name m) other
      = getColorSpace lower m other.
Proof.
  intros Hdistinct.
  unfold removeColorSpace, remove, getColorSpace, getIndexForColorSpace, getByName, getIndex.
  destruct (decide (lower name = "")) as [Hempty|Hname].
  - apply (proj1 (pystring_lower_empty _)) in Hempty as ->.
    split; [done|]. split; [done|]. done.
  - rewrite !(decide_True (P := name ≠ "")) by (by intros ->).
    pose proof (erase_entry_absent lower (lower name) m Hdistinct) as Habsent.
    apply (find_name_None lower) in Habsent.
    rewrite getIndex_from_find, getByName_loop_find, Habsent.
    split; [done|]. split; [done|]. intros other Hother.
    destruct (decide (other ≠ "")); [|done].
    by apply erase_entry_other.
Qed.

(** X18: adding a color space twice is adding it once, and removing a
    color space that has just been added under a new name gives the set
    back. *)
Theorem addColorSpace_removeColorSpace m cs :
  getName cs ≠ "" →
  ∃ m', addColorSpace lower cs m = Done m'
        ∧ addColorSpace lower cs m' = Done m'
        ∧ (getIndexForColorSpace lower m (getName cs) = -1 →
           removeColorSpace lower (getName cs) m' = m).
Proof.
  intros Hname. unfold addColorSpace, add, removeColorSpace, remove, getIndexForColorSpace.
  rewrite !decide_False by (by rewrite pystring_lower_empty).
  unfold getIndex. rewrite decide_True by done.
  destruct (replace_entry lower (lower (getName cs)) cs m) as [m'|] eqn:Hrun.
  - exists m'. split; [done|].
    destruct (replace_entry_getByName lower _ cs m m' eq_refl Hrun) as [_ Hagain].
    rewrite decide_False by (by rewrite pystring_lower_empty).
    rewrite Hagain. split; [done|]. intros Habsent.
    apply getIndex_from_absent in Habsent; [|lia].
    by rewrite (replace_entry_None lower _ cs m Habsent) in Hrun.
  - exists (m ++ [cs]). split; [done|].
    apply replace_entry_Some_inv in Hrun.
    destruct (append_getByName lower _ cs m eq_refl Hrun) as (_ & Hagain & Herase).
    rewrite !decide_False by (by rewrite pystring_lower_empty).
    rewrite Hagain, Herase. done.
Qed.

End ColorSpaceSetUpdateTheorems.

Section ColorSpaceSetOperatorTheorems.

Import ColorSpaceSet.

Context {Attributes : Type}.

Local Abbreviation lower := pystring_lower.
Local Abbreviation ColorSpace := (ColorSpace Attributes).

Implicit Types (m rhs lcss rcss css : Impl (Attributes := Attributes)).
Implicit Types (cs entry tmp old : ColorSpace).

Lemma named_getName m cs : named lower m → cs ∈ m → getName cs ≠ "".
Proof. intros Hnamed Hin Hempty. apply (Hnamed cs Hin). by rewrite Hempty. Qed.

(** X19: no operation stores a color space with an empty name: a set
    that has none keeps having none after [addColorSpace],
    [addColorSpaces], [removeColorSpace], [removeColorSpaces],
    [clearColorSpaces] and the operators [||], [&&] and [-], also when the
    operation throws; and [getColorSpaceNameByIndex] never returns an
    empty name. *)
Theorem ColorSpaceSet_names_never_empty m :
  named lower m →
  (∀ cs, named lower (state_of (addColorSpace lower cs m)))
  ∧ (∀ rhs, named lower (state_of (addColorSpaces lower rhs m)))
  ∧ (∀ name, named lower (removeColorSpace lower name m))
  ∧ (∀ same_object rhs css,
       removeColorSpaces lower same_object rhs m = Some css → named lower css)
  ∧ named lower (clearColorSpaces m)
  ∧ (∀ rcss, named lower (state_of (union lower m rcss)))
  ∧ (∀ rcss, named lower (state_of (intersection lower m rcss)))
  ∧ (∀ rcss, named lower (state_of (difference lower m rcss)))
  ∧ (∀ index, getColorSpaceNameByIndex m index ≠ Some "").
Proof.
  intros Hnamed.
  assert (Hnil : named lower ([] : Impl (Attributes := Attributes))).
  { intros cs Hin. by apply elem_of_nil in Hin. }
  split; [|split; [|split; [|split; [|split; [|split; [|split; [|split]]]]]]].
  - intros cs. by apply add_named.
  - intros rhs. by apply add_all_named.
  - intros name. by apply remove_named.
  - intros same_object rhs css. unfold removeColorSpaces, Impl_remove.
    destruct same_object.
    + destruct (decide _); [|done]. by intros [= <-].
    + intros [= <-]. by apply remove_all_named.
  - done.
  - intros rcss. by apply add_all_named.
  - intros rcss. by apply intersection_loop_named.
  - intros rcss. by apply difference_loop_named.
  - intros index. unfold getColorSpaceNameByIndex, Impl_getName.
    destruct (decide _); [done|].
    destruct (m !! Z.to_nat index) as [cs|] eqn:Hcs; [simpl|done].
    intros [= Hempty]. apply (named_getName m cs Hnamed); [|done].
    by eapply list_elem_of_lookup_2.
Qed.

(** X20: the union [lcss || rcss] of two sets holds the names of both;
    the color spaces of [lcss] keep their index; a name that [rcss] does
    not have is looked up as in [lcss], and a name that [rcss] has is
    looked up as in [rcss]: the right operand wins. *)
Theorem union_right_operand_wins lcss rcss :
  named lower rcss → distinct_names lower rcss →
  ∃ css, union lower lcss rcss = Done css
    ∧ (∀ n, n ∈ names lower css ↔ n ∈ names lower lcss ∨ n ∈ names lower rcss)
    ∧ (∀ name, getIndexForColorSpace lower lcss name ≠ -1 →
         getIndexForColorSpace lower css name = getIndexForColorSpace lower lcss name)
    ∧ (∀ name, getIndexForColorSpace lower rcss name = -1 →
         getColorSpace lower css name = getColorSpace lower lcss name)
    ∧ (∀ name, getIndexForColorSpace lower rcss name ≠ -1 →
         getColorSpace lower css name = getColorSpace lower rcss name).
Proof.
  intros Hnamed Hdistinct. unfold union, addColorSpaces, createEditableCopy.
  destruct (add_all_lookup lower rcss lcss Hnamed)
    as (css & Hrun & Hnames & Hidx & Habsent & Hright).
  exists css. split; [done|]. split; [done|].
  unfold getIndexForColorSpace, getColorSpace.
  split; [|split].
  - intros name Hfound. unfold getIndex in *.
    destruct (decide (name ≠ "")); [|done].
    apply Hidx. destruct (decide (lower name ∈ names lower lcss)) as [|Hnot]; [done|].
    exfalso. apply Hfound. rewrite getIndex_from_find.
    by apply (find_name_None lower) in Hnot as ->.
  - intros name Hnot. apply getIndex_absent_iff in Hnot.
    unfold getByName. destruct (decide (name ≠ "")) as [Hname|]; [|done].
    apply Habsent. by destruct Hnot.
  - intros name Hfound. unfold getByName.
    destruct (decide (name ≠ "")) as [Hname|]; [|done].
    apply Hright; [done|].
    destruct (decide (lower name ∈ names lower rcss)) as [|Hnot]; [done|].
    exfalso. apply Hfound, getIndex_absent_iff. by right.
Qed.

(** X21: the intersection [lcss && rcss] is made of the color spaces of
    the right operand whose name [lcss] has, in the order of [rcss]. *)
Theorem intersection_filters_right lcss (rcss : list ColorSpace) :
  distinct_names lower rcss →
  intersection lower lcss rcss
  = Done (filter (λ cs, getIndexForColorSpace lower lcss (getName cs) ≠ -1) rcss).
Proof.
  intros Hdistinct. unfold intersection.
  rewrite intersection_loop_filter.
  - simpl. f_equal. apply list_filter_iff. intros cs.
    unfold getIndexForColorSpace. lia.
  - done.
  - intros tmp _ Hfound Hempty. apply (proj1 (pystring_lower_empty _)) in Hempty.
    apply Hfound. symmetry. apply getIndex_absent_iff. by left.
Qed.

(** X22: the difference [lcss - rcss] is made of the color spaces of the
    left operand whose name [rcss] does not have, in the order of
    [lcss]. *)
Theorem difference_filters_left (lcss : list ColorSpace) rcss :
  distinct_names lower lcss → named lower lcss →
  difference lower lcss rcss
  = Done (filter (λ cs, getIndexForColorSpace lower rcss (getName cs) = -1) lcss).
Proof.
  intros Hdistinct Hnamed. unfold difference.
  rewrite difference_loop_filter by done.
  simpl. f_equal. apply list_filter_iff. intros cs.
  unfold getIndexForColorSpace. lia.
Qed.

(** X23: [removeColorSpaces(rcss)], for a set [rcss] that is another
    object than the set itself, leaves in the set what the operator [-]
    returns; with the set itself as the argument, the loop runs over the
    vector that it erases from and the behaviour of the call is not
    defined, unless the set is empty. *)
Theorem removeColorSpaces_is_difference (lcss : list ColorSpace) rcss :
  distinct_names lower lcss → named lower lcss →
  (∃ css, removeColorSpaces lower false rcss lcss = Some css
          ∧ difference lower lcss rcss = Done css)
  ∧ (lcss ≠ [] → removeColorSpaces lower true lcss lcss = None)
  ∧ removeColorSpaces lower true [] [] = Some ([] : list ColorSpace).
Proof.
  intros Hdistinct Hnamed. split; [|split].
  - eexists. split; [reflexivity|].
    unfold difference. rewrite difference_loop_filter by done.
    rewrite remove_all_filter by done.
    simpl. f_equal. apply filter_ext_elem. intros cs Hin.
    pose proof (named_getName lcss cs Hnamed Hin) as Hname.
    split.
    + intros Habsent. symmetry in Habsent.
      apply getIndex_absent_iff in Habsent as [?|?]; done.
    + intros Hnot. symmetry. apply getIndex_absent_iff. by right.
  - intros Hne. unfold removeColorSpaces, Impl_remove.
    destruct (decide _) as [Hempty|]; [|done].
    destruct lcss as [|cs rest]; [done|].
    apply Forall_cons in Hempty as [Hcs _].
    exfalso. apply (Hnamed cs); [by left | done].
  - reflexivity.
Qed.

(** X24: [operator==] compares the names only: for a left operand of
    distinct names it holds exactly when both sets have the same names,
    case-insensitively, in any order; and a set is equal to itself also
    without the test of the addresses. *)
Theorem operator_eq_compares_names m rhs :
  distinct_names lower m → named lower m →
  (operator_eq lower false m rhs = true ↔ names lower m ≡ₚ names lower rhs)
  ∧ operator_eq lower false m m = operator_eq lower true m m.
Proof.
  intros Hdistinct Hnamed.
  assert (Hfound : ∀ rhs', names_found lower rhs' m = true
                          ↔ ∀ n, n ∈ names lower m → n ∈ names lower rhs').
  { intros rhs'. rewrite names_found_spec. split.
    - intros Hall n Hn. apply list_elem_of_fmap in Hn as (cs & -> & Hin).
      destruct (decide (lower (getName cs) ∈ names lower rhs')) as [|Hnot]; [done|].
      exfalso. apply (Hall cs Hin), getIndex_absent_iff. by right.
    - intros Hall cs Hin Habsent.
      apply getIndex_absent_iff in Habsent as [Hempty|Hnot].
      + by apply (named_getName m cs Hnamed).
      + apply Hnot, Hall, list_elem_of_fmap. by exists cs. }
  unfold operator_eq, Impl_eq. split.
  - destruct (decide (Z.of_nat (length m) ≠ Z.of_nat (length rhs))) as [Hlen|Hlen].
    + split; [done|]. intros Hperm. apply Permutation_length in Hperm.
      unfold names in Hperm. rewrite !length_fmap in Hperm. lia.
    + rewrite Hfound. split.
      * intros Hsub. apply submseteq_length_Permutation.
        -- by apply NoDup_submseteq.
        -- unfold names. rewrite !length_fmap. lia.
      * intros Hperm n Hn. by rewrite <- Hperm.
  - rewrite decide_False by lia. by apply Hfound.
Qed.

(** X25: the lookups and [removeColorSpace] do not distinguish two names
    that differ in the case of their letters only. *)
Theorem lookups_ignore_case m name name' :
  lower name = lower name' →
  getIndexForColorSpace lower m name = getIndexForColorSpace lower m name'
  ∧ getColorSpace lower m name = getColorSpace lower m name'
  ∧ removeColorSpace lower name m = removeColorSpace lower name' m.
Proof.
  intros Hsame.
  assert (Hempty : name = "" ↔ name' = "").
  { split; intros ->; apply (proj1 (pystring_lower_empty _)).
    - by rewrite <- Hsame.
    - by rewrite Hsame. }
  unfold getIndexForColorSpace, getColorSpace, removeColorSpace, getIndex, getByName, remove.
  rewrite Hsame.
  destruct (decide (name ≠ "")), (decide (name' ≠ "")); tauto || done.
Qed.

End ColorSpaceSetOperatorTheorems.


(** ** Identities of the set operators *)

Section ColorSpaceSetIdentities.

Import ColorSpaceSet.

Context {Attributes : Type}.

Local Abbreviation lower := pystring_lower.
Local Abbreviation ColorSpace := (ColorSpace Attributes).

Implicit Types (m rhs lcss rcss css : Impl (Attributes := Attributes)).
Implicit Types (cs entry tmp old : ColorSpace).

Lemma filter_none {A} (P : A → Prop) `{∀ x, Decision (P x)} (l : list A) :
  Forall (λ x, ¬ P x) l → filter P l = [].
Proof.
  induction 1 as [|x l Hx Hl IH]; [done|].
  rewrite filter_cons, decide_False by done. by rewrite IH.
Qed.

(** Adding to a set color spaces that it holds changes nothing. *)
Lemma add_all_members rhs m :
  distinct_names lower m → named lower m → (∀ cs, cs ∈ rhs → cs ∈ m) →
  add_all lower rhs m = Done m.
Proof.
  intros Hdistinct Hnamed. induction rhs as [|cs rest IH]; intros Hin; [done|].
  assert (Hcs : cs ∈ m) by (apply Hin; left).
  apply list_elem_of_lookup in Hcs as [i Hi].
  simpl. unfold add. rewrite decide_False by (by apply Hnamed; eapply list_elem_of_lookup_2).
  rewrite (replace_entry_lookup lower cs m i cs) by done.
  assert (Hid : <[i := cs]> m = m) by (by apply list_insert_id).
  rewrite Hid. apply IH. intros cs' Hcs'. apply Hin. by right.
Qed.

(** Adding color spaces of new, distinct names appends them. *)
Lemma add_all_fresh rhs m :
  NoDup (names lower m ++ names lower rhs) → named lower rhs →
  add_all lower rhs m = Done (m ++ rhs).
Proof.
  revert m. induction rhs as [|cs rest IH]; intros m Hdistinct Hnamed; simpl.
  - by rewrite app_nil_r.
  - apply NoDup_app in Hdistinct as (Hm & Hfresh & Hrhs).
    apply NoDup_cons in Hrhs as [Hcs Hrest].
    rewrite add_fresh.
    + rewrite IH.
      * by rewrite <- app_assoc.
      * unfold names. rewrite fmap_app. simpl. rewrite <- app_assoc. simpl.
        apply NoDup_app. split; [done|]. split; [|by apply NoDup_cons].
        intros n Hn. by apply Hfresh.
      * intros cs' Hcs'. apply Hnamed. by right.
    + apply Hnamed. by left.
    + intros Hin. apply (Hfresh _ Hin). by left.
Qed.

(** X26: for sets with distinct, non-empty names, the operators follow
    the laws of sets: [lcss || lcss], [lcss && lcss] and the union of the
    empty set with [lcss] are [lcss]; [lcss - lcss] is empty; and the
    difference [lcss - rcss] has no color space in common with [rcss]. *)
Theorem set_operators_identities (lcss rcss : list ColorSpace) :
  distinct_names lower lcss → named lower lcss → distinct_names lower rcss →
  union lower lcss lcss = Done lcss
  ∧ intersection lower lcss lcss = Done lcss
  ∧ difference lower lcss lcss = Done []
  ∧ union lower [] lcss = Done lcss
  ∧ ∃ css, difference lower lcss rcss = Done css
           ∧ intersection lower css rcss = Done []
           ∧ intersection lower rcss css = Done [].
Proof.
  intros Hdistinct Hnamed Hright.
  assert (Hfound : ∀ cs, cs ∈ lcss → -1 ≠ getIndex lower lcss (getName cs)).
  { intros cs Hin Habsent. symmetry in Habsent.
    apply getIndex_absent_iff in Habsent as [Hempty|Hnot].
    - by apply (named_getName lcss cs Hnamed).
    - apply Hnot, list_elem_of_fmap. by exists cs. }
  assert (Hnonempty : ∀ css' (tmp : ColorSpace),
            -1 ≠ getIndex lower css' (getName tmp) → lower (getName tmp) ≠ "").
  { intros css' tmp Hidx Hempty. apply (proj1 (pystring_lower_empty _)) in Hempty.
    apply Hidx. symmetry. apply getIndex_absent_iff. by left. }
  split; [|split; [|split; [|split]]].
  - unfold union, addColorSpaces, createEditableCopy. by apply add_all_members.
  - unfold intersection. rewrite intersection_loop_filter; [|done|by intros tmp _; apply Hnonempty].
    simpl. f_equal. apply filter_all, Forall_forall. exact Hfound.
  - unfold difference. rewrite difference_loop_filter by done.
    simpl. f_equal. apply filter_none, Forall_forall.
    intros cs Hin Habsent. by apply (Hfound cs).
  - unfold union, addColorSpaces, createEditableCopy. by apply add_all_fresh.
  - pose proof (difference_loop_distinct lower rcss lcss []) as Hcss.
    unfold difference. rewrite difference_loop_filter in * by done.
    simpl in *. specialize (Hcss NoDup_nil_2).
    set (css := filter (λ tmp, -1 = getIndex lower rcss (getName tmp)) lcss) in *.
    assert (Hin_css : ∀ cs, cs ∈ css → cs ∈ lcss ∧ -1 = getIndex lower rcss (getName cs)).
    { intros cs Hcs. apply list_elem_of_filter in Hcs. tauto. }
    exists css. split; [done|]. unfold intersection. split.
    + rewrite intersection_loop_filter; [|done|by intros tmp _; apply Hnonempty].
      simpl. f_equal. apply filter_none, Forall_forall.
      intros tmp Htmp Hidx. apply Hidx. symmetry. apply getIndex_absent_iff. right.
      intros Hname. apply list_elem_of_fmap in Hname as (cs & Heq & Hcs).
      destruct (Hin_css cs Hcs) as [Hleft Habsent]. symmetry in Habsent.
      apply getIndex_absent_iff in Habsent as [Hempty|Hnot].
      * by apply (named_getName lcss cs Hnamed).
      * apply Hnot. rewrite <- Heq. apply list_elem_of_fmap. by exists tmp.
    + rewrite intersection_loop_filter; [|done|by intros tmp _; apply Hnonempty].
      simpl. f_equal. apply filter_none, Forall_forall.
      intros cs Hcs Hidx. by destruct (Hin_css cs Hcs).
Qed.

End ColorSpaceSetIdentities.

(** ** The raw half is monotone *)

Section ShaderMonotone.

Import Shader.

Local Open Scope Q_scope.

Lemma denormalized_dep_linear a : denormalized_dep a == a * 16777216.
Proof. unfold denormalized_dep, HALF_DENRM_MAX. field. Qed.

(** The mantissa of a positive float, scaled to [0, 1). *)
Lemma mantissa_bounds a :
  0 < a →
  0 <= (a - pow2 (floor_log2 a)) / pow2 (floor_log2 a)
  ∧ (a - pow2 (floor_log2 a)) / pow2 (floor_log2 a) < 1.
Proof.
  intros Ha. destruct (floor_log2_spec a Ha) as [Hlo Hhi].
  pose proof (pow2_pos (floor_log2 a)) as Hpos.
  assert (Hdouble : pow2 (floor_log2 a + 1) == 2 * pow2 (floor_log2 a)).
  { rewrite pow2_add. change (pow2 1) with 2. ring. }
  rewrite Hdouble in Hhi. split.
  - apply Qle_shift_div_l; [done|]. lra.
  - apply Qlt_shift_div_r; [done|]. lra.
Qed.

Lemma normalized_dep_formula a :
  normalized_dep a
  == (inject_Z (floor_log2 a) + 15) * 1024
     + (a - pow2 (floor_log2 a)) / pow2 (floor_log2 a) * 1024.
Proof. unfold normalized_dep, dot, NEG_MIN_EXP, EXP_SCALE. cbn [fst snd]. ring. Qed.

Lemma floor_log2_monotone a b : 0 < a → a <= b → (floor_log2 a ≤ floor_log2 b)%Z.
Proof.
  intros Ha Hab.
  destruct (floor_log2_spec a Ha) as [Hlo _].
  destruct (floor_log2_spec b) as [_ Hhi]; [lra|].
  destruct (decide (floor_log2 a ≤ floor_log2 b)%Z) as [|Hgt]; [done|].
  pose proof (pow2_le (floor_log2 b + 1) (floor_log2 a) ltac:(lia)). lra.
Qed.

Lemma normalized_dep_monotone a b :
  0 < a → a <= b → normalized_dep a <= normalized_dep b.
Proof.
  intros Ha Hab. assert (Hb : 0 < b) by lra.
  rewrite !normalized_dep_formula.
  pose proof (mantissa_bounds a Ha) as [Hma_lo Hma_hi].
  pose proof (mantissa_bounds b Hb) as [Hmb_lo Hmb_hi].
  pose proof (floor_log2_monotone a b Ha Hab) as He.
  destruct (decide (floor_log2 a = floor_log2 b)) as [Heq|Hne].
  - rewrite <- Heq in *. pose proof (pow2_pos (floor_log2 a)) as Hpos.
    assert (Hfrac : (a - pow2 (floor_log2 a)) / pow2 (floor_log2 a)
                    <= (b - pow2 (floor_log2 a)) / pow2 (floor_log2 a)).
    { unfold Qdiv. apply Qmult_le_compat_r; [lra|].
      apply Qlt_le_weak, Qinv_lt_0_compat, Hpos. }
    lra.
  - assert (Hstep : inject_Z (floor_log2 a) + 1 <= inject_Z (floor_log2 b)).
    { change 1 with (inject_Z 1). rewrite <- inject_Z_plus, <- Zle_Qle. lia. }
    lra.
Qed.

Lemma normalized_dep_at_least a : HALF_NRM_MIN < a → 1024 <= normalized_dep a.
Proof.
  intros Ha. assert (Hpos : 0 < a).
  { eapply Qlt_trans; [|exact Ha]. reflexivity. }
  rewrite normalized_dep_formula.
  pose proof (mantissa_bounds a Hpos) as [Hlo _].
  destruct (floor_log2_spec a Hpos) as [_ Hhi].
  assert (He : (-14 ≤ floor_log2 a)%Z).
  { destruct (decide (-14 ≤ floor_log2 a)%Z) as [|Hlt]; [done|].
    pose proof (pow2_le (floor_log2 a + 1) (-14) ltac:(lia)) as Hle.
    change (pow2 (-14)) with HALF_NRM_MIN in Hle. lra. }
  assert (Hexp : -14 <= inject_Z (floor_log2 a)).
  { change (-14) with (inject_Z (-14)). by rewrite <- Zle_Qle. }
  lra.
Qed.

(** Among finite inputs, the raw half without its sign grows with the
    magnitude of the input. *)
Lemma half_dep_magnitude_monotone (p q : Q) :
  Qabs p <= Qabs q →
  ∃ dp dq, half_dep (Fin p) = Some (dp + sign_offset (Fin p))
           ∧ half_dep (Fin q) = Some (dq + sign_offset (Fin q))
           ∧ dp <= dq.
Proof.
  intros Hpq. unfold half_dep, abs, greater, min, greater.
  set (a := Qabs p) in *. set (b := Qabs q) in *.
  assert (Hmin : HALF_NRM_MIN < HALF_MAX) by reflexivity.
  destruct (Qle_bool a HALF_NRM_MIN) eqn:Ha; destruct (Qle_bool b HALF_NRM_MIN) eqn:Hb;
    cbn [negb finite mbind option_bind].
  - eexists _, _. split; [reflexivity|]. split; [reflexivity|].
    rewrite !denormalized_dep_linear. lra.
  - apply Qle_bool_iff in Ha.
    assert (Hb' : HALF_NRM_MIN < b).
    { apply Qnot_le_lt. intros Hle. apply Qle_bool_iff in Hle. congruence. }
    destruct (Qle_bool b HALF_MAX) eqn:Hb2; cbn [negb finite mbind option_bind];
      (eexists _, _; split; [reflexivity|]; split; [reflexivity|]);
      rewrite denormalized_dep_linear.
    + pose proof (normalized_dep_at_least b Hb'). unfold HALF_NRM_MIN in Ha. lra.
    + pose proof (normalized_dep_at_least HALF_MAX Hmin). unfold HALF_NRM_MIN in Ha. lra.
  - exfalso. apply Qle_bool_iff in Hb.
    assert (Ha' : HALF_NRM_MIN < a).
    { apply Qnot_le_lt. intros Hle. apply Qle_bool_iff in Hle. congruence. }
    lra.
  - assert (Ha' : HALF_NRM_MIN < a).
    { apply Qnot_le_lt. intros Hle. apply Qle_bool_iff in Hle. congruence. }
    assert (Hpos : 0 < a) by (unfold HALF_NRM_MIN in Ha'; lra).
    destruct (Qle_bool a HALF_MAX) eqn:Ha2; destruct (Qle_bool b HALF_MAX) eqn:Hb2;
      cbn [negb finite mbind option_bind];
      (eexists _, _; split; [reflexivity|]; split; [reflexivity|]).
    + by apply normalized_dep_monotone.
    + apply Qle_bool_iff in Ha2. by apply normalized_dep_monotone.
    + exfalso. apply Qle_bool_iff in Hb2.
      assert (Ha3 : HALF_MAX < a).
      { apply Qnot_le_lt. intros Hle. apply Qle_bool_iff in Hle. congruence. }
      lra.
    + apply Qle_refl.
Qed.

(** X27: among finite inputs of the same sign, the raw half that the
    half-domain helper computes grows with the magnitude of the input. *)
Theorem half_dep_monotone (p q : Q) :
  Qabs p <= Qabs q → (0 < p ∧ 0 < q) ∨ (p < 0 ∧ q < 0) →
  ∃ dp dq, half_dep (Fin p) = Some dp ∧ half_dep (Fin q) = Some dq ∧ dp <= dq.
Proof.
  intros Hpq Hsign.
  destruct (half_dep_magnitude_monotone p q Hpq) as (dp & dq & Hp & Hq & Hle).
  eexists _, _. split; [exact Hp|]. split; [exact Hq|].
  destruct Hsign as [[Hp0 Hq0]|[Hp0 Hq0]].
  - rewrite !sign_offset_positive by done. lra.
  - rewrite !sign_offset_negative by (by apply Qlt_le_weak). lra.
Qed.

End ShaderMonotone.

(** ** The raw half between two consecutive halves *)

Section ShaderInterpolation.

Import Shader.

(** The magnitude of the next half is one step further. *)
Lemma half_units_next (k : Z) :
  (0 ≤ k ≤ 31742 ∨ 32768 ≤ k ≤ 64510)%Z →
  half_units (k + 1) = (half_units k + half_ulp k)%Z
  ∧ (0 < half_ulp k)%Z ∧ (0 ≤ half_units k)%Z.
Proof.
  intros Hk. unfold half_units, half_ulp.
  set (E := ((k / 1024) `mod` 32)%Z). set (m := (k `mod` 1024)%Z).
  assert (HE : (0 ≤ E ≤ 30)%Z) by (unfold E; lia).
  assert (Hm : (0 ≤ m < 1024)%Z) by (unfold m; lia).
  assert (Hpow : (0 < 2 ^ (Z.max E 1 - 1))%Z) by (apply Z.pow_pos_nonneg; lia).
  split; [|split; [done|]].
  - destruct (decide (m = 1023%Z)) as [Hlast|Hmid].
    + assert (HE' : (((k + 1) / 1024) `mod` 32 = E + 1)%Z) by (unfold E, m in *; lia).
      assert (Hm' : ((k + 1) `mod` 1024 = 0)%Z) by (unfold m in *; lia).
      rewrite HE', Hm', Hlast. rewrite decide_False by lia.
      replace (Z.max (E + 1) 1 - 1)%Z with E by lia.
      destruct (decide (E = 0%Z)) as [->|HE0]; [reflexivity|].
      replace (Z.max E 1 - 1)%Z with (E - 1)%Z by lia.
      replace E with (Z.succ (E - 1)) at 1 by lia.
      rewrite Z.pow_succ_r by lia. lia.
    + assert (HE' : (((k + 1) / 1024) `mod` 32 = E)%Z) by (unfold E, m in *; lia).
      assert (Hm' : ((k + 1) `mod` 1024 = m + 1)%Z) by (unfold m in *; lia).
      rewrite HE', Hm'. lia.
  - destruct (decide (E = 0%Z)); nia.
Qed.

Local Open Scope Q_scope.

Lemma pow2_shift (E : Z) : (1 ≤ E)%Z → inject_Z (2 ^ (E - 1)) * pow2 (-24) == pow2 (E - 25).
Proof.
  intros HE. rewrite <- pow2_nonneg by lia. rewrite <- pow2_add.
  by replace (E - 1 + -24)%Z with (E - 25)%Z by lia.
Qed.

Lemma pow2_double (e : Z) : pow2 (e + 1) == 2 * pow2 e.
Proof. rewrite pow2_add. change (pow2 1) with 2. ring. Qed.

(** The raw half, without its sign, of a magnitude [c * 2^(E-25)] with
    [1024 <= c <= 2048]: the magnitudes from the half of exponent [E] and
    mantissa 0 to the first half of the next exponent. *)
Lemma normalized_dep_binade (E : Z) (c a : Q) :
  1024 <= c → c <= 2048 → a == c * pow2 (E - 25) →
  normalized_dep a == inject_Z (1024 * (E - 1)) + c.
Proof.
  intros Hlo Hhi Ha.
  pose proof (pow2_pos (E - 25)) as Hw.
  assert (Hw15 : pow2 (E - 15) == 1024 * pow2 (E - 25)).
  { replace (E - 15)%Z with (E - 25 + 10)%Z by lia. rewrite pow2_add.
    change (pow2 10) with 1024. ring. }
  assert (Hw14 : pow2 (E - 14) == 2048 * pow2 (E - 25)).
  { replace (E - 14)%Z with (E - 25 + 11)%Z by lia. rewrite pow2_add.
    change (pow2 11) with 2048. ring. }
  assert (Hw13 : pow2 (E - 13) == 4096 * pow2 (E - 25)).
  { replace (E - 13)%Z with (E - 25 + 12)%Z by lia. rewrite pow2_add.
    change (pow2 12) with 4096. ring. }
  assert (Hnz : ¬ pow2 (E - 25) == 0) by lra.
  rewrite normalized_dep_formula.
  destruct (Qlt_le_dec c 2048) as [Hlt|Hge].
  - assert (He : floor_log2 a = (E - 15)%Z).
    { apply floor_log2_unique.
      - rewrite Hw15, Ha. apply Qmult_le_compat_r; lra.
      - replace (E - 15 + 1)%Z with (E - 14)%Z by lia. rewrite Hw14, Ha.
        apply Qmult_lt_compat_r; lra. }
    rewrite He, Hw15, Ha.
    replace (1024 * (E - 1))%Z with (1024 * E - 1024)%Z by lia.
    unfold Zminus. rewrite !inject_Z_plus, !inject_Z_mult, !inject_Z_opp.
    change (inject_Z 1024) with 1024. change (inject_Z 15) with 15.
    field. done.
  - assert (Hc : c == 2048) by lra.
    assert (He : floor_log2 a = (E - 14)%Z).
    { apply floor_log2_unique.
      - rewrite Hw14, Ha, Hc. lra.
      - replace (E - 14 + 1)%Z with (E - 13)%Z by lia. rewrite Hw13, Ha, Hc. lra. }
    rewrite He, Hw14, Ha, Hc.
    replace (1024 * (E - 1))%Z with (1024 * E - 1024)%Z by lia.
    unfold Zminus. rewrite !inject_Z_plus, !inject_Z_mult, !inject_Z_opp.
    change (inject_Z 1024) with 1024. change (inject_Z 14) with 14.
    field. done.
Qed.

(** The float of a finite half, in units. *)
Lemma half_value_units (k : Z) :
  (0 ≤ k ≤ 31743 ∨ 32768 ≤ k ≤ 64511)%Z →
  ∃ v, half_value k = Fin v
       ∧ v == (if bool_decide (32768 ≤ k)%Z then -1 else 1)
              * (inject_Z (half_units k) * pow2 (-24)).
Proof.
  intros Hk. unfold half_value, half_units, half_ulp.
  set (E := ((k / 1024) `mod` 32)%Z). set (m := (k `mod` 1024)%Z).
  assert (HE : (0 ≤ E ≤ 30)%Z) by (unfold E; lia).
  rewrite decide_False by lia.
  destruct (decide (E = 0%Z)) as [HE0|HE0].
  - eexists. split; [reflexivity|]. rewrite HE0. change (2 ^ (Z.max 0 1 - 1))%Z with 1%Z.
    rewrite Z.mul_1_r, Z.add_0_l. ring.
  - eexists. split; [reflexivity|].
    replace (Z.max E 1 - 1)%Z with (E - 1)%Z by lia.
    rewrite <- normal_units by lia. ring.
Qed.

(** The raw half, without its sign, of a magnitude between the one of
    the half [k] and the one of the next half. *)
Lemma magnitude_interpolates (E m : Z) (t x : Q) :
  (0 ≤ E ≤ 30)%Z → (0 ≤ m < 1024)%Z → 0 <= t → t <= 1 → (E = 30%Z → (m < 1023)%Z) →
  Qabs x == (inject_Z ((if decide (E = 0%Z) then 0 else 1024) + m) + t)
            * (inject_Z (2 ^ (Z.max E 1 - 1)) * pow2 (-24)) →
  ∃ dep, half_dep (Fin x) = Some (dep + sign_offset (Fin x))
         ∧ dep == inject_Z (1024 * E + m) + t.
Proof.
  intros HE Hm Ht0 Ht1 Htop Ha. unfold half_dep, abs, greater, min, greater.
  set (a := Qabs x) in *.
  assert (Hm_lo : 0 <= inject_Z m) by (change 0 with (inject_Z 0); rewrite <- Zle_Qle; lia).
  assert (Hm_hi : inject_Z m <= 1023).
  { change 1023 with (inject_Z 1023). rewrite <- Zle_Qle. lia. }
  destruct (decide (E = 0%Z)) as [->|HE0].
  - change (2 ^ (Z.max 0 1 - 1))%Z with 1%Z in Ha.
    change (pow2 (-24)) with (1 # 16777216) in Ha.
    rewrite Z.add_0_l in Ha. change (inject_Z 1) with 1 in Ha.
    assert (Hle : Qle_bool a HALF_NRM_MIN = true).
    { apply Qle_bool_iff. unfold HALF_NRM_MIN. lra. }
    rewrite Hle. cbn [negb finite mbind option_bind].
    eexists. split; [reflexivity|].
    rewrite denormalized_dep_linear. rewrite Z.mul_0_r, Z.add_0_l. lra.
  - replace (Z.max E 1 - 1)%Z with (E - 1)%Z in Ha by lia.
    rewrite pow2_shift in Ha by lia.
    rewrite inject_Z_plus in Ha. change (inject_Z 1024) with 1024 in Ha.
    set (c := 1024 + inject_Z m + t) in *.
    assert (Hc_lo : 1024 <= c) by (unfold c; lra).
    assert (Hc_hi : c <= 2048) by (unfold c; lra).
    pose proof (pow2_pos (E - 25)) as Hw.
    assert (Hw_lo : pow2 (-24) <= pow2 (E - 25)) by (apply pow2_le; lia).
    change (pow2 (-24)) with (1 # 16777216) in Hw_lo.
    assert (Hdep : normalized_dep a == inject_Z (1024 * E + m) + t).
    { rewrite (normalized_dep_binade E c a Hc_lo Hc_hi Ha).
      unfold c. replace (1024 * (E - 1))%Z with (1024 * E - 1024)%Z by lia.
      unfold Zminus. rewrite !inject_Z_plus, !inject_Z_opp.
      change (inject_Z 1024) with 1024. lra. }
    assert (Hmax : a <= HALF_MAX).
    { rewrite Ha. unfold HALF_MAX.
      destruct (decide (E = 30%Z)) as [->|HE30].
      - change (pow2 (30 - 25)) with 32.
        assert (inject_Z m <= 1022).
        { change 1022 with (inject_Z 1022). rewrite <- Zle_Qle. lia. }
        unfold c. lra.
      - assert (Hw_hi : pow2 (E - 25) <= pow2 4) by (apply pow2_le; lia).
        change (pow2 4) with 16 in Hw_hi.
        apply Qle_trans with (2048 * pow2 (E - 25)); [|lra].
        apply Qmult_le_compat_r; lra. }
    destruct (Qle_bool a HALF_NRM_MIN) eqn:Hnrm; cbn [negb finite mbind option_bind].
    + apply Qle_bool_iff in Hnrm. unfold HALF_NRM_MIN in Hnrm.
      eexists. split; [reflexivity|]. rewrite denormalized_dep_linear.
      assert (Hge : 1024 * pow2 (E - 25) <= a).
      { rewrite Ha. apply Qmult_le_compat_r; lra. }
      assert (E = 1%Z) as ->.
      { destruct (decide (E = 1%Z)) as [|HE1]; [done|]. exfalso.
        assert (Hw2 : pow2 (-23) <= pow2 (E - 25)) by (apply pow2_le; lia).
        change (pow2 (-23)) with (1 # 8388608) in Hw2. lra. }
      change (pow2 (1 - 25)) with (1 # 16777216) in Ha.
      rewrite Ha. unfold c. rewrite inject_Z_plus. change (inject_Z (1024 * 1)) with 1024.
      lra.
    + apply Qle_bool_iff in Hmax. rewrite Hmax. cbn [negb finite mbind option_bind].
      eexists. split; [reflexivity|]. exact Hdep.
Qed.

(** X28: the raw half that the half-domain helper computes is the linear
    interpolation of the bit patterns: for a float that lies at the
    fraction [t] of the way from the half of pattern [k] to the half of
    pattern [k + 1], both finite and of the same sign, the helper computes
    [k + t], so that the linear filtering of the texture blends the LUT
    entries [k] and [k + 1] in that proportion.  The float [+0.0] itself
    ([k = 0] and [t = 0]) is left out. *)
Theorem half_dep_interpolates (k : Z) (t : Q) :
  0 <= t → t <= 1 →
  ((0 ≤ k ≤ 31742)%Z ∧ ((0 < k)%Z ∨ 0 < t)) ∨ (32768 ≤ k ≤ 64510)%Z →
  ∃ vk vk1 dep,
    half_value k = Fin vk ∧ half_value (k + 1) = Fin vk1
    ∧ half_dep (Fin ((1 - t) * vk + t * vk1)) = Some dep
    ∧ dep == inject_Z k + t.
Proof.
  intros Ht0 Ht1 Hk.
  assert (Hrange : (0 ≤ k ≤ 31742 ∨ 32768 ≤ k ≤ 64510)%Z) by lia.
  destruct (half_value_units k) as (vk & Hvk & Hvk_eq); [lia|].
  destruct (half_value_units (k + 1)) as (vk1 & Hvk1 & Hvk1_eq); [lia|].
  destruct (half_units_next k Hrange) as (Hnext & Hulp & Hunits).
  exists vk, vk1.
  set (sign := if bool_decide (32768 ≤ k)%Z then -1 else 1) in *.
  assert (Hsign1 : (if bool_decide (32768 ≤ k + 1)%Z then -1 else 1) = sign).
  { unfold sign. destruct Hrange.
    - by rewrite !bool_decide_eq_false_2 by lia.
    - by rewrite !bool_decide_eq_true_2 by lia. }
  rewrite Hsign1, Hnext, inject_Z_plus in Hvk1_eq.
  set (E := ((k / 1024) `mod` 32)%Z). set (m := (k `mod` 1024)%Z).
  assert (HE : (0 ≤ E ≤ 30)%Z) by (unfold E; lia).
  assert (Hm : (0 ≤ m < 1024)%Z) by (unfold m; lia).
  set (x := (1 - t) * vk + t * vk1).
  set (mag := (inject_Z ((if decide (E = 0%Z) then 0 else 1024) + m) + t)
              * (inject_Z (2 ^ (Z.max E 1 - 1)) * pow2 (-24))).
  assert (Hx : x == sign * mag).
  { unfold x, mag. rewrite Hvk_eq, Hvk1_eq. unfold half_units, half_ulp. fold E m.
    rewrite inject_Z_mult. ring. }
  assert (Hulp_pos : 0 < inject_Z (2 ^ (Z.max E 1 - 1)) * pow2 (-24)).
  { apply Qmult_lt_0_compat; [|apply pow2_pos].
    change 0 with (inject_Z 0). rewrite <- Zlt_Qlt. exact Hulp. }
  assert (Hbase : 0 <= inject_Z ((if decide (E = 0%Z) then 0 else 1024) + m)).
  { change 0 with (inject_Z 0). rewrite <- Zle_Qle. destruct (decide (E = 0%Z)); lia. }
  assert (Hmag : 0 <= mag).
  { unfold mag. apply Qmult_le_0_compat; [lra | by apply Qlt_le_weak]. }
  assert (Habs : Qabs x == mag).
  { rewrite Hx, Qabs_Qmult, (Qabs_pos mag) by done.
    assert (Hs : Qabs sign == 1) by (unfold sign; by destruct (bool_decide _)).
    rewrite Hs. ring. }
  destruct (magnitude_interpolates E m t x HE Hm Ht0 Ht1) as (dep & Hrun & Hdep);
    [unfold E, m; lia | exact Habs |].
  eexists. split; [exact Hvk|]. split; [exact Hvk1|]. split; [exact Hrun|].
  rewrite Hdep. destruct Hk as [[Hpos Hnz]|Hneg].
  - assert (Hs : sign = 1) by (unfold sign; by rewrite bool_decide_eq_false_2 by lia).
    rewrite Hs, Qmult_1_l in Hx.
    rewrite sign_offset_positive.
    + assert (Hk_eq : k = (1024 * E + m)%Z) by (unfold E, m; lia).
      rewrite <- Hk_eq. ring.
    + rewrite Hx. unfold mag. apply Qmult_lt_0_compat; [|done].
      destruct Hnz as [Hk0|Ht]; [|lra].
      assert (0 < inject_Z ((if decide (E = 0%Z) then 0 else 1024) + m)); [|lra].
      change 0 with (inject_Z 0). rewrite <- Zlt_Qlt.
      destruct (decide (E = 0%Z)); unfold E, m in *; lia.
  - assert (Hs : sign = -1) by (unfold sign; by rewrite bool_decide_eq_true_2 by lia).
    rewrite Hs in Hx.
    rewrite sign_offset_negative by (rewrite Hx; lra).
    assert (Hk_eq : k = (32768 + (1024 * E + m))%Z) by (unfold E, m; lia).
    assert (HkQ : inject_Z k == inject_Z (32768 + (1024 * E + m))) by (by rewrite <- Hk_eq).
    rewrite HkQ, (inject_Z_plus 32768). change (inject_Z 32768) with 32768. ring.
Qed.

End ShaderInterpolation.


(** ** The properties of the packer and of the program at concrete inputs *)

Section PackerWitnesses.

Import Float32.

Lemma PadLutChannels_texels_witness :
  valid_call (test_channel 8) 4 3
  ∧ ∃ out, PadLutChannels SanitizeFloat 4 3 (test_channel 8) = Returned out
      ∧ ∀ row col, 0 ≤ row < 3 → 0 ≤ col < 4 →
          ∃ t, triple_at (test_channel 8)
                 (Z.min (size (test_channel 8) / 3 - 1) (row * (4 - 1) + col))
               = Some t
               ∧ texel out 4 row col = Some (sanitize_triple SanitizeFloat t).
Proof.
  split; [exact test_channel_8_valid|].
  exact (PadLutChannels_texels SanitizeFloat (test_channel 8) 4 3 test_channel_8_valid).
Defined.

Lemma PadLutChannels_sanitizes_witness :
  PadLutChannels_fuel SanitizeFloat (S (length (test_channel 8))) 4 3 (test_channel 8)
  = Returned res_two_dimension_1
  ∧ ∀ y, y ∈ res_two_dimension_1 → ∃ x, x ∈ test_channel 8 ∧ y = SanitizeFloat x.
Proof.
  split; [exact pad_lut_two_dimension_1|].
  exact (PadLutChannels_sanitizes SanitizeFloat (S (length (test_channel 8)))
           (test_channel 8) 4 3 res_two_dimension_1 pad_lut_two_dimension_1).
Defined.


Import GpuShader.

Lemma GetLut1DGPUShaderProgram_single_row_witness :
  1 ≤ getLength (test_lut 8) ∧ getLength (test_lut 8) < getTextureMaxWidth empty_desc
  ∧ size (getValues (test_lut 8)) = 3 * getLength (test_lut 8)
  ∧ 3 * getLength (test_lut 8) ≤ max_size
  ∧ ∃ shaderDesc',
      GetLut1DGPUShaderProgram SanitizeFloat id empty_desc (test_lut 8) = Emitted shaderDesc'
      ∧ textures shaderDesc'
        = textures empty_desc
          ++ [ {| samplerName := id (resource_name empty_desc);
                  cacheID := getCacheID (test_lut 8);
                  width := getLength (test_lut 8);
                  height := 1;
                  interpolation := getConcreteInterpolation (test_lut 8);
                  values := SanitizeFloat <$> getValues (test_lut 8) |} ]
      ∧ declareShaderCode shaderDesc'
        = declareShaderCode empty_desc
          ++ [ if isInputHalfDomain (test_lut 8)
               then declareTex2D (resource_name empty_desc)
               else declareTex1D (resource_name empty_desc) ]
      ∧ helperShaderCode shaderDesc'
        = helperShaderCode empty_desc
          ++ (if isInputHalfDomain (test_lut 8)
              then [computePosHalf (resource_name empty_desc)
                      (float_of_ulong (getLength (test_lut 8) - 1))
                      (float_of_ulong (getLength (test_lut 8))) 1]
              else [])
      ∧ lookup <$> last (functionShaderCode shaderDesc')
        = Some (if isInputHalfDomain (test_lut 8)
                then sampleTex2D (resource_name empty_desc)
                else sampleTex1D (resource_name empty_desc)
                       (dim_minus_one (getLength (test_lut 8)))
                       (float_of_ulong (getLength (test_lut 8))))
      ∧ (getLength (test_lut 8) ≤ 2 ^ 24 →
         float_of_ulong (getLength (test_lut 8) - 1) = getLength (test_lut 8) - 1
         ∧ float_of_ulong (getLength (test_lut 8)) = getLength (test_lut 8)
         ∧ dim_minus_one (getLength (test_lut 8)) = getLength (test_lut 8) - 1).
Proof.
  assert (Hl : 1 ≤ getLength (test_lut 8)) by (vm_compute; discriminate).
  assert (Hw : getLength (test_lut 8) < getTextureMaxWidth empty_desc) by reflexivity.
  assert (Hsz : size (getValues (test_lut 8)) = 3 * getLength (test_lut 8)) by reflexivity.
  assert (Hmax : 3 * getLength (test_lut 8) ≤ max_size) by (vm_compute; discriminate).
  split; [exact Hl|]. split; [exact Hw|]. split; [exact Hsz|]. split; [exact Hmax|].
  exact (GetLut1DGPUShaderProgram_single_row SanitizeFloat id empty_desc (test_lut 8)
           Hl Hw Hsz Hmax).
Defined.

Lemma GetLut1DGPUShaderProgram_several_rows_witness :
  2 ≤ 4 ∧ 4 ≤ 8 ∧ size (getValues (test_lut 8)) = 3 * 8
  ∧ 3 * (4 * (8 / 4 + 1)) ≤ max_size
  ∧ 8 / 4 + 8 `mod` 4 < 4
  ∧ ∃ shaderDesc' vals,
      GetLut1DGPUShaderProgram SanitizeFloat id narrow_desc (test_lut 8) = Emitted shaderDesc'
      ∧ textures shaderDesc'
        = textures narrow_desc
          ++ [ {| samplerName := id (resource_name narrow_desc);
                  cacheID := getCacheID (test_lut 8);
                  width := 4;
                  height := 8 / 4 + 1;
                  interpolation := getConcreteInterpolation (test_lut 8);
                  values := vals |} ]
      ∧ size vals = 3 * 4 * (8 / 4 + 1)
      ∧ (∀ d, 0 ≤ d < 8 →
           ∃ t, triple_at (getValues (test_lut 8)) d = Some t
                ∧ texel vals 4 (d / (4 - 1)) (d `mod` (4 - 1))
                  = Some (sanitize_triple SanitizeFloat t))
      ∧ declareShaderCode shaderDesc'
        = declareShaderCode narrow_desc ++ [declareTex2D (resource_name narrow_desc)]
      ∧ helperShaderCode shaderDesc'
        = helperShaderCode narrow_desc
          ++ [ if isInputHalfDomain (test_lut 8)
               then computePosHalf (resource_name narrow_desc) (float_of_ulong (4 - 1))
                      (float_of_ulong 4) (float_of_ulong (8 / 4 + 1))
               else computePosFloat (resource_name narrow_desc) (float_of_ulong (8 - 1))
                      (float_of_ulong (4 - 1))
                      (float_of_ulong 4) (float_of_ulong (8 / 4 + 1)) ]
      ∧ lookup <$> last (functionShaderCode shaderDesc')
        = Some (sampleTex2D (resource_name narrow_desc))
      ∧ (8 ≤ 2 ^ 24 →
         float_of_ulong (8 - 1) = 8 - 1
         ∧ float_of_ulong (4 - 1) = 4 - 1
         ∧ float_of_ulong 4 = 4
         ∧ float_of_ulong (8 / 4 + 1) = 8 / 4 + 1).
Proof.
  assert (Hsz : size (getValues (test_lut 8)) = 3 * 8) by reflexivity.
  assert (Hmax : 3 * (4 * (8 / 4 + 1)) ≤ max_size) by (vm_compute; discriminate).
  assert (Hfit : 8 / 4 + 8 `mod` 4 < 4) by reflexivity.
  split; [lia|]. split; [lia|]. split; [exact Hsz|]. split; [exact Hmax|].
  split; [exact Hfit|].
  assert (Hw : 2 ≤ 4) by lia. assert (Hl : 4 ≤ 8) by lia.
  exact (GetLut1DGPUShaderProgram_several_rows SanitizeFloat id narrow_desc (test_lut 8)
           Hw Hl Hsz Hmax Hfit).
Defined.

Lemma GetLut1DGPUShaderProgram_texture_too_small_witness :
  2 ≤ 4 ∧ 4 ≤ 7 ∧ size (getValues (test_lut 7)) = 3 * 7 ∧ 3 * 7 ≤ max_size
  ∧ 7 ≤ Z.of_nat 7 ∧ 4 ≤ 7 / 4 + 7 `mod` 4
  ∧ ∃ chn,
      texels_before_padding SanitizeFloat 7 (Z.min 7 4) (ulong (7 / 4 + 1))
        (getValues (test_lut 7))
      = Returned chn
      ∧ Z.min 7 4 * ulong (7 / 4 + 1) < size chn / 3
      ∧ missingEntries (Z.min 7 4) (ulong (7 / 4 + 1)) chn
        = modulus - (size chn / 3 - Z.min 7 4 * ulong (7 / 4 + 1)).
Proof.
  assert (Hsz : size (getValues (test_lut 7)) = 3 * 7) by reflexivity.
  assert (Hmax : 3 * 7 ≤ max_size) by (vm_compute; discriminate).
  assert (Hfit : 4 ≤ 7 / 4 + 7 `mod` 4) by (vm_compute; discriminate).
  split; [lia|]. split; [lia|]. split; [exact Hsz|]. split; [exact Hmax|].
  split; [lia|]. split; [exact Hfit|].
  assert (Hw : 2 ≤ 4) by lia. assert (Hl : 4 ≤ 7) by lia.
  assert (Hfuel : 7 ≤ Z.of_nat 7) by lia.
  exact (GetLut1DGPUShaderProgram_texture_too_small SanitizeFloat 7 narrow_desc (test_lut 7)
           Hw Hl Hsz Hmax Hfuel Hfit).
Defined.

Lemma GetLut1DGPUShaderProgram_texture_too_small_throws_witness :
  2 ≤ 4 ∧ 4 ≤ 7 ∧ size (getValues (test_lut 7)) = 3 * 7 ∧ 3 * 7 ≤ max_size
  ∧ 4 ≤ 7 / 4 + 7 `mod` 4
  ∧ PadLutChannels SanitizeFloat (Z.min 7 4) (ulong (7 / 4 + 1)) (getValues (test_lut 7))
    = LengthError
  ∧ GetLut1DGPUShaderProgram SanitizeFloat id narrow_desc (test_lut 7) = VectorLengthError.
Proof.
  assert (Hsz : size (getValues (test_lut 7)) = 3 * 7) by reflexivity.
  assert (Hmax : 3 * 7 ≤ max_size) by (vm_compute; discriminate).
  assert (Hfit : 4 ≤ 7 / 4 + 7 `mod` 4) by (vm_compute; discriminate).
  assert (Hw : 2 ≤ 4) by lia. assert (Hl : 4 ≤ 7) by lia.
  split; [exact Hw|]. split; [exact Hl|]. split; [exact Hsz|]. split; [exact Hmax|].
  split; [exact Hfit|].
  exact (GetLut1DGPUShaderProgram_texture_too_small_throws SanitizeFloat id narrow_desc
           (test_lut 7) Hw Hl Hsz Hmax Hfit).
Defined.

Lemma GetLut1DGPUShaderProgram_resource_names_witness :
  GetLut1DGPUShaderProgram SanitizeFloat id empty_desc (one_entry_lut false)
  = Emitted one_lut_desc
  ∧ GetLut1DGPUShaderProgram SanitizeFloat id one_lut_desc (one_entry_lut true)
    = Emitted two_luts_desc
  ∧ getNumTextures two_luts_desc = S (S (getNumTextures empty_desc))
  ∧ resource_name one_lut_desc ≠ resource_name empty_desc
  ∧ ∃ block block',
      functionShaderCode two_luts_desc
      = functionShaderCode empty_desc ++ [block; block']
      ∧ processing_for block = resource_name empty_desc
      ∧ processing_for block' = resource_name one_lut_desc.
Proof.
  assert (Hfirst : GetLut1DGPUShaderProgram SanitizeFloat id empty_desc (one_entry_lut false)
                   = Emitted one_lut_desc) by (vm_compute; reflexivity).
  assert (Hsecond : GetLut1DGPUShaderProgram SanitizeFloat id one_lut_desc
                      (one_entry_lut true)
                    = Emitted two_luts_desc) by (vm_compute; reflexivity).
  split; [exact Hfirst|]. split; [exact Hsecond|].
  exact (GetLut1DGPUShaderProgram_resource_names SanitizeFloat id
           empty_desc one_lut_desc two_luts_desc (one_entry_lut false) (one_entry_lut true)
           Hfirst Hsecond).
Defined.

Import Shader.

Lemma row_column_within_row_witness :
  (0 <= 65535)%Q ∧ 2 ≤ 4096
  ∧ ((65535 / inject_Z (4096 - 1) < inject_Z (2 ^ 31))%Q →
     ∃ retVal, float_row_column (inject_Z (4096 - 1)) 65535 = Some retVal)
  ∧ ∀ retVal : vec2,
      retVal = half_row_column (inject_Z (4096 - 1)) 65535
      ∨ float_row_column (inject_Z (4096 - 1)) 65535 = Some retVal →
      ∃ row : Z,
        0 ≤ row ∧ y retVal = inject_Z row
        ∧ (0 <= x retVal)%Q ∧ (x retVal < inject_Z (4096 - 1))%Q
        ∧ (linear_index (inject_Z (4096 - 1)) retVal == 65535)%Q.
Proof.
  assert (Hdep : (0 <= 65535)%Q) by (vm_compute; discriminate).
  assert (Hw : 2 ≤ 4096) by lia.
  split; [exact Hdep|]. split; [exact Hw|].
  exact (row_column_within_row 65535 4096 Hdep Hw).
Defined.

Lemma GetLut1DGPUShaderProgram_float_lookup_witness :
  isInputHalfDomain (test_lut 8) = false
  ∧ 2 ≤ 4 ∧ 4 ≤ 8 ∧ size (getValues (test_lut 8)) = 3 * 8 ∧ 8 ≤ 2 ^ 24
  ∧ 8 / 4 + 8 `mod` 4 < 4
  ∧ ∃ shaderDesc' t h,
      GetLut1DGPUShaderProgram SanitizeFloat id narrow_desc (test_lut 8) = Emitted shaderDesc'
      ∧ last (textures shaderDesc') = Some t
      ∧ last (helperShaderCode shaderDesc') = Some h
      ∧ ∀ (j : Z) (f : Q),
          0 ≤ j < 8 →
          (f == inject_Z j / inject_Z (8 - 1))%Q ∨ (j = 8 - 1 ∧ (1 <= f)%Q) →
          ∃ pos entry,
            run_helper h (Fin f) = Some pos
            ∧ (x pos == (inject_Z (j `mod` (width t - 1)) + (1 # 2)) / inject_Z (width t))%Q
            ∧ (y pos == (inject_Z (j / (width t - 1)) + (1 # 2)) / inject_Z (height t))%Q
            ∧ triple_at (getValues (test_lut 8)) j = Some entry
            ∧ texel (values t) (width t) (j / (width t - 1)) (j `mod` (width t - 1))
              = Some (sanitize_triple SanitizeFloat entry).
Proof.
  assert (Hsz : size (getValues (test_lut 8)) = 3 * 8) by reflexivity.
  assert (Hmax : 8 ≤ 2 ^ 24) by (vm_compute; discriminate).
  assert (Hfit : 8 / 4 + 8 `mod` 4 < 4) by reflexivity.
  split; [reflexivity|]. split; [lia|]. split; [lia|]. split; [exact Hsz|].
  split; [exact Hmax|]. split; [exact Hfit|].
  assert (Hw : 2 ≤ 4) by lia. assert (Hl : 4 ≤ 8) by lia.
  exact (GetLut1DGPUShaderProgram_float_lookup SanitizeFloat id narrow_desc (test_lut 8)
           eq_refl Hw Hl Hsz Hmax Hfit).
Defined.

Lemma half_domain_lut_size : size (getValues half_domain_lut) = 3 * 65536.
Proof.
  cbn [getValues half_domain_lut]. unfold size. rewrite length_replicate. lia.
Qed.

Lemma GetLut1DGPUShaderProgram_half_lookup_witness :
  isInputHalfDomain half_domain_lut = true ∧ getLength half_domain_lut = 65536
  ∧ 2 ≤ 4096 ∧ 4096 ≤ 65536 ∧ size (getValues half_domain_lut) = 3 * 65536
  ∧ 65536 / 4096 + 65536 `mod` 4096 < 4096
  ∧ ∃ shaderDesc' t h,
      GetLut1DGPUShaderProgram SanitizeFloat id empty_desc half_domain_lut
      = Emitted shaderDesc'
      ∧ last (textures shaderDesc') = Some t
      ∧ last (helperShaderCode shaderDesc') = Some h
      ∧ ∀ k : Z,
          1 ≤ k ≤ 31743 ∨ 32768 ≤ k ≤ 64511 →
          ∃ pos entry,
            run_helper h (half_value k) = Some pos
            ∧ (x pos == (inject_Z (k `mod` (width t - 1)) + (1 # 2)) / inject_Z (width t))%Q
            ∧ (y pos == (inject_Z (k / (width t - 1)) + (1 # 2)) / inject_Z (height t))%Q
            ∧ triple_at (getValues half_domain_lut) k = Some entry
            ∧ texel (values t) (width t) (k / (width t - 1)) (k `mod` (width t - 1))
              = Some (sanitize_triple SanitizeFloat entry).
Proof.
  assert (Hfit : 65536 / 4096 + 65536 `mod` 4096 < 4096) by reflexivity.
  split; [reflexivity|]. split; [reflexivity|]. split; [lia|]. split; [lia|].
  split; [exact half_domain_lut_size|]. split; [exact Hfit|].
  assert (Hw : 2 ≤ 4096) by lia. assert (Hl : 4096 ≤ 65536) by lia.
  exact (GetLut1DGPUShaderProgram_half_lookup SanitizeFloat id empty_desc half_domain_lut
           eq_refl eq_refl Hw Hl half_domain_lut_size Hfit).
Defined.

Lemma half_dep_monotone_witness :
  (Qabs 1 <= Qabs 2)%Q ∧ (((0 < 1)%Q ∧ (0 < 2)%Q) ∨ ((1 < 0)%Q ∧ (2 < 0)%Q))
  ∧ ∃ dp dq, Shader.half_dep (Shader.Fin 1) = Some dp
             ∧ Shader.half_dep (Shader.Fin 2) = Some dq ∧ (dp <= dq)%Q.
Proof.
  assert (Hle : (Qabs 1 <= Qabs 2)%Q) by discriminate.
  assert (Hsign : ((0 < 1)%Q ∧ (0 < 2)%Q) ∨ ((1 < 0)%Q ∧ (2 < 0)%Q)).
  { left. split; reflexivity. }
  split; [exact Hle|]. split; [exact Hsign|].
  exact (half_dep_monotone 1 2 Hle Hsign).
Defined.

Lemma half_dep_interpolates_witness :
  (0 <= 1 # 2)%Q ∧ (1 # 2 <= 1)%Q
  ∧ ((0 ≤ 15360 ≤ 31742 ∧ (0 < 15360 ∨ (0 < 1 # 2)%Q)) ∨ 32768 ≤ 15360 ≤ 64510)
  ∧ ∃ vk vk1 dep,
      Shader.half_value 15360 = Shader.Fin vk
      ∧ Shader.half_value (15360 + 1) = Shader.Fin vk1
      ∧ Shader.half_dep (Shader.Fin ((1 - (1 # 2)) * vk + (1 # 2) * vk1)%Q) = Some dep
      ∧ (dep == inject_Z 15360 + (1 # 2))%Q.
Proof.
  assert (Ht0 : (0 <= 1 # 2)%Q) by discriminate.
  assert (Ht1 : (1 # 2 <= 1)%Q) by discriminate.
  assert (Hk : (0 ≤ 15360 ≤ 31742 ∧ (0 < 15360 ∨ (0 < 1 # 2)%Q)) ∨ 32768 ≤ 15360 ≤ 64510).
  { left. split; [lia|]. left. lia. }
  split; [exact Ht0|]. split; [exact Ht1|]. split; [exact Hk|].
  exact (half_dep_interpolates 15360 (1 # 2) Ht0 Ht1 Hk).
Defined.

End PackerWitnesses.

(** ** The properties of the color space sets at concrete inputs *)

Section ColorSpaceSetWitnesses.

Import ColorSpaceSet.

Local Abbreviation lower := pystring_lower.

Lemma three_spaces_named : named lower three_spaces.
Proof.
  intros cs Hin. unfold three_spaces in Hin.
  repeat (apply elem_of_cons in Hin as [->|Hin]; [done|]).
  by apply elem_of_nil in Hin.
Qed.

Lemma two_spaces_named : named lower two_spaces.
Proof.
  intros cs Hin. unfold two_spaces in Hin.
  repeat (apply elem_of_cons in Hin as [->|Hin]; [done|]).
  by apply elem_of_nil in Hin.
Qed.

Lemma two_spaces_distinct : distinct_names lower two_spaces.
Proof.
  unfold distinct_names. apply (bool_decide_unpack _). vm_compute. reflexivity.
Qed.

Lemma getColorSpace_by_index_witness :
  getNumColorSpaces three_spaces ≤ INT_MAX
  ∧ (∀ name, getColorSpace lower three_spaces name
             = getColorSpaceByIndex three_spaces
                 (getIndexForColorSpace lower three_spaces name))
  ∧ (∀ index, is_Some (getColorSpaceByIndex three_spaces index)
              ↔ 0 ≤ index < getNumColorSpaces three_spaces)
  ∧ (∀ index, getColorSpaceNameByIndex three_spaces index
              = getName <$> getColorSpaceByIndex three_spaces index).
Proof.
  assert (Hsize : getNumColorSpaces three_spaces ≤ INT_MAX) by (vm_compute; discriminate).
  split; [exact Hsize|].
  exact (getColorSpace_by_index three_spaces Hsize).
Defined.

Lemma addColorSpace_then_lookup_witness :
  getName (color_space "Cs1" true) ≠ ""
  ∧ ∃ m', addColorSpace lower (color_space "Cs1" true) three_spaces = Done m'
          ∧ getColorSpace lower m' (getName (color_space "Cs1" true))
            = Some (color_space "Cs1" true)
          ∧ ∀ name, lower name ≠ lower (getName (color_space "Cs1" true)) →
              getColorSpace lower m' name = getColorSpace lower three_spaces name
              ∧ getIndexForColorSpace lower m' name
                = getIndexForColorSpace lower three_spaces name.
Proof.
  assert (Hname : getName (color_space "Cs1" true) ≠ "") by discriminate.
  split; [exact Hname|].
  exact (addColorSpace_then_lookup three_spaces (color_space "Cs1" true) Hname).
Defined.

Lemma removeColorSpace_then_lookup_witness :
  distinct_names lower three_spaces
  ∧ getIndexForColorSpace lower (removeColorSpace lower "cs2" three_spaces) "cs2" = -1
  ∧ getColorSpace lower (removeColorSpace lower "cs2" three_spaces) "cs2" = None
  ∧ ∀ other, lower other ≠ lower "cs2" →
      getColorSpace lower (removeColorSpace lower "cs2" three_spaces) other
      = getColorSpace lower three_spaces other.
Proof.
  split; [exact three_spaces_distinct|].
  exact (removeColorSpace_then_lookup three_spaces "cs2" three_spaces_distinct).
Defined.

Lemma addColorSpace_removeColorSpace_witness :
  getName (color_space "cs4" false) ≠ ""
  ∧ ∃ m', addColorSpace lower (color_space "cs4" false) three_spaces = Done m'
          ∧ addColorSpace lower (color_space "cs4" false) m' = Done m'
          ∧ (getIndexForColorSpace lower three_spaces (getName (color_space "cs4" false)) = -1 →
             removeColorSpace lower (getName (color_space "cs4" false)) m' = three_spaces).
Proof.
  assert (Hname : getName (color_space "cs4" false) ≠ "") by discriminate.
  split; [exact Hname|].
  exact (addColorSpace_removeColorSpace three_spaces (color_space "cs4" false) Hname).
Defined.

Lemma ColorSpaceSet_names_never_empty_witness :
  named lower three_spaces
  ∧ (∀ cs, named lower (state_of (addColorSpace lower cs three_spaces)))
  ∧ (∀ rhs, named lower (state_of (addColorSpaces lower rhs three_spaces)))
  ∧ (∀ name, named lower (removeColorSpace lower name three_spaces))
  ∧ (∀ same_object rhs css,
       removeColorSpaces lower same_object rhs three_spaces = Some css → named lower css)
  ∧ named lower (clearColorSpaces three_spaces)
  ∧ (∀ rcss, named lower (state_of (union lower three_spaces rcss)))
  ∧ (∀ rcss, named lower (state_of (intersection lower three_spaces rcss)))
  ∧ (∀ rcss, named lower (state_of (difference lower three_spaces rcss)))
  ∧ (∀ index, getColorSpaceNameByIndex three_spaces index ≠ Some "").
Proof.
  split; [exact three_spaces_named|].
  exact (ColorSpaceSet_names_never_empty three_spaces three_spaces_named).
Defined.

Lemma union_right_operand_wins_witness :
  named lower two_spaces ∧ distinct_names lower two_spaces
  ∧ ∃ css, union lower three_spaces two_spaces = Done css
      ∧ (∀ n, n ∈ names lower css
              ↔ n ∈ names lower three_spaces ∨ n ∈ names lower two_spaces)
      ∧ (∀ name, getIndexForColorSpace lower three_spaces name ≠ -1 →
           getIndexForColorSpace lower css name
           = getIndexForColorSpace lower three_spaces name)
      ∧ (∀ name, getIndexForColorSpace lower two_spaces name = -1 →
           getColorSpace lower css name = getColorSpace lower three_spaces name)
      ∧ (∀ name, getIndexForColorSpace lower two_spaces name ≠ -1 →
           getColorSpace lower css name = getColorSpace lower two_spaces name).
Proof.
  split; [exact two_spaces_named|]. split; [exact two_spaces_distinct|].
  exact (union_right_operand_wins three_spaces two_spaces
           two_spaces_named two_spaces_distinct).
Defined.

Lemma intersection_filters_right_witness :
  distinct_names lower two_spaces
  ∧ intersection lower three_spaces two_spaces
    = Done (filter (λ cs, getIndexForColorSpace lower three_spaces (getName cs) ≠ -1)
              two_spaces).
Proof.
  split; [exact two_spaces_distinct|].
  exact (intersection_filters_right three_spaces two_spaces two_spaces_distinct).
Defined.

Lemma difference_filters_left_witness :
  distinct_names lower three_spaces ∧ named lower three_spaces
  ∧ difference lower three_spaces two_spaces
    = Done (filter (λ cs, getIndexForColorSpace lower two_spaces (getName cs) = -1)
              three_spaces).
Proof.
  split; [exact three_spaces_distinct|]. split; [exact three_spaces_named|].
  exact (difference_filters_left three_spaces two_spaces
           three_spaces_distinct three_spaces_named).
Defined.

Lemma removeColorSpaces_is_difference_witness :
  distinct_names lower three_spaces ∧ named lower three_spaces
  ∧ (∃ css, removeColorSpaces lower false two_spaces three_spaces = Some css
            ∧ difference lower three_spaces two_spaces = Done css)
  ∧ (three_spaces ≠ [] → removeColorSpaces lower true three_spaces three_spaces = None)
  ∧ removeColorSpaces lower true [] [] = Some ([] : list (ColorSpace bool)).
Proof.
  split; [exact three_spaces_distinct|]. split; [exact three_spaces_named|].
  exact (removeColorSpaces_is_difference three_spaces two_spaces
           three_spaces_distinct three_spaces_named).
Defined.

Lemma operator_eq_compares_names_witness :
  distinct_names lower three_spaces ∧ named lower three_spaces
  ∧ (operator_eq lower false three_spaces two_spaces = true
     ↔ names lower three_spaces ≡ₚ names lower two_spaces)
  ∧ operator_eq lower false three_spaces three_spaces
    = operator_eq lower true three_spaces three_spaces.
Proof.
  split; [exact three_spaces_distinct|]. split; [exact three_spaces_named|].
  exact (operator_eq_compares_names three_spaces two_spaces
           three_spaces_distinct three_spaces_named).
Defined.

Lemma lookups_ignore_case_witness :
  lower "CS1" = lower "cs1"
  ∧ getIndexForColorSpace lower three_spaces "CS1"
    = getIndexForColorSpace lower three_spaces "cs1"
  ∧ getColorSpace lower three_spaces "CS1" = getColorSpace lower three_spaces "cs1"
  ∧ removeColorSpace lower "CS1" three_spaces = removeColorSpace lower "cs1" three_spaces.
Proof.
  split; [reflexivity|].
  exact (lookups_ignore_case three_spaces "CS1" "cs1" eq_refl).
Defined.

Lemma set_operators_identities_witness :
  distinct_names lower three_spaces ∧ named lower three_spaces
  ∧ distinct_names lower two_spaces
  ∧ union lower three_spaces three_spaces = Done three_spaces
  ∧ intersection lower three_spaces three_spaces = Done three_spaces
  ∧ difference lower three_spaces three_spaces = Done []
  ∧ union lower [] three_spaces = Done three_spaces
  ∧ ∃ css, difference lower three_spaces two_spaces = Done css
           ∧ intersection lower css two_spaces = Done []
           ∧ intersection lower two_spaces css = Done [].
Proof.
  split; [exact three_spaces_distinct|]. split; [exact three_spaces_named|].
  split; [exact two_spaces_distinct|].
  exact (set_operators_identities three_spaces two_spaces
           three_spaces_distinct three_spaces_named two_spaces_distinct).
Defined.

End ColorSpaceSetWitnesses.
